(** * learnfun-playfun-v2: the Libretro emulator frontend, its state cache
    and the greedy search loop

    A shallow embedding of [tasbot/emulator-libretro.cc] (the [StateCache]
    struct and the [EmulatorLibretro] facade), of the callbacks of
    [tasbot/libretro-wrapper.cc] behind it and of the parts of
    [tasbot/playfun-nobacktrack-libretro.cc] that drive it, followed by the
    properties of the specification that concern them.

    Conventions.
    - [std::uint8_t] values are integers in [Z]; every 8-bit operation of the
      source is written with its wrap-around ([u8]).  [std::uint64_t] and
      [unsigned] values are integers in [Z] reduced with [u64] / [u32] where
      the source computes with them.
    - [std::vector<std::uint8_t>] is [list Z].
    - The [std::unordered_map] of the cache is a [gmap]; its hash function
      plays no role beyond key equality, which is byte-for-byte ([KeyEquals]).
    - A function whose source can read a vector out of range or call
      [abort()] returns an [option]; [None] is that outcome.
    - The look-aheads are generic in the type of scores ([Double]); the
      frame loop of [Greedy] computes with the binary64 floats of the
      kernel ([PrimFloat]). *)

From Stdlib Require Import ZArith Lia.
From Stdlib Require Floats.PrimFloat Uint63.
From stdpp Require Import gmap list sorting.

Local Open Scope Z_scope.

(** ** Machine integers *)

Definition u8 (z : Z) : Z := z mod 2 ^ 8.
Definition u32 (z : Z) : Z := z mod 2 ^ 32.
Definition u64 (z : Z) : Z := z mod 2 ^ 64.

Definition is_u8 (z : Z) : Prop := 0 ≤ z < 2 ^ 8.
Definition is_u64 (z : Z) : Prop := 0 ≤ z < 2 ^ 64.

(** ** The state cache ([struct StateCache]) *)

Module StateCache.

(** A key is [(input, pre-state)], a value is [(sequence, post-state)].
    The source stores pointers to heap copies owned by the table; the
    copies are never mutated, so the model stores the bytes. *)
Record t : Type := Build {
  table : gmap (Z * list Z) (Z * list Z);
  limit : Z;
  count : Z;
  next_seq : Z;
  slop : Z;
  hits : Z;
  misses : Z
}.

(** The default member initialisers: what [std::make_unique<StateCache>()]
    builds. *)
Definition fresh : t :=
  {| table := ∅; limit := 0; count := 0; next_seq := 0;
     slop := 10000; hits := 0; misses := 0 |}.

(** [Resize(ll, ss)]: clear the table, set the bounds, reset [next_seq]
    and [count].  [hits] and [misses] are left alone. *)
Definition Resize (ll ss : Z) (c : t) : t :=
  {| table := ∅; limit := ll; count := 0; next_seq := 0;
     slop := ss; hits := hits c; misses := misses c |}.

(** The sequence numbers collected by the first loop of [MaybeGC], in
    table order. *)
Definition seqs_of (tb : gmap (Z * list Z) (Z * list Z)) : list Z :=
  (λ kv, kv.2.1) <$> map_to_list tb.

(** One iteration of the erase loop of [MaybeGC] at the entry [kv]. *)
Definition erase_step (min_seq : Z) (c : t) (kv : (Z * list Z) * (Z * list Z)) : t :=
  if decide (kv.2.1 < min_seq) then
    {| table := delete kv.1 (table c); limit := limit c;
       count := u64 (count c - 1); next_seq := next_seq c;
       slop := slop c; hits := hits c; misses := misses c |}
  else c.

(** The erase loop: visit every entry of the table once. *)
Definition erase_below (min_seq : Z) (c : t) : t :=
  foldl (erase_step min_seq) c (map_to_list (table c)).

(** [MaybeGC()].  [seqs[num_remove]] is [std::vector::operator[]]: an
    index that is not below [seqs.size()] reads out of range, which is
    [None] here. *)
Definition MaybeGC (c : t) : option t :=
  if decide (count c ≤ u64 (limit c + slop c)) then Some c
  else
    let seqs := merge_sort Z.le (seqs_of (table c)) in
    let num_remove := u64 (count c - limit c) in
    match seqs !! Z.to_nat num_remove with
    | None => None
    | Some min_seq => Some (erase_below min_seq c)
    end.

(** [Remember(input, start, result)].  [table.emplace] inserts only when
    no entry has an equal key; [next_seq++] and [count++] happen either
    way. *)
Definition Remember (input : Z) (start result : list Z) (c : t) : option t :=
  let tb :=
    match table c !! (input, start) with
    | Some _ => table c
    | None => <[(input, start) := (next_seq c, result)]> (table c)
    end in
  MaybeGC {| table := tb; limit := limit c;
             count := u64 (count c + 1); next_seq := u64 (next_seq c + 1);
             slop := slop c; hits := hits c; misses := misses c |}.

(** [GetKnown(input, start)]: the post-state on a hit ([nullptr] is
    [None]) and the cache afterwards. *)
Definition GetKnown (input : Z) (start : list Z) (c : t) : option (list Z) * t :=
  match table c !! (input, start) with
  | None =>
      (None,
       {| table := table c; limit := limit c; count := count c;
          next_seq := next_seq c; slop := slop c;
          hits := hits c; misses := u64 (misses c + 1) |})
  | Some (_, result) =>
      (Some result,
       {| table := <[(input, start) := (next_seq c, result)]> (table c);
          limit := limit c; count := count c;
          next_seq := u64 (next_seq c + 1); slop := slop c;
          hits := u64 (hits c + 1); misses := misses c |})
  end.

(** The operations a client can perform on a cache, and their execution. *)
Inductive op : Type :=
| OpResize (ll ss : Z)
| OpRemember (input : Z) (start result : list Z)
| OpGetKnown (input : Z) (start : list Z)
| OpMaybeGC.

Definition exec (o : op) (c : t) : option t :=
  match o with
  | OpResize ll ss => Some (Resize ll ss c)
  | OpRemember i s r => Remember i s r c
  | OpGetKnown i s => Some (GetKnown i s c).2
  | OpMaybeGC => MaybeGC c
  end.

Fixpoint exec_all (os : list op) (c : t) : option t :=
  match os with
  | [] => Some c
  | o :: os' =>
      match exec o c with
      | Some c' => exec_all os' c'
      | None => None
      end
  end.

(** The predicates the invariants are stated with. *)

(** [count] equals the number of entries. *)
Definition count_ok (c : t) : Prop := count c = Z.of_nat (size (table c)).

(** Sequence numbers are pairwise distinct and below [next_seq]. *)
Definition seqs_ok (c : t) : Prop :=
  NoDup (seqs_of (table c)) ∧ Forall (λ s, 0 ≤ s < next_seq c) (seqs_of (table c)).

(** The fields of type [std::uint64_t] hold 64-bit values. *)
Definition in_range (c : t) : Prop :=
  is_u64 (limit c) ∧ is_u64 (slop c) ∧ is_u64 (count c) ∧ is_u64 (next_seq c)
  ∧ is_u64 (hits c) ∧ is_u64 (misses c).

(** [newest n tb tb']: [tb'] consists of [n] entries of [tb], and every
    entry of [tb] that is not in [tb'] has a smaller sequence number than
    every entry of [tb']; that is, [tb'] is [tb] restricted to its [n]
    largest sequence numbers. *)
Definition newest (n : nat) (tb tb' : gmap (Z * list Z) (Z * list Z)) : Prop :=
  tb' ⊆ tb ∧ size tb' = n
  ∧ ∀ k v k' v', tb !! k = Some v → tb' !! k = None →
                 tb' !! k' = Some v' → v.1 < v'.1.

(** [seqs_ok] together with a bound [n] on the stamps handed out since
    the counter was last reset. *)
Definition stamped (n : Z) (c : t) : Prop := seqs_ok c ∧ 0 ≤ next_seq c ≤ n.

End StateCache.

(** ** The core behind the plugin ABI

    The emulator core is a shared object loaded at run time; the frontend
    sees it through [LibretroWrapper].  The core is a parameter of the
    development: a type of core states and the entry points the frontend
    uses. *)

(** One call of the video-refresh callback by the core: the frame pointer
    ([None] is a null pointer, a duplicated frame) with the bytes behind it,
    and the reported geometry. *)
Record VideoRefresh : Type := {
  vr_data : option (list Z);
  vr_width : Z;
  vr_height : Z;
  vr_pitch : Z
}.

Class Libretro (Core : Type) : Type := {
  (** [retro_run] with the joypad mask of port 0 (port 1 is never written
      and stays 0): the next state and the video-refresh calls it made. *)
  retro_run : Z → Core → Core * list VideoRefresh;
  retro_serialize_size : Core → nat;
  (** [retro_serialize(buf, n)]: the buffer after a successful call, [None]
      when the core returns false and leaves the buffer alone. *)
  retro_serialize : Core → nat → option (list Z);
  retro_unserialize : list Z → Core → Core;
  (** The bytes of [RETRO_MEMORY_SYSTEM_RAM] ([[]] for a null pointer or
      size 0). *)
  retro_get_memory : Core → list Z
}.

(** [compress2] and [uncompress] of zlib; [None] is a result other than
    [Z_OK].  [uncompress n z] inflates [z] into a buffer of [n] bytes and
    returns the bytes written. *)
Class Zlib : Type := {
  compress2 : list Z → option (list Z);
  uncompress : nat → list Z → option (list Z)
}.

(** ** The canonical frame ([g_frame_rgba] and the video callback) *)

Module Video.

(** [struct FrameBuffer]. *)
Record FrameBuffer : Type := {
  data : list Z;
  width : Z;
  height : Z;
  pitch : Z
}.

(** [VideoRefreshCallback] builds the frame handed to the user callback:
    a span of [height * pitch] bytes and the geometry, with [pitch] cast
    to [unsigned].  A null frame pointer does not reach the user callback.
    Bytes of the span past what the core provides read as 0 here. *)
Definition frame_of (vr : VideoRefresh) : option FrameBuffer :=
  match vr_data vr with
  | None => None
  | Some bytes =>
      Some {| data := resize (Z.to_nat (u64 (vr_height vr * vr_pitch vr))) 0 bytes;
              width := vr_width vr;
              height := vr_height vr;
              pitch := u32 (vr_pitch vr) |}
  end.

Definition FRAME_BYTES : nat := 256 * 256 * 4.

(** The body of the inner loop of the video callback at [(x, y)]. *)
Definition put_pixel (fb : FrameBuffer) (y x : Z) (rgba : list Z) : list Z :=
  let src_offset := u32 (u32 (y * pitch fb) + u32 (x * 4)) in
  let dst_offset := Z.to_nat (u32 (u32 (u32 (y * 256) * 4) + u32 (x * 4))) in
  if decide (u64 (src_offset + 3) < Z.of_nat (length (data fb))) then
    <[(dst_offset + 3)%nat := 255]>
      (<[(dst_offset + 2)%nat := data fb !!! Z.to_nat (src_offset + 0)]>
         (<[(dst_offset + 1)%nat := data fb !!! Z.to_nat (src_offset + 1)]>
            (<[(dst_offset + 0)%nat := data fb !!! Z.to_nat (src_offset + 2)]> rgba)))
  else rgba.

(** The lambda registered with [SetVideoCallback]. *)
Definition video_cb (fb : FrameBuffer) (rgba : list Z) : list Z :=
  foldl (λ acc y,
           foldl (λ acc x, put_pixel fb y x acc) acc
                 (seqZ 0 (Z.min (width fb) 256)))
        (resize FRAME_BYTES 0 rgba)
        (seqZ 0 (Z.min (height fb) 256)).

(** The effect of one video-refresh call of the core on [g_frame_rgba]. *)
Definition refresh (rgba : list Z) (vr : VideoRefresh) : list Z :=
  match frame_of vr with
  | Some fb => video_cb fb rgba
  | None => rgba
  end.

(** The four bytes of the pixel at column [x] of row [y]. *)
Definition pixel (rgba : list Z) (x y : nat) : list Z :=
  take 4 (drop (y * 1024 + x * 4) rgba).

(** The byte at index [i] of the frame belongs to a pixel in the first [W]
    columns and the first [H] rows. *)
Definition inside (W H : Z) (i : nat) : Prop :=
  (Z.of_nat i `mod` 1024) / 4 < W ∧ Z.of_nat i / 1024 < H.

(** The buffer is empty, or it is a full frame whose bytes outside the
    first [W] columns and [H] rows are 0. *)
Definition frame_ok (W H : Z) (rgba : list Z) : Prop :=
  rgba = []
  ∨ (length rgba = FRAME_BYTES
     ∧ ∀ i, (i < FRAME_BYTES)%nat → ¬ inside W H i → rgba !! i = Some 0).

(** The core never reports a frame wider than [W] or higher than [H]. *)
Definition geometry_within {Core : Type} `{!Libretro Core} (W H : Z) : Prop :=
  ∀ b (c : Core),
    Forall (λ vr, vr_width vr ≤ W ∧ vr_height vr ≤ H) (retro_run b c).2.

End Video.

(** ** [class LibretroWrapper] *)

Module Wrapper.
Section wrapper.
Context {Core : Type} `{!Libretro Core}.

(** The part of [ImplData] the frontend depends on.  A wrapper held in
    [g_wrapper] has its video callback registered. *)
Record t : Type := Build {
  rom_loaded : bool;
  input_state : Z;
  core : Core
}.

(** [SetInput(0, input)]. *)
Definition SetInput (input : Z) (w : t) : t :=
  {| rom_loaded := rom_loaded w; input_state := input; core := core w |}.

(** [Run()]: nothing without a ROM; otherwise one [retro_run], whose
    video-refresh calls are returned for the frontend's callback. *)
Definition Run (w : t) : t * list VideoRefresh :=
  if rom_loaded w then
    let '(core', refreshes) := retro_run (input_state w) (core w) in
    ({| rom_loaded := true; input_state := input_state w; core := core' |},
     refreshes)
  else (w, []).

Definition GetRAM (w : t) : list Z :=
  if rom_loaded w then retro_get_memory (core w) else [].

Definition GetStateSize (w : t) : nat :=
  if rom_loaded w then retro_serialize_size (core w) else 0%nat.

(** [SaveState(buffer)]: the buffer after a successful call. *)
Definition SaveState (w : t) (buffer : list Z) : option (list Z) :=
  if rom_loaded w then
    if decide (length buffer < GetStateSize w)%nat then None
    else retro_serialize (core w) (length buffer)
  else None.

(** [LoadState(buffer)]; the frontend ignores the returned flag. *)
Definition LoadState (buffer : list Z) (w : t) : t :=
  if rom_loaded w then
    {| rom_loaded := true; input_state := input_state w;
       core := retro_unserialize buffer (core w) |}
  else w.
End wrapper.
Global Arguments t Core : clear implicits.
End Wrapper.

(** ** [struct EmulatorLibretro] *)

Module EmulatorLibretro.
Section frontend.
Context {Core : Type} `{!Libretro Core} `{!Zlib}.
(** [CityHash64] of the RAM bytes. *)
Context (CityHash64 : list Z → Z).

(** The file-level state of [emulator-libretro.cc]. *)
Record t : Type := Build {
  g_wrapper : option (Wrapper.t Core);
  g_initialized : bool;
  g_frame_rgba : list Z;
  g_cache : option StateCache.t
}.

(** The state at program start. *)
Definition start : t :=
  {| g_wrapper := None; g_initialized := false;
     g_frame_rgba := []; g_cache := None |}.

Definition with_wrapper (w : option (Wrapper.t Core)) (fs : t) : t :=
  {| g_wrapper := w; g_initialized := g_initialized fs;
     g_frame_rgba := g_frame_rgba fs; g_cache := g_cache fs |}.

Definition with_cache (c : option StateCache.t) (fs : t) : t :=
  {| g_wrapper := g_wrapper fs; g_initialized := g_initialized fs;
     g_frame_rgba := g_frame_rgba fs; g_cache := c |}.

(** What loading the core and the ROM can come to in [Initialize]. *)
Inductive load_result : Type :=
| CoreLoadFailed
| ROMLoadFailed
| Loaded (c : Core).

(** [Initialize(core_path, rom_path)], with the outcome of the two loads
    given.  The cache is allocated before the loads are tried and is not
    released when one of them fails. *)
Definition Initialize (r : load_result) (fs : t) : bool * t :=
  if g_initialized fs then (false, fs)
  else
    match r with
    | CoreLoadFailed | ROMLoadFailed =>
        (false,
         {| g_wrapper := None; g_initialized := false;
            g_frame_rgba := g_frame_rgba fs;
            g_cache := Some StateCache.fresh |})
    | Loaded c =>
        (true,
         {| g_wrapper :=
              Some {| Wrapper.rom_loaded := true;
                      Wrapper.input_state := 0;
                      Wrapper.core := c |};
            g_initialized := true;
            g_frame_rgba := g_frame_rgba fs;
            g_cache := Some StateCache.fresh |})
    end.

Definition Shutdown (fs : t) : t :=
  {| g_wrapper := None; g_initialized := false;
     g_frame_rgba := []; g_cache := None |}.

Definition Step (inputs : Z) (fs : t) : t :=
  match g_wrapper fs with
  | None => fs
  | Some w =>
      let '(w', refreshes) := Wrapper.Run (Wrapper.SetInput inputs w) in
      {| g_wrapper := Some w'; g_initialized := g_initialized fs;
         g_frame_rgba := foldl Video.refresh (g_frame_rgba fs) refreshes;
         g_cache := g_cache fs |}
  end.

Definition StepFull (inputs : Z) (fs : t) : t := Step inputs fs.

Definition GetMemory (fs : t) : list Z :=
  match g_wrapper fs with
  | None => []
  | Some w => Wrapper.GetRAM w
  end.

Definition GetImage (fs : t) : list Z := g_frame_rgba fs.

Definition RamChecksum (fs : t) : Z :=
  match g_wrapper fs with
  | None => 0
  | Some w =>
      let ram := Wrapper.GetRAM w in
      if decide (ram = []) then 0 else CityHash64 ram
  end.

(** [SaveUncompressed(out)]: the contents of [*out] afterwards, given
    its contents before. *)
Definition SaveUncompressed (out : list Z) (fs : t) : list Z :=
  match g_wrapper fs with
  | None => []
  | Some w =>
      let buffer := resize (Wrapper.GetStateSize w) 0 out in
      match Wrapper.SaveState w buffer with
      | Some written => written
      | None => buffer
      end
  end.

Definition LoadUncompressed (inp : list Z) (fs : t) : t :=
  match g_wrapper fs with
  | None => fs
  | Some w =>
      if decide (inp = []) then fs
      else with_wrapper (Some (Wrapper.LoadState inp w)) fs
  end.

Definition GetBasis (out : list Z) (fs : t) : list Z :=
  SaveUncompressed out fs.

(** [raw[i] -= basis[i]] and [uncompressed[i] += basis[i]] for
    [i < min(basis.size(), raw.size())], in 8-bit arithmetic. *)
Fixpoint sub_basis (raw basis : list Z) : list Z :=
  match raw, basis with
  | r :: raw', b :: basis' => u8 (r - b) :: sub_basis raw' basis'
  | _, _ => raw
  end.

Fixpoint add_basis (raw basis : list Z) : list Z :=
  match raw, basis with
  | r :: raw', b :: basis' => u8 (r + b) :: add_basis raw' basis'
  | _, _ => raw
  end.

(** The four header bytes: a [std::uint32_t] stored in place. *)
Definition store_u32 (n : Z) : list Z :=
  [u32 n `mod` 256; (u32 n / 256) `mod` 256;
   (u32 n / 65536) `mod` 256; (u32 n / 16777216) `mod` 256].

Definition load_u32 (bs : list Z) : Z :=
  bs !!! 0%nat + 256 * bs !!! 1%nat + 65536 * bs !!! 2%nat
  + 16777216 * bs !!! 3%nat.

(** [SaveEx(out, basis)]: the contents of [*out], or [None] when
    [compress2] fails and the process aborts.  [basis = None] is the null
    pointer. *)
Definition SaveEx (basis : option (list Z)) (fs : t) : option (list Z) :=
  let raw := SaveUncompressed [] fs in
  let raw := match basis with
             | Some b => sub_basis raw b
             | None => raw
             end in
  match compress2 raw with
  | None => None
  | Some compressed => Some (store_u32 (Z.of_nat (length raw)) ++ compressed)
  end.

(** [LoadEx(in, basis)]; [None] when [uncompress] fails and the process
    aborts. *)
Definition LoadEx (inp : list Z) (basis : option (list Z)) (fs : t) : option t :=
  if decide (length inp < 4)%nat then Some fs
  else
    let uncomprlen := load_u32 inp in
    match uncompress (Z.to_nat uncomprlen) (drop 4 inp) with
    | None => None
    | Some uncompressed =>
        let uncompressed := match basis with
                            | Some b => add_basis uncompressed b
                            | None => uncompressed
                            end in
        Some (LoadUncompressed uncompressed fs)
    end.

Definition Save (fs : t) : option (list Z) := SaveEx None fs.
Definition Load (inp : list Z) (fs : t) : option t := LoadEx inp None fs.

Definition ResetCache (numstates slop : Z) (fs : t) : t :=
  match g_cache fs with
  | Some c => with_cache (Some (StateCache.Resize numstates slop c)) fs
  | None => fs
  end.

(** [CachingStep(input)]; [None] when [Remember] reads out of range in
    [MaybeGC]. *)
Definition CachingStep (input : Z) (fs : t) : option t :=
  match g_cache fs with
  | None => Some (Step input fs)
  | Some c =>
      let start := SaveUncompressed [] fs in
      match StateCache.GetKnown input start c with
      | (Some cached, c') =>
          Some (LoadUncompressed cached (with_cache (Some c') fs))
      | (None, c') =>
          let fs' := Step input (with_cache (Some c') fs) in
          let result := SaveUncompressed [] fs' in
          match StateCache.Remember input start result c' with
          | Some c'' => Some (with_cache (Some c'') fs')
          | None => None
          end
      end
  end.

(** [PrintCacheStats()]: the numbers printed, in order, when a cache
    exists. *)
Definition PrintCacheStats (fs : t) : option (Z * Z * Z * Z * Z) :=
  match g_cache fs with
  | Some c =>
      Some (StateCache.count c, StateCache.limit c, StateCache.next_seq c,
            StateCache.hits c, StateCache.misses c)
  | None => None
  end.

(** A sequence of [CachingStep]s. *)
Fixpoint CachingSteps (inputs : list Z) (fs : t) : option t :=
  match inputs with
  | [] => Some fs
  | b :: inputs' =>
      match CachingStep b fs with
      | Some fs' => CachingSteps inputs' fs'
      | None => None
      end
  end.

(** A sequence of [Step]s. *)
Definition Steps (inputs : list Z) (fs : t) : t :=
  foldl (λ fs b, Step b fs) fs inputs.

End frontend.
Global Arguments t Core : clear implicits.
End EmulatorLibretro.

(** ** [struct PlayFun]

    The constructor's fast-forward and the evaluation of one candidate
    motif in [Greedy], with the two look-ahead procedures.  The objectives
    ([WeightedObjectives]) and the motif bank ([Motifs]) are external: the
    scoring functions and the random motif draw are parameters, the latter
    threading the state of its generator.  [double] is a parameter with the
    operations the modelled code uses. *)

Class Double (D : Type) : Type := {
  d_one : D;
  d_add : D → D → D;
  d_min : D → D → D;
  d_max : D → D → D
}.

Module PlayFun.
Import EmulatorLibretro.
Section playfun.
Context {Core : Type} `{!Libretro Core}.
Context {D : Type} `{!Double D}.
Context {Rng : Type}.
(** [objectives->Evaluate], [objectives->EvaluateMagnitude] and
    [motifs->RandomWeightedMotif]. *)
Context (Evaluate EvaluateMagnitude : list Z → list Z → D).
Context (RandomWeightedMotif : Rng → list Z * Rng).
Context (use_magnitude_scoring : bool).

(** What a look-ahead runs in: the emulator, the generator behind the
    motif draws, and a trace of the calls of [ScoreChange] made so far
    (each with its two arguments, oldest first).  The trace is not a
    variable of the source; it records which memories were compared. *)
Record Env : Type := BuildEnv {
  emu : EmulatorLibretro.t Core;
  rng : Rng;
  scored : list (list Z * list Z)
}.

(** Computations over [Env] that can stop in [None] (an out-of-range
    read in the cache). *)
Definition M (A : Type) : Type := Env → option (A * Env).

Definition ret {A} (a : A) : M A := λ e, Some (a, e).

Definition bind {A B} (k : A → M B) (m : M A) : M B :=
  λ e, match m e with
       | Some (a, e') => k a e'
       | None => None
       end.

#[local] Instance M_ret : MRet M := @ret.
#[local] Instance M_bind : MBind M := @bind.

Definition on_emu (f : EmulatorLibretro.t Core → EmulatorLibretro.t Core) : M unit :=
  λ e, Some (tt, {| emu := f (emu e); rng := rng e; scored := scored e |}).

Definition of_emu {A} (f : EmulatorLibretro.t Core → A) : M A :=
  λ e, Some (f (emu e), e).

Definition caching_step (b : Z) : M unit :=
  λ e, match CachingStep b (emu e) with
       | Some fs => Some (tt, {| emu := fs; rng := rng e; scored := scored e |})
       | None => None
       end.

Definition random_motif : M (list Z) :=
  λ e, let '(m, g) := RandomWeightedMotif (rng e) in
       Some (m, {| emu := emu e; rng := g; scored := scored e |}).

(** [ScoreChange(mem1, mem2)]. *)
Definition ScoreChange (mem1 mem2 : list Z) : M D :=
  λ e, Some (if use_magnitude_scoring then EvaluateMagnitude mem1 mem2
             else Evaluate mem1 mem2,
             {| emu := emu e; rng := rng e;
                scored := scored e ++ [(mem1, mem2)] |}).

Definition nonzero (n : nat) : bool := negb (Nat.eqb n 0).

(** The innermost loop of [AvoidBadFutures], from byte [x] of the motif
    on; [m] is what is left of the motif. *)
Fixpoint avoid_bytes (base_memory : list Z) (i d x : nat) (m : list Z)
    (total : D) : M D :=
  match m with
  | [] => mret total
  | b :: m' =>
      caching_step b;;
      future_memory ← of_emu GetMemory;
      score ← ScoreChange base_memory future_memory;
      avoid_bytes base_memory i d (S x) m'
        (if nonzero i || nonzero d || nonzero x then d_min total score
         else score)
  end.

(** The loop over [d], from [d] on, with [n] iterations left. *)
Fixpoint avoid_depth (base_memory : list Z) (i d n : nat) (total : D) : M D :=
  match n with
  | O => mret total
  | S n' =>
      m ← random_motif;
      total' ← avoid_bytes base_memory i d 0 m total;
      avoid_depth base_memory i (S d) n' total'
  end.

(** [AvoidBadFutures(base_memory)], reading [avoid_depths]. *)
Definition AvoidBadFutures (avoid_depths : Z * Z) (base_memory : list Z) : M D :=
  base_state ← of_emu (SaveUncompressed []);
  total ← avoid_depth base_memory 0 0 (Z.to_nat avoid_depths.1) d_one;
  on_emu (LoadUncompressed base_state);;
  avoid_depth base_memory 1 0 (Z.to_nat avoid_depths.2) total.

(** [CachingStep] for every byte of a motif, in order: the loop over [x]
    in [SeekGoodFutures] and the loop over [j] in [Greedy]. *)
Fixpoint play_bytes (m : list Z) : M unit :=
  match m with
  | [] => mret tt
  | b :: m' => caching_step b;; play_bytes m'
  end.

Fixpoint seek_depth (n : nat) : M unit :=
  match n with
  | O => mret tt
  | S n' => m ← random_motif; play_bytes m;; seek_depth n'
  end.

(** One trial [i] of [SeekGoodFutures], after the state was restored. *)
Definition seek_trial (base_memory : list Z) (i : nat) (depth : Z)
    (total : D) : M D :=
  seek_depth (Z.to_nat depth);;
  future_memory ← of_emu GetMemory;
  score ← ScoreChange base_memory future_memory;
  mret (if nonzero i then d_max total score else score).

(** [SeekGoodFutures(base_memory)], reading [seek_depths]. *)
Definition SeekGoodFutures (seek_depths : Z * Z * Z) (base_memory : list Z) : M D :=
  base_state ← of_emu (SaveUncompressed []);
  total ← seek_trial base_memory 0 seek_depths.1.1 d_one;
  on_emu (LoadUncompressed base_state);;
  total ← seek_trial base_memory 1 seek_depths.1.2 total;
  on_emu (LoadUncompressed base_state);;
  seek_trial base_memory 2 seek_depths.2 total.

(** The body of the loop over [trial] in [Greedy], up to the computation
    of [score]: [current_state] and [current_memory] were captured at
    the start of the frame, [motif] is [motifvec[motif_idx]].  Returns
    [(score, immediate_score, future_score)]. *)
Definition TryMotif (avoid_depths : Z * Z) (seek_depths : Z * Z * Z)
    (current_state current_memory : list Z) (trial : nat) (motif : list Z)
    : M (D * D * D) :=
  (if nonzero trial then on_emu (LoadUncompressed current_state) else mret tt);;
  play_bytes motif;;
  new_memory ← of_emu GetMemory;
  new_state ← of_emu (SaveUncompressed []);
  immediate_score ← ScoreChange current_memory new_memory;
  avoid ← AvoidBadFutures avoid_depths new_memory;
  on_emu (LoadUncompressed new_state);;
  seek ← SeekGoodFutures seek_depths new_memory;
  let future_score := d_add avoid seek in
  mret (d_add immediate_score future_score, immediate_score, future_score).

(** The fast-forward loop of the constructor over what is left of
    [solution]: the emulator and [movie] afterwards. *)
Fixpoint fast_forward (solution : list Z)
    (fs : EmulatorLibretro.t Core) (movie : list Z)
    : EmulatorLibretro.t Core * list Z :=
  match solution with
  | [] => (fs, movie)
  | b :: solution' =>
      let fs' := Step b fs in
      let movie' := movie ++ [b] in
      if decide (b ≠ 0) then (fs', movie')
      else fast_forward solution' fs' movie'
  end.

(** The constructor, once the objectives, the motifs and the input movie
    [solution] are loaded: [ResetCache(100000, 10000)], then the
    fast-forward from an empty [movie]. *)
Definition Construct (solution : list Z) (fs : EmulatorLibretro.t Core)
    : EmulatorLibretro.t Core * list Z :=
  fast_forward solution (ResetCache 100000 10000 fs) [].

(** Between [e] and [e'], [ScoreChange] was called only with [base] as its
    first argument. *)
Definition scored_with (base : list Z) (e e' : Env) : Prop :=
  ∃ futures, scored e' = scored e ++ ((λ f, (base, f)) <$> futures).

(** What [TryMotif] does before it takes [new_memory]: restore the state of
    the frame start for every trial but the first, then play the motif. *)
Definition play_motif (current_state : list Z) (trial : nat) (motif : list Z)
    : M unit :=
  (if nonzero trial then on_emu (LoadUncompressed current_state) else mret tt);;
  play_bytes motif.


(** *** The look-aheads as rollouts

    What the two look-aheads do to the emulator, told apart from what they
    score: the memories their rollouts pass through, in order. *)

(** What [ScoreChange] returns. *)
Definition score (mem1 mem2 : list Z) : D :=
  if use_magnitude_scoring then EvaluateMagnitude mem1 mem2
  else Evaluate mem1 mem2.

(** The memory after every step of a motif. *)
Fixpoint rollout_steps (m : list Z) : M (list (list Z)) :=
  match m with
  | [] => mret []
  | b :: m' =>
      caching_step b;;
      memory ← of_emu GetMemory;
      later ← rollout_steps m';
      mret (memory :: later)
  end.

(** [n] weighted-random motifs in sequence: for each motif, the memory
    after every step. *)
Fixpoint rollout (n : nat) : M (list (list (list Z))) :=
  match n with
  | O => mret []
  | S n' =>
      m ← random_motif;
      memories ← rollout_steps m;
      later ← rollout n';
      mret (memories :: later)
  end.

(** The two trials of avoid-bad-futures, each from the base state. *)
Definition avoid_rollouts (avoid_depths : Z * Z)
    : M (list (list (list Z)) * list (list (list Z))) :=
  base_state ← of_emu (SaveUncompressed []);
  first ← rollout (Z.to_nat avoid_depths.1);
  on_emu (LoadUncompressed base_state);;
  second ← rollout (Z.to_nat avoid_depths.2);
  mret (first, second).

(** A trial of seek-good-futures: the memory at its end. *)
Definition seek_rollout (depth : Z) : M (list Z) :=
  rollout (Z.to_nat depth);; of_emu GetMemory.

(** The three trials of seek-good-futures, each from the base state. *)
Definition seek_rollouts (seek_depths : Z * Z * Z) : M (list (list Z)) :=
  base_state ← of_emu (SaveUncompressed []);
  end1 ← seek_rollout seek_depths.1.1;
  on_emu (LoadUncompressed base_state);;
  end2 ← seek_rollout seek_depths.1.2;
  on_emu (LoadUncompressed base_state);;
  end3 ← seek_rollout seek_depths.2;
  mret [end1; end2; end3].

(** Both look-aheads of a candidate, each from the state after its motif. *)
Definition lookahead_rollouts (avoid_depths : Z * Z) (seek_depths : Z * Z * Z)
    : M (list (list (list Z)) * list (list (list Z)) * list (list Z)) :=
  new_state ← of_emu (SaveUncompressed []);
  avoid ← avoid_rollouts avoid_depths;
  on_emu (LoadUncompressed new_state);;
  seek ← seek_rollouts seek_depths;
  mret (avoid, seek).

(** The minimum that [AvoidBadFutures] keeps, over the scores of one motif:
    [total] is the minimum so far, and [started] tells whether a score has
    been taken into it. *)
Definition least_from (started : bool) (total : D) (scores : list D) : D :=
  match scores with
  | [] => total
  | s :: ss => foldl d_min (if started then d_min total s else s) ss
  end.

(** The result of [AvoidBadFutures] from the scores of its two trials,
    motif by motif: the least of them and of 1.0, where 1.0 is left out
    when the first motif of the first trial has a step. *)
Definition avoid_total (first second : list (list D)) : D :=
  match first with
  | (s :: ss) :: motifs => foldl d_min s (ss ++ concat motifs ++ concat second)
  | _ => foldl d_min d_one (concat first ++ concat second)
  end.

(** The result of [SeekGoodFutures] from the scores of its trials. *)
Definition seek_total (scores : list D) : D :=
  match scores with
  | [] => d_one
  | s :: ss => foldl d_max s ss
  end.

(** Two environments with the same emulator and generators. *)
Definition same_machine (e1 e2 : Env) : Prop :=
  emu e1 = emu e2 ∧ rng e1 = rng e2.

(** A computation that neither reads nor writes the trace of scores. *)
Definition blind {A} (m : M A) : Prop :=
  ∀ e1 e2 a e1', same_machine e1 e2 → m e1 = Some (a, e1') →
    scored e1' = scored e1
    ∧ ∃ e2', m e2 = Some (a, e2') ∧ same_machine e1' e2'
             ∧ scored e2' = scored e2.

End playfun.
End PlayFun.

(** ** What the frontend expects of the core and of zlib *)

(** The serialized state of a core state: what [SaveUncompressed] writes
    into an empty vector while a ROM is loaded. *)
Definition state_bytes {Core : Type} `{!Libretro Core} (c : Core) : list Z :=
  match retro_serialize c (retro_serialize_size c) with
  | Some written => written
  | None => replicate (retro_serialize_size c) 0
  end.

(** The behaviour of the core that section 8 of the specification takes for
    granted: stepping is a function of the serialized state and the input,
    a saved state loads back, the serialized size is fixed while a ROM is
    loaded, the serialized state covers the system RAM, and the buffer holds
    bytes. *)
Class LawfulCore (Core : Type) `{!Libretro Core} : Prop := {
  run_deterministic : ∀ b c1 c2,
    state_bytes c1 = state_bytes c2 →
    state_bytes (retro_run b c1).1 = state_bytes (retro_run b c2).1;
  load_save : ∀ c c',
    state_bytes c ≠ [] →
    state_bytes (retro_unserialize (state_bytes c) c') = state_bytes c;
  size_fixed : ∀ c1 c2, length (state_bytes c1) = length (state_bytes c2);
  memory_saved : ∀ c1 c2,
    state_bytes c1 = state_bytes c2 → retro_get_memory c1 = retro_get_memory c2;
  bytes_saved : ∀ c, Forall is_u8 (state_bytes c)
}.

(** Inflate inverts deflate. *)
Class LawfulZlib `{!Zlib} : Prop := {
  inflate_deflate : ∀ raw,
    ∃ z, compress2 raw = Some z ∧ uncompress (length raw) z = Some raw
}.

(** Every entry of the cache maps a serialized state and an input to the
    serialized state one step later. *)
Definition cache_sound {Core : Type} `{!Libretro Core} (c : StateCache.t) : Prop :=
  ∀ b s sq r, StateCache.table c !! (b, s) = Some (sq, r) →
    ∀ x : Core, state_bytes x = s → state_bytes (retro_run b x).1 = r.

(** The calls of the [EmulatorLibretro] interface that change its state,
    and the frontend states that a client can reach with them from program
    start.  A call that aborts or reads out of range leads nowhere. *)
Module Client.
Import EmulatorLibretro.
Section client.
Context {Core : Type} `{!Libretro Core} `{!Zlib}.

Inductive call : Type :=
| CInitialize (r : load_result (Core := Core))
| CShutdown
| CStep (inputs : Z)
| CStepFull (inputs : Z)
| CCachingStep (input : Z)
| CLoadUncompressed (inp : list Z)
| CLoadEx (inp : list Z) (basis : option (list Z))
| CResetCache (numstates slop : Z).

Definition perform (c : call) (fs : EmulatorLibretro.t Core)
    : option (EmulatorLibretro.t Core) :=
  match c with
  | CInitialize r => Some (Initialize r fs).2
  | CShutdown => Some (Shutdown fs)
  | CStep b => Some (Step b fs)
  | CStepFull b => Some (StepFull b fs)
  | CCachingStep b => CachingStep b fs
  | CLoadUncompressed inp => Some (LoadUncompressed inp fs)
  | CLoadEx inp basis => LoadEx inp basis fs
  | CResetCache n s => Some (ResetCache n s fs)
  end.

Fixpoint perform_all (cs : list call) (fs : EmulatorLibretro.t Core)
    : option (EmulatorLibretro.t Core) :=
  match cs with
  | [] => Some fs
  | c :: cs' =>
      match perform c fs with
      | Some fs' => perform_all cs' fs'
      | None => None
      end
  end.

Definition reachable (fs : EmulatorLibretro.t Core) : Prop :=
  ∃ cs, perform_all cs start = Some fs.

(** The frontend holds a wrapper with a ROM loaded, whose core is in
    state [x], and the cache [c]: what a successful [Initialize]
    establishes. *)
Definition running (fs : EmulatorLibretro.t Core) (x : Core)
    (c : StateCache.t) : Prop :=
  (∃ w, g_wrapper fs = Some w ∧ Wrapper.rom_loaded w = true
        ∧ Wrapper.core w = x)
  ∧ g_cache fs = Some c.

(** The core state after the inputs, and the cache keys met along the
    way. *)
Definition final (x : Core) (inputs : list Z) : Core :=
  foldl (λ x b, (retro_run b x).1) x inputs.

Fixpoint trajectory (x : Core) (inputs : list Z) : list (Z * list Z) :=
  match inputs with
  | [] => []
  | b :: inputs' =>
      (b, state_bytes x) :: trajectory (retro_run b x).1 inputs'
  end.

(** [Step(b)] in [fs] makes the core deliver a frame: its [retro_run]
    makes a video-refresh call with a frame pointer that is not null. *)
Definition delivers (b : Z) (fs : EmulatorLibretro.t Core) : bool :=
  match g_wrapper fs with
  | Some w =>
      bool_decide (Exists (λ vr, is_Some (vr_data vr))
                     (Wrapper.Run (Wrapper.SetInput b w)).2)
  | None => false
  end.

(** The input of the [Step] that the call [c] makes in [fs], when it makes
    one: [CachingStep] steps without a cache and on a miss. *)
Definition stepped (c : call) (fs : EmulatorLibretro.t Core) : option Z :=
  match c with
  | CStep b | CStepFull b => Some b
  | CCachingStep b =>
      match g_cache fs with
      | None => Some b
      | Some cache =>
          match (StateCache.GetKnown b (SaveUncompressed [] fs) cache).1 with
          | Some _ => None
          | None => Some b
          end
      end
  | _ => None
  end.

(** Whether a frame has been delivered since program start or the last
    [Shutdown], once the call [c] made in [fs] has completed; [framed]
    tells whether one had been delivered before the call. *)
Definition framed_after (c : call) (fs : EmulatorLibretro.t Core)
    (framed : bool) : bool :=
  match c with
  | CShutdown => false
  | _ =>
      match stepped c fs with
      | Some b => framed || delivers b fs
      | None => framed
      end
  end.

(** [perform_all], keeping track of that. *)
Fixpoint watch (cs : list call) (fs : EmulatorLibretro.t Core) (framed : bool)
    : option (EmulatorLibretro.t Core * bool) :=
  match cs with
  | [] => Some (fs, framed)
  | c :: cs' =>
      match perform c fs with
      | Some fs' => watch cs' fs' (framed_after c fs framed)
      | None => None
      end
  end.

(** The buffer is empty as long as no frame was delivered, and full from
    then on. *)
Definition frame_state (fs : EmulatorLibretro.t Core) (framed : bool) : Prop :=
  if framed then length (g_frame_rgba fs) = Video.FRAME_BYTES
  else g_frame_rgba fs = [].

(** What holds of every reachable frontend: the entries of its cache map
    states to their successors, and a wrapper it holds has a ROM loaded. *)
Definition settled (fs : EmulatorLibretro.t Core) : Prop :=
  (∀ c, g_cache fs = Some c → cache_sound (Core := Core) c)
  ∧ (∀ w, g_wrapper fs = Some w → Wrapper.rom_loaded w = true).
End client.
End Client.

(** ** A small core and a trivial codec, to run the model on

    The core state is a counter below 256: a step adds the input and one,
    the serialized state and the RAM are the counter as one byte.  The
    codec stores the bytes as they are. *)
Module Toy.

Definition run (b c : Z) : Z := u8 (c + b + 1).

#[global] Instance core : Libretro Z := {|
  retro_run b c := (run b c, []);
  retro_serialize_size _ := 1%nat;
  retro_serialize c n := Some (resize n 0 [u8 c]);
  retro_unserialize buf c := u8 (default c (head buf));
  retro_get_memory c := [u8 c]
|}.

#[global] Instance zlib : Zlib := {|
  compress2 raw := Some raw;
  uncompress n z := if decide (length z ≤ n)%nat then Some z else None
|}.

(** The frontend after a successful [Initialize] with the counter at 0. *)
Definition booted : EmulatorLibretro.t Z :=
  (EmulatorLibretro.Initialize (EmulatorLibretro.Loaded 0)
     EmulatorLibretro.start).2.

(** The frontend after an [Initialize] whose core failed to load. *)
Definition failed : EmulatorLibretro.t Z :=
  (EmulatorLibretro.Initialize EmulatorLibretro.CoreLoadFailed
     EmulatorLibretro.start).2.

(** A second core, which only counts its frames and shows a picture: the
    first frame is 2 by 2 pixels, every later one is 1 by 1; each source
    pixel is the bytes 1, 2, 3, 9. *)
Definition picture (n : nat) : VideoRefresh :=
  match n with
  | O => {| vr_data := Some [1; 2; 3; 9; 1; 2; 3; 9; 1; 2; 3; 9; 1; 2; 3; 9];
            vr_width := 2; vr_height := 2; vr_pitch := 8 |}
  | S _ => {| vr_data := Some [1; 2; 3; 9];
              vr_width := 1; vr_height := 1; vr_pitch := 4 |}
  end.

#[global] Instance tv : Libretro nat := {|
  retro_run b n := (S n, [picture n]);
  retro_serialize_size _ := 1%nat;
  retro_serialize n k := Some (resize k 0 [u8 (Z.of_nat n)]);
  retro_unserialize buf n := Z.to_nat (default 0 (head buf));
  retro_get_memory n := [u8 (Z.of_nat n)]
|}.

(** Scores in [Z], the difference of the first RAM bytes as the objective,
    and a motif bank that always draws the motif of the single input 1. *)
#[global] Instance double : Double Z := {|
  d_one := 1; d_add := Z.add; d_min := Z.min; d_max := Z.max
|}.

Definition evaluate (mem1 mem2 : list Z) : Z :=
  default 0 (head mem2) - default 0 (head mem1).

Definition draw (g : nat) : list Z * nat := ([1], S g).

Definition tv_booted : EmulatorLibretro.t nat :=
  (EmulatorLibretro.Initialize (EmulatorLibretro.Loaded 0%nat)
     EmulatorLibretro.start).2.

End Toy.

(** The zero bytes at the front of a movie. *)
Fixpoint leading_zeros (l : list Z) : list Z :=
  match l with
  | 0 :: l' => 0 :: leading_zeros l'
  | _ => []
  end.

(** ** The joypad ([namespace LibretroInput], [namespace LibretroUtil] and
    [InputStateCallback]) *)

Module LibretroInput.
Definition A : Z := 0x01.
Definition B : Z := 0x02.
Definition SELECT : Z := 0x04.
Definition START : Z := 0x08.
Definition UP : Z := 0x10.
Definition DOWN : Z := 0x20.
Definition LEFT : Z := 0x40.
Definition RIGHT : Z := 0x80.
End LibretroInput.

Module LibretroUtil.
(** [enum JoypadButton]: the values of [RETRO_DEVICE_ID_JOYPAD_*]. *)
Definition JOYPAD_B : Z := 0.
Definition JOYPAD_Y : Z := 1.
Definition JOYPAD_SELECT : Z := 2.
Definition JOYPAD_START : Z := 3.
Definition JOYPAD_UP : Z := 4.
Definition JOYPAD_DOWN : Z := 5.
Definition JOYPAD_LEFT : Z := 6.
Definition JOYPAD_RIGHT : Z := 7.
Definition JOYPAD_A : Z := 8.
Definition JOYPAD_X : Z := 9.

(** [(fceu_mask & bit) != 0]. *)
Definition has (fceu_mask bit : Z) : bool :=
  negb (Z.land fceu_mask bit =? 0).

(** [IsPressed(fceu_mask, btn)]. *)
Definition IsPressed (fceu_mask btn : Z) : bool :=
  if decide (btn = JOYPAD_A) then has fceu_mask LibretroInput.A
  else if decide (btn = JOYPAD_B) then has fceu_mask LibretroInput.B
  else if decide (btn = JOYPAD_SELECT) then has fceu_mask LibretroInput.SELECT
  else if decide (btn = JOYPAD_START) then has fceu_mask LibretroInput.START
  else if decide (btn = JOYPAD_UP) then has fceu_mask LibretroInput.UP
  else if decide (btn = JOYPAD_DOWN) then has fceu_mask LibretroInput.DOWN
  else if decide (btn = JOYPAD_LEFT) then has fceu_mask LibretroInput.LEFT
  else if decide (btn = JOYPAD_RIGHT) then has fceu_mask LibretroInput.RIGHT
  else false.
End LibretroUtil.

Module Joypad.
Import LibretroUtil.
Section joypad.
(** [RETRO_DEVICE_JOYPAD] and [RETRO_DEVICE_ID_JOYPAD_MASK] of [libretro.h]. *)
Context (RETRO_DEVICE_JOYPAD RETRO_DEVICE_ID_JOYPAD_MASK : Z).

(** [result |= (1 << id)] when the button [bit] is down. *)
Definition press (mask bit id result : Z) : Z :=
  if has mask bit then Z.lor result (Z.shiftl 1 id) else result.

(** The case [RETRO_DEVICE_ID_JOYPAD_MASK] of the switch. *)
Definition JoypadMask (mask : Z) : Z :=
  press mask LibretroInput.RIGHT JOYPAD_RIGHT
    (press mask LibretroInput.LEFT JOYPAD_LEFT
       (press mask LibretroInput.DOWN JOYPAD_DOWN
          (press mask LibretroInput.UP JOYPAD_UP
             (press mask LibretroInput.START JOYPAD_START
                (press mask LibretroInput.SELECT JOYPAD_SELECT
                   (press mask LibretroInput.A JOYPAD_A
                      (press mask LibretroInput.B JOYPAD_B 0))))))).

(** [InputStateCallback(port, device, index, id)].  [impl] is
    [g_current_impl]: [None] for a null pointer, otherwise the two entries
    of [input_state].  The button ids [RETRO_DEVICE_ID_JOYPAD_A], ... of
    [libretro.h] are written as the members of [enum JoypadButton], which
    the header declares with the same values. *)
Definition InputStateCallback (impl : option (Z * Z))
    (port device index id : Z) : Z :=
  match impl with
  | None => 0
  | Some input_state =>
      if decide (2 ≤ port) then 0
      else if decide (device ≠ RETRO_DEVICE_JOYPAD) then 0
      else if decide (index ≠ 0) then 0
      else
        let mask := if decide (port = 0) then input_state.1 else input_state.2 in
        if decide (id = JOYPAD_A) then (if has mask LibretroInput.A then 1 else 0)
        else if decide (id = JOYPAD_B) then (if has mask LibretroInput.B then 1 else 0)
        else if decide (id = JOYPAD_SELECT) then (if has mask LibretroInput.SELECT then 1 else 0)
        else if decide (id = JOYPAD_START) then (if has mask LibretroInput.START then 1 else 0)
        else if decide (id = JOYPAD_UP) then (if has mask LibretroInput.UP then 1 else 0)
        else if decide (id = JOYPAD_DOWN) then (if has mask LibretroInput.DOWN then 1 else 0)
        else if decide (id = JOYPAD_LEFT) then (if has mask LibretroInput.LEFT then 1 else 0)
        else if decide (id = JOYPAD_RIGHT) then (if has mask LibretroInput.RIGHT then 1 else 0)
        else if decide (id = RETRO_DEVICE_ID_JOYPAD_MASK) then JoypadMask mask
        else 0
  end.

(** What the callback reads while the wrapper [w] runs: [input_state[0]] is
    what [SetInput(0, _)] stored, [input_state[1]] keeps its initial 0. *)
Definition impl_of {Core : Type} `{!Libretro Core} (w : Wrapper.t Core) : option (Z * Z) :=
  Some (Wrapper.input_state w, 0).
End joypad.
End Joypad.

(** The eight button ids the switch of [InputStateCallback] names. *)
Definition joypad_ids : list Z :=
  [LibretroUtil.JOYPAD_A; LibretroUtil.JOYPAD_B; LibretroUtil.JOYPAD_SELECT;
   LibretroUtil.JOYPAD_START; LibretroUtil.JOYPAD_UP; LibretroUtil.JOYPAD_DOWN;
   LibretroUtil.JOYPAD_LEFT; LibretroUtil.JOYPAD_RIGHT].

(** ** Sound ([AudioSampleCallback], [AudioSampleBatchCallback], the audio
    half of [LibretroWrapper::Run], the audio callback of [Initialize] and
    [GetSound]) *)

Module Audio.

Definition is_s16 (z : Z) : Prop := - 2 ^ 15 ≤ z < 2 ^ 15.

(** [static_cast<std::int16_t>]. *)
Definition s16 (z : Z) : Z := (z + 2 ^ 15) `mod` 2 ^ 16 - 2 ^ 15.

(** One call of an audio callback by the core during [retro_run]:
    [retro_audio_sample(left, right)], or [retro_audio_sample_batch(data,
    frames)] with the samples behind [data]. *)
Inductive call : Type :=
| Sample (l r : Z)
| Batch (data : list Z) (frames : Z).

Definition AudioSampleCallback (l r : Z) (audio_buffer : list Z) : list Z :=
  audio_buffer ++ [l; r].

(** [audio_buffer.insert(end, data, data + frames * 2)]: [None] when fewer
    than [frames * 2] samples lie behind [data]. *)
Definition AudioSampleBatchCallback (data : list Z) (frames : Z)
    (audio_buffer : list Z) : option (list Z) :=
  let n := Z.to_nat (u64 (frames * 2)) in
  if decide (n ≤ length data)%nat then Some (audio_buffer ++ take n data)
  else None.

Definition callback (audio_buffer : list Z) (c : call) : option (list Z) :=
  match c with
  | Sample l r => Some (AudioSampleCallback l r audio_buffer)
  | Batch data frames => AudioSampleBatchCallback data frames audio_buffer
  end.

(** [audio_buffer] after the callbacks the core made. *)
Fixpoint collect (calls : list call) (audio_buffer : list Z) : option (list Z) :=
  match calls with
  | [] => Some audio_buffer
  | c :: calls' =>
      match callback audio_buffer c with
      | Some audio_buffer' => collect calls' audio_buffer'
      | None => None
      end
  end.

(** The lambda registered with [SetAudioCallback]: [g_audio_samples]
    afterwards.  The loop reads [samples[i]] and [samples[i + 1]] for
    [i = 0, 2, ...] below [samples.size()]; [None] when [i + 1] is out of
    range. *)
Fixpoint audio_cb (samples : list Z) : option (list Z) :=
  match samples with
  | [] => Some []
  | [_] => None
  | l :: r :: samples' =>
      match audio_cb samples' with
      | Some mono => Some (s16 (Z.quot (l + r) 2) :: mono)
      | None => None
      end
  end.

(** The audio half of [LibretroWrapper::Run()] while a ROM is loaded, with
    the callback of [Initialize] registered: [calls] are the audio calls
    that [retro_run] makes, the result is [g_audio_samples] afterwards. *)
Definition Run (calls : list call) (g_audio_samples : list Z) : option (list Z) :=
  match collect calls [] with
  | None => None
  | Some audio_buffer =>
      if decide (audio_buffer = []) then Some g_audio_samples
      else audio_cb audio_buffer
  end.

(** [GetSound(wav)]. *)
Definition GetSound (g_audio_samples : list Z) : list Z := g_audio_samples.

(** The first [n] stereo frames of interleaved samples. *)
Fixpoint stereo (n : nat) (samples : list Z) : list (Z * Z) :=
  match n, samples with
  | S n', l :: r :: samples' => (l, r) :: stereo n' samples'
  | _, _ => []
  end.

(** The stereo frames a call delivers. *)
Definition frames_of (c : call) : list (Z * Z) :=
  match c with
  | Sample l r => [(l, r)]
  | Batch data frames => stereo (Z.to_nat frames) data
  end.

(** What the core owes the callbacks: samples are 16-bit, and a batch has
    [frames * 2] samples behind its pointer. *)
Definition call_ok (c : call) : Prop :=
  match c with
  | Sample l r => is_s16 l ∧ is_s16 r
  | Batch data frames =>
      0 ≤ frames < 2 ^ 63 ∧ 2 * frames ≤ Z.of_nat (length data)
      ∧ Forall is_s16 data
  end.

(** The truncated mean of a stereo frame. *)
Definition mean (p : Z * Z) : Z := Z.quot (p.1 + p.2) 2.

End Audio.

(** ** What the video callback shows of a source pixel *)

Module VideoShown.
Import Video.
(** What the callback makes of the source pixel at column [x] of row [y]:
    the bytes at [src_offset + 2], [+ 1], [+ 0] and an opaque alpha, or
    [old] when the source offset is not inside the frame's span. *)
Definition shown (fb : FrameBuffer) (x y : Z) (old : list Z) : list Z :=
  let src_offset := u32 (u32 (y * pitch fb) + u32 (x * 4)) in
  if decide (u64 (src_offset + 3) < Z.of_nat (length (data fb))) then
    [data fb !!! Z.to_nat (src_offset + 2);
     data fb !!! Z.to_nat (src_offset + 1);
     data fb !!! Z.to_nat (src_offset + 0); 255]
  else old.
End VideoShown.

(** ** The working range of the cache *)

(** The cache is in its working range: the invariants hold, eviction has a
    positive target and the counters cannot wrap at the next insertion. *)
Definition cache_fit (c : StateCache.t) : Prop :=
  StateCache.in_range c ∧ StateCache.count_ok c ∧ StateCache.seqs_ok c
  ∧ 0 < StateCache.limit c
  ∧ StateCache.limit c + StateCache.slop c + 1 < 2 ^ 64
  ∧ StateCache.count c ≤ StateCache.limit c + StateCache.slop c.

(** ** [double]

    A [double] is a binary64 float of the kernel, with its IEEE
    arithmetic and comparisons. *)
Module Dbl.
Import PrimFloat.

(** [static_cast<double>(n)] for a size. *)
Definition of_size (n : nat) : float :=
  of_uint63 (Uint63.of_Z (Z.of_nat n)).

(** [std::min(a, b)] and [std::max(a, b)]. *)
Definition min (a b : float) : float := if ltb b a then b else a.
Definition max (a b : float) : float := if ltb a b then b else a.

#[global] Instance double : Double float := {|
  d_one := 1%float; d_add := add; d_min := min; d_max := max
|}.
End Dbl.

(** ** The search state of [struct PlayFun] and the frame loop of [Greedy] *)

Module Greedy.
Import EmulatorLibretro PrimFloat.
#[local] Set Warnings "-inexact-float".
Section greedy.
Context {Core : Type} `{!Libretro Core}.
Context {Rng : Type}.
(** [objectives->Evaluate], [objectives->EvaluateMagnitude],
    [motifs->RandomWeightedMotif], [rc.Byte()], [Shuffle] of [util.h] and
    [std::sort] with the comparator of [SelectMotifsToTry]: all external.
    [Rng] holds the state of every generator involved. *)
Context (Evaluate EvaluateMagnitude : list Z → list Z → float).
Context (RandomWeightedMotif : Rng → list Z * Rng).
Context (use_magnitude_scoring : bool).
Context (Byte : Rng → Z * Rng).
Context (Shuffle : list nat → Rng → list nat * Rng).
Context (sort_scored : list (float * nat) → list (float * nat)).
(** [motifvec], fixed by the constructor. *)
Context (motifvec : list (list Z)).

Definition HISTORY_SIZE : nat := 50.

(** The members the frame loop reads and writes, with the locals of
    [Greedy] that outlive a frame ([memories], [current_state],
    [current_memory]). *)
Record t : Type := Build {
  env : PlayFun.Env (Core := Core) (Rng := Rng);
  movie : list Z;
  recent_futures : list float;
  avoid_depths : Z * Z;
  seek_depths : Z * Z * Z;
  motif_scores : list float;
  motif_uses : Z;
  memories : list (list Z);
  current_state : list Z
}.

Definition GetAverageFutureScore (recent_futures : list float) : float :=
  match recent_futures with
  | [] => 0%float
  | _ => (foldl add 0 recent_futures / Dbl.of_size (length recent_futures))%float
  end.

Definition RecordFutureScore (score : float) (recent_futures : list float)
    : list float :=
  let pushed := recent_futures ++ [score] in
  drop (length pushed - HISTORY_SIZE) pushed.

(** [AdaptFutureDepths()]: the new [avoid_depths] and [seek_depths]. *)
Definition AdaptFutureDepths (recent_futures : list float)
    (depths : (Z * Z) * (Z * Z * Z)) : (Z * Z) * (Z * Z * Z) :=
  if decide (length recent_futures < HISTORY_SIZE / 2)%nat then depths
  else
    let avg := GetAverageFutureScore recent_futures in
    if ltb avg 0.3 then ((10, 30), (15, 15, 25))
    else if ltb 0.7 avg then ((40, 150), (50, 50, 100))
    else ((20, 75), (30, 30, 50)).

Definition with_env (e : PlayFun.Env (Core := Core) (Rng := Rng)) (p : t) : t :=
  {| env := e; movie := movie p; recent_futures := recent_futures p;
     avoid_depths := avoid_depths p; seek_depths := seek_depths p;
     motif_scores := motif_scores p; motif_uses := motif_uses p;
     memories := memories p; current_state := current_state p |}.

Definition with_emu (fs : EmulatorLibretro.t Core) (p : t) : t :=
  with_env {| PlayFun.emu := fs; PlayFun.rng := PlayFun.rng (env p);
              PlayFun.scored := PlayFun.scored (env p) |} p.

Definition with_rng (g : Rng) (p : t) : t :=
  with_env {| PlayFun.emu := PlayFun.emu (env p); PlayFun.rng := g;
              PlayFun.scored := PlayFun.scored (env p) |} p.

(** The second loop of [SelectMotifsToTry], over what is left of [scored]
    from [best_half] on. *)
Fixpoint select_rest (rest : list (float * nat)) (selected : list nat) (g : Rng)
    : list nat * Rng :=
  match rest with
  | [] => (selected, g)
  | (_, i) :: rest' =>
      let '(byte, g') := Byte g in
      select_rest rest' (if decide (byte < 64) then selected ++ [i] else selected) g'
  end.

(** [SelectMotifsToTry()]; [None] when [motif_scores[i]] is out of range. *)
Definition SelectMotifsToTry (p : t) : option (list nat * t) :=
  let n := length motifvec in
  let indices := seq 0 n in
  if decide (motif_uses p < 100) then
    let '(shuffled, g) := Shuffle indices (PlayFun.rng (env p)) in
    Some (shuffled, with_rng g p)
  else
    scored ← mapM (λ i, (λ s, (s, i)) <$> motif_scores p !! i) indices;
    let scored := sort_scored scored in
    let best_half := (n / 2)%nat in
    let '(selected, g) :=
      select_rest (drop best_half scored) (take best_half scored).*2
                  (PlayFun.rng (env p)) in
    let '(shuffled, g) := Shuffle selected g in
    Some (shuffled, with_rng g p).

(** [UpdateMotifScore(motif_idx, score)]; [None] when [motif_idx] is out of
    range. *)
Definition UpdateMotifScore (motif_idx : nat) (score : float) (p : t) : option t :=
  let scores :=
    match motif_scores p with
    | [] => replicate (length motifvec) 0%float
    | _ => motif_scores p
    end in
  old ← scores !! motif_idx;
  Some {| env := env p; movie := movie p; recent_futures := recent_futures p;
          avoid_depths := avoid_depths p; seek_depths := seek_depths p;
          motif_scores := <[motif_idx := (old * 0.95 + score * 0.05)%float]> scores;
          motif_uses := u64 (motif_uses p + 1);
          memories := memories p; current_state := current_state p |}.

(** The best candidate of the frame so far. *)
Record Best : Type := {
  best_score : float;
  best_future : float;
  best_immediate : float;
  best_motif_idx : nat
}.

(** The loop over [trial] in [Greedy], from [trial] on. *)
Fixpoint trials (current_memory : list Z) (trial : nat)
    (motifs_to_try : list nat) (p : t) (b : Best) : option (t * Best) :=
  match motifs_to_try with
  | [] => Some (p, b)
  | motif_idx :: rest =>
      motif ← motifvec !! motif_idx;
      '(scores, e) ←
        PlayFun.TryMotif Evaluate EvaluateMagnitude RandomWeightedMotif
          use_magnitude_scoring (avoid_depths p) (seek_depths p)
          (current_state p) current_memory trial motif (env p);
      let '(score, immediate_score, future_score) := scores in
      p' ← UpdateMotifScore motif_idx score (with_env e p);
      trials current_memory (S trial) rest p'
        (if ltb (best_score b) score then
           {| best_score := score; best_future := future_score;
              best_immediate := immediate_score; best_motif_idx := motif_idx |}
         else b)
  end.

(** The loop that plays the best motif: [CachingStep] and
    [movie.push_back] for every byte. *)
Fixpoint commit (best_motif : list Z) (p : t) : option t :=
  match best_motif with
  | [] => Some p
  | b :: rest =>
      fs ← CachingStep b (PlayFun.emu (env p));
      commit rest
        {| env := {| PlayFun.emu := fs; PlayFun.rng := PlayFun.rng (env p);
                     PlayFun.scored := PlayFun.scored (env p) |};
           movie := movie p ++ [b]; recent_futures := recent_futures p;
           avoid_depths := avoid_depths p; seek_depths := seek_depths p;
           motif_scores := motif_scores p; motif_uses := motif_uses p;
           memories := memories p; current_state := current_state p |}
  end.

(** One iteration of the loop over [framenum] in [Greedy], without what it
    prints and writes to files.  [None] when a vector is read out of
    range. *)
Definition frame (p : t) : option t :=
  let fs := PlayFun.emu (env p) in
  let state := SaveUncompressed (current_state p) fs in
  let current_memory := GetMemory fs in
  let p :=
    {| env := env p; movie := movie p; recent_futures := recent_futures p;
       avoid_depths := avoid_depths p; seek_depths := seek_depths p;
       motif_scores := motif_scores p; motif_uses := motif_uses p;
       memories := memories p ++ [current_memory]; current_state := state |} in
  '(motifs_to_try, p) ← SelectMotifsToTry p;
  '(p, b) ← trials current_memory 0 motifs_to_try p
             {| best_score := (-999999999.0)%float; best_future := 0%float;
                best_immediate := 0%float; best_motif_idx := 0 |};
  let recent := RecordFutureScore (best_future b) (recent_futures p) in
  let depths := AdaptFutureDepths recent (avoid_depths p, seek_depths p) in
  let p :=
    {| env := {| PlayFun.emu := LoadUncompressed (current_state p)
                                  (PlayFun.emu (env p));
                 PlayFun.rng := PlayFun.rng (env p);
                 PlayFun.scored := PlayFun.scored (env p) |};
       movie := movie p; recent_futures := recent;
       avoid_depths := depths.1; seek_depths := depths.2;
       motif_scores := motif_scores p; motif_uses := motif_uses p;
       memories := memories p; current_state := current_state p |} in
  best_motif ← motifvec !! best_motif_idx b;
  commit best_motif p.

(** [n] iterations of the loop; [Greedy()] makes [NUMFRAMES]. *)
Fixpoint frames (n : nat) (p : t) : option t :=
  match n with
  | O => Some p
  | S n' => p' ← frame p; frames n' p'
  end.

Definition NUMFRAMES : nat := Z.to_nat 10000.

Definition Greedy (p : t) : option t := frames NUMFRAMES p.

(** The members after the constructor, from the generator state [g]. *)
Definition constructed (solution : list Z) (fs : EmulatorLibretro.t Core)
    (g : Rng) : t :=
  let built := PlayFun.Construct solution fs in
  {| env := {| PlayFun.emu := built.1; PlayFun.rng := g; PlayFun.scored := [] |};
     movie := built.2; recent_futures := [];
     avoid_depths := (20, 75); seek_depths := (30, 30, 50);
     motif_scores := []; motif_uses := 0; memories := []; current_state := [] |}.

End greedy.
End Greedy.

(** The emulator of a look-ahead is initialized, and the entries of its
    cache map states to their successors. *)
Definition alive {Core : Type} `{!Libretro Core} {Rng : Type}
    (e : PlayFun.Env (Core := Core) (Rng := Rng)) : Prop :=
  ∃ x c, Client.running (PlayFun.emu e) x c ∧ cache_sound (Core := Core) c.

(** A computation that leaves the emulator in such a state. *)
Definition keeps {Core : Type} `{!Libretro Core} {Rng : Type} {A : Type}
    (m : PlayFun.M (Core := Core) (Rng := Rng) A) : Prop :=
  ∀ e a e', m e = Some (a, e') → alive e → alive e'.

(** [retro_serialize] succeeds on a buffer of [retro_serialize_size]
    bytes. *)
Definition serializes {Core : Type} `{!Libretro Core} : Prop :=
  ∀ c : Core, is_Some (retro_serialize c (retro_serialize_size c)).

Module ToyPlay.
Import PrimFloat.
(** 1 when the first RAM byte grew, 0 otherwise. *)
Definition evaluate (mem1 mem2 : list Z) : float :=
  if decide (default 0 (head mem1) < default 0 (head mem2)) then 1%float else 0%float.
Definition byte (g : nat) : Z * nat := (Z.of_nat g `mod` 256, S g).
Definition shuffle (l : list nat) (g : nat) : list nat * nat := (reverse l, S g).
Definition sort (l : list (float * nat)) : list (float * nat) :=
  merge_sort (λ a b, Is_true (negb (ltb a.1 b.1))) l.
Definition motifs : list (list Z) := [[1]; [2; 0]].
Definition p0 : Greedy.t (Core := Z) (Rng := nat) :=
  Greedy.constructed [0; 0; 5; 7] Toy.booted 0%nat.
Definition run (n : nat) :=
  Greedy.frames evaluate evaluate Toy.draw false byte shuffle sort motifs n p0.
End ToyPlay.

(** * Properties *)

(** ** Arithmetic of the machine integers *)

Lemma u64_id z : is_u64 z → u64 z = z.
Proof. intros [? ?]. unfold u64. by apply Z.mod_small. Qed.

Lemma u64_range z : is_u64 (u64 z).
Proof. unfold is_u64, u64. apply Z.mod_pos_bound. lia. Qed.

Lemma u64_sub_l a b : u64 (u64 a - b) = u64 (a - b).
Proof. unfold u64. by rewrite Zminus_mod_idemp_l. Qed.

Lemma u8_id z : is_u8 z → u8 z = z.
Proof. intros [? ?]. unfold u8. by apply Z.mod_small. Qed.

Lemma u8_range z : is_u8 (u8 z).
Proof. unfold is_u8, u8. apply Z.mod_pos_bound. lia. Qed.

(** ** Sorted lists of distinct numbers *)

Lemma filter_none_below (s : list Z) (x : Z) :
  Forall (Z.le x) s → filter (λ y, y < x) s = [].
Proof.
  induction 1 as [|b s Hb _ IH]; [done|].
  rewrite filter_cons_False by lia. done.
Qed.

(** In a sorted list without repetitions, the elements below the one at
    index [k] are the first [k] elements. *)
Lemma sorted_filter_below (s : list Z) (k : nat) (x : Z) :
  StronglySorted Z.le s → NoDup s → s !! k = Some x →
  filter (λ y, y < x) s = take k s.
Proof.
  intros Hs. revert k. induction Hs as [|a s Hs IH Ha]; intros k Hnd Hk.
  - done.
  - apply NoDup_cons in Hnd as [Hnotin Hnd]. destruct k as [|k]; simplify_eq/=.
    + rewrite filter_cons_False by lia. by apply filter_none_below.
    + assert (x ∈ s) as Hin by (by eapply list_elem_of_lookup_2).
      assert (a ≤ x) by (by eapply Forall_forall in Ha).
      assert (a ≠ x) by (intros ->; done).
      rewrite filter_cons_True by lia. f_equal. by apply IH.
Qed.

(** The number of elements of a list of distinct numbers that lie below the
    element at index [k] of its sorted copy is [k]. *)
Lemma count_below_sorted_index (l : list Z) (k : nat) (x : Z) :
  NoDup l → merge_sort Z.le l !! k = Some x →
  length (filter (λ y, y < x) l) = k.
Proof.
  intros Hnd Hk.
  assert (merge_sort Z.le l ≡ₚ l) as Hp by apply merge_sort_Permutation.
  rewrite <- Hp.
  rewrite (sorted_filter_below _ k x); try done.
  - apply length_take_le. apply lookup_lt_Some in Hk. lia.
  - apply StronglySorted_merge_sort; apply _.
  - by rewrite Hp.
Qed.

(** ** Lists and maps *)

Lemma filter_fmap_comm {A B} (f : A → B) (P : B → Prop)
    `{!∀ y, Decision (P y)} (l : list A) :
  filter P (f <$> l) = f <$> filter (λ x, P (f x)) l.
Proof.
  induction l as [|a l IH]; [done|]. csimpl.
  rewrite !filter_cons. destruct (decide (P (f a))); csimpl; by rewrite IH.
Qed.

Lemma length_filter_split {A} (P : A → Prop) `{!∀ x, Decision (P x)} (l : list A) :
  (length (filter P l) + length (filter (λ x, ¬ P x) l))%nat = length l.
Proof. rewrite <- length_app. by rewrite filter_app_complement. Qed.

Lemma NoDup_of_submseteq {A} (l k : list A) : l ⊆+ k → NoDup k → NoDup l.
Proof.
  intros [k' Hk]%submseteq_Permutation Hnd. rewrite Hk in Hnd.
  by apply NoDup_app in Hnd as [? _].
Qed.

Lemma map_to_list_filter_perm {K A} `{Countable K} (P : K * A → Prop)
    `{!∀ kv, Decision (P kv)} (m : gmap K A) :
  map_to_list (filter P m) ≡ₚ filter P (map_to_list m).
Proof.
  apply NoDup_Permutation.
  - apply NoDup_map_to_list.
  - apply NoDup_filter, NoDup_map_to_list.
  - intros [k v]. rewrite list_elem_of_filter, !elem_of_map_to_list.
    rewrite map_lookup_filter_Some. tauto.
Qed.

(** ** The erase loop of [MaybeGC] *)

Section erase_loop.
Import StateCache.
Implicit Types (c : t) (l : list ((Z * list Z) * (Z * list Z))).

Lemma erase_fold_frame ms l c :
  let c' := foldl (erase_step ms) c l in
  limit c' = limit c ∧ next_seq c' = next_seq c ∧ slop c' = slop c
  ∧ hits c' = hits c ∧ misses c' = misses c.
Proof.
  revert c. induction l as [|kv l IH]; intros c; [done|]. simpl.
  destruct (IH (erase_step ms c kv)) as (-> & -> & -> & -> & ->).
  unfold erase_step. by case_decide.
Qed.

Lemma erase_fold_count ms l c :
  is_u64 (count c) →
  count (foldl (erase_step ms) c l)
  = u64 (count c - Z.of_nat (length (filter (λ kv, kv.2.1 < ms) l))).
Proof.
  revert c. induction l as [|kv l IH]; intros c Hc; simpl.
  - rewrite Z.sub_0_r. by rewrite u64_id.
  - rewrite filter_cons. unfold erase_step at 2. case_decide; simpl.
    + rewrite IH by apply u64_range. simpl. rewrite u64_sub_l. f_equal. lia.
    + by rewrite IH.
Qed.

Lemma erase_fold_lookup ms l c k :
  table (foldl (erase_step ms) c l) !! k
  = if decide (k ∈ (filter (λ kv, kv.2.1 < ms) l).*1) then None
    else table c !! k.
Proof.
  revert c. induction l as [|kv l IH]; intros c; simpl.
  - done.
  - rewrite IH, filter_cons. unfold erase_step.
    destruct (decide (kv.2.1 < ms)) as [Hlt|Hge]; csimpl.
    + destruct (decide (k = kv.1)) as [->|Hne].
      * rewrite lookup_delete_eq.
        destruct (decide (kv.1 ∈ kv.1 :: _)) as [_|Hn].
        -- by destruct (decide _).
        -- exfalso. apply Hn, list_elem_of_here.
      * rewrite lookup_delete_ne by done.
        destruct (decide (k ∈ (filter (λ kv, kv.2.1 < ms) l).*1)) as [Hin|Hin];
          destruct (decide (k ∈ kv.1 :: _)) as [Hin'|Hin']; try done.
        -- exfalso. by apply Hin', list_elem_of_further.
        -- apply elem_of_cons in Hin' as [?|?]; done.
    + done.
Qed.

(** The loop keeps exactly the entries whose sequence number is not below
    the cutoff. *)
Lemma erase_below_table ms c :
  table (erase_below ms c) = filter (λ kv, ¬ kv.2.1 < ms) (table c).
Proof.
  apply map_eq. intros k. apply option_eq. intros v. unfold erase_below.
  rewrite erase_fold_lookup, map_lookup_filter_Some. simpl.
  case_decide as Hin.
  - apply list_elem_of_fmap in Hin as ([k' v'] & -> & Hin).
    apply list_elem_of_filter in Hin as [Hlt Hin].
    apply elem_of_map_to_list in Hin. simpl in *. split; [done|].
    intros [Hk ?]. simplify_eq. done.
  - split; [|by intros [? _]]. intros Hk. split; [done|]. intros Hlt.
    apply Hin. apply list_elem_of_fmap. exists (k, v). split; [done|].
    apply list_elem_of_filter. split; [done|]. by apply elem_of_map_to_list.
Qed.

Lemma erase_below_count ms c :
  is_u64 (count c) →
  count (erase_below ms c)
  = u64 (count c - Z.of_nat (length (filter (λ s, s < ms) (seqs_of (table c))))).
Proof.
  intros Hc. unfold erase_below. rewrite erase_fold_count by done.
  unfold seqs_of. rewrite filter_fmap_comm, length_fmap. done.
Qed.

Lemma seqs_of_filter_perm (ms : Z) (tb : gmap (Z * list Z) (Z * list Z)) :
  seqs_of (filter (λ kv : (Z * list Z) * (Z * list Z), ¬ kv.2.1 < ms) tb)
  ≡ₚ filter (λ s, ¬ s < ms) (seqs_of tb).
Proof.
  unfold seqs_of. rewrite map_to_list_filter_perm.
  by rewrite (filter_fmap_comm (λ kv : (Z * list Z) * (Z * list Z), kv.2.1)
                (λ s, ¬ s < ms)).
Qed.

Lemma size_filter_kept (ms : Z) (tb : gmap (Z * list Z) (Z * list Z)) :
  (size (filter (λ kv : (Z * list Z) * (Z * list Z), ¬ (kv.2.1 < ms)%Z) tb)
   + length (filter (λ s, (s < ms)%Z) (seqs_of tb)))%nat = size tb.
Proof.
  rewrite <- !length_map_to_list.
  rewrite <- (length_fmap (λ kv : (Z * list Z) * (Z * list Z), kv.2.1)
               (map_to_list (filter _ tb))).
  fold (seqs_of (filter (λ kv : (Z * list Z) * (Z * list Z), ¬ kv.2.1 < ms) tb)).
  rewrite seqs_of_filter_perm.
  rewrite <- (length_fmap (λ kv : (Z * list Z) * (Z * list Z), kv.2.1)
               (map_to_list tb)).
  fold (seqs_of tb).
  rewrite Nat.add_comm. apply length_filter_split.
Qed.

End erase_loop.

(** ** Sequence numbers under insertion *)

Section cache_seqs.
Import StateCache.
Implicit Types (c : t) (tb : gmap (Z * list Z) (Z * list Z)).

Lemma seqs_of_empty : seqs_of ∅ = [].
Proof. unfold seqs_of. by rewrite map_to_list_empty. Qed.

Lemma seqs_of_insert_fresh tb k v :
  tb !! k = None → seqs_of (<[k := v]> tb) ≡ₚ v.1 :: seqs_of tb.
Proof. intros Hk. unfold seqs_of. by rewrite map_to_list_insert. Qed.

Lemma seqs_of_delete tb k v :
  tb !! k = Some v → v.1 :: seqs_of (delete k tb) ≡ₚ seqs_of tb.
Proof.
  intros Hk. unfold seqs_of. by rewrite <- (map_to_list_delete tb k v).
Qed.

Lemma seqs_of_insert_over tb k v v0 :
  tb !! k = Some v0 →
  seqs_of (<[k := v]> tb) ≡ₚ v.1 :: seqs_of (delete k tb).
Proof.
  intros Hk. rewrite <- insert_delete_eq.
  apply seqs_of_insert_fresh. apply lookup_delete_eq.
Qed.

Lemma length_seqs_of tb : length (seqs_of tb) = size tb.
Proof. unfold seqs_of. by rewrite length_fmap, length_map_to_list. Qed.

(** Stamping a fresh or an existing entry with [next_seq] keeps the
    sequence numbers distinct and below the incremented counter. *)
Lemma seqs_ok_stamp (l l' : list Z) (n : Z) :
  NoDup l → Forall (λ s, 0 ≤ s < n) l → 0 ≤ n → n + 1 < 2 ^ 64 →
  l' ≡ₚ n :: l →
  NoDup l' ∧ Forall (λ s, 0 ≤ s < u64 (n + 1)) l'.
Proof.
  intros Hnd Hall Hn0 Hn Hp. rewrite u64_id by (unfold is_u64; lia).
  rewrite Hp. split.
  - apply NoDup_cons. split; [|done]. intros Hin.
    eapply Forall_forall in Hall; [|done]. lia.
  - apply Forall_cons. split; [lia|].
    eapply Forall_impl; [done|]. simpl. lia.
Qed.

End cache_seqs.

(** ** [MaybeGC] *)

Section cache_gc.
Import StateCache.
Implicit Types (c : t) (tb : gmap (Z * list Z) (Z * list Z)).

Lemma MaybeGC_skip c :
  count c ≤ u64 (limit c + slop c) → MaybeGC c = Some c.
Proof. intros Hle. unfold MaybeGC. by rewrite decide_True. Qed.

Lemma MaybeGC_inv c c' :
  MaybeGC c = Some c' →
  (count c ≤ u64 (limit c + slop c) ∧ c' = c)
  ∨ (¬ count c ≤ u64 (limit c + slop c)
     ∧ ∃ ms, merge_sort Z.le (seqs_of (table c))
               !! Z.to_nat (u64 (count c - limit c)) = Some ms
             ∧ c' = erase_below ms c).
Proof.
  unfold MaybeGC. case_decide as Hle; intros Hgc.
  - left. by simplify_eq.
  - right. split; [done|].
    destruct (merge_sort Z.le (seqs_of (table c)) !! _) as [ms|] eqn:Hms;
      [|done].
    exists ms. by simplify_eq.
Qed.

Lemma MaybeGC_frame c c' :
  MaybeGC c = Some c' →
  limit c' = limit c ∧ next_seq c' = next_seq c ∧ slop c' = slop c
  ∧ hits c' = hits c ∧ misses c' = misses c.
Proof.
  intros [[_ ->]|[_ (ms & _ & ->)]]%MaybeGC_inv; [done|].
  apply erase_fold_frame.
Qed.

Lemma MaybeGC_subseteq c c' : MaybeGC c = Some c' → table c' ⊆ table c.
Proof.
  intros [[_ ->]|[_ (ms & _ & ->)]]%MaybeGC_inv; [done|].
  rewrite erase_below_table. apply map_filter_subseteq.
Qed.

(** What [MaybeGC] keeps is a sub-multiset of the sequence numbers. *)
Lemma MaybeGC_seqs c c' :
  MaybeGC c = Some c' → seqs_of (table c') ⊆+ seqs_of (table c).
Proof.
  intros [[_ ->]|[_ (ms & _ & ->)]]%MaybeGC_inv; [done|].
  rewrite erase_below_table, seqs_of_filter_perm.
  apply sublist_submseteq, sublist_filter.
Qed.

(** The cutoff [seqs[num_remove]] has exactly [num_remove] sequence
    numbers below it when they are distinct. *)
Lemma cutoff_count tb (k : nat) (ms : Z) :
  NoDup (seqs_of tb) →
  merge_sort Z.le (seqs_of tb) !! k = Some ms →
  length (filter (λ s, s < ms) (seqs_of tb)) = k
  ∧ (size (filter (λ kv : (Z * list Z) * (Z * list Z), ¬ (kv.2.1 < ms)%Z) tb)
     + k)%nat = size tb.
Proof.
  intros Hnd Hk.
  pose proof (count_below_sorted_index _ _ _ Hnd Hk) as Hlen.
  split; [done|]. rewrite <- Hlen at 1. apply size_filter_kept.
Qed.

(** When an eviction completes, [count] is [limit], whatever [count] was
    before. *)
Lemma MaybeGC_count_evicted c c' :
  is_u64 (limit c) → is_u64 (count c) → NoDup (seqs_of (table c)) →
  ¬ count c ≤ u64 (limit c + slop c) →
  MaybeGC c = Some c' → count c' = limit c.
Proof.
  intros Hl Hc Hnd Hgt [[? _]|[_ (ms & Hms & ->)]]%MaybeGC_inv; [done|].
  rewrite erase_below_count by done.
  destruct (cutoff_count _ _ _ Hnd Hms) as [-> _].
  rewrite Z2Nat.id by apply u64_range.
  unfold u64. rewrite Zminus_mod_idemp_r.
  replace (count c - (count c - limit c)) with (limit c) by lia.
  by apply u64_id.
Qed.

(** [MaybeGC] completes when [limit] is positive, [limit + slop] does not
    overflow and [count] is the number of entries. *)
Lemma MaybeGC_total c :
  in_range c → count_ok c → 0 < limit c → limit c + slop c < 2 ^ 64 →
  is_Some (MaybeGC c).
Proof.
  intros (Hl & Hs & Hc & _) Hcount Hpos Hsum. unfold MaybeGC.
  case_decide as Hle; [done|].
  rewrite u64_id in Hle by (unfold is_u64 in *; lia).
  assert (is_u64 (count c - limit c)) by (unfold is_u64 in *; lia).
  rewrite (u64_id (count c - limit c)) by done.
  destruct (lookup_lt_is_Some_2 (merge_sort Z.le (seqs_of (table c)))
              (Z.to_nat (count c - limit c))) as [ms ->]; [|done].
  rewrite merge_sort_Permutation, length_seqs_of.
  unfold count_ok, is_u64 in *. lia.
Qed.

(** Eviction keeps exactly the [limit] entries with the largest sequence
    numbers, provided [limit] is positive. *)
Lemma MaybeGC_keeps_newest c :
  in_range c → count_ok c → NoDup (seqs_of (table c)) →
  0 < limit c → limit c + slop c < count c →
  ∃ c', MaybeGC c = Some c'
        ∧ newest (Z.to_nat (limit c)) (table c) (table c')
        ∧ count c' = limit c
        ∧ Z.of_nat (size (table c)) - Z.of_nat (size (table c'))
          = count c - limit c.
Proof.
  intros Hr Hcount Hnd Hpos Hgt.
  pose proof Hr as (Hl & Hs & Hc & _).
  assert (limit c + slop c < 2 ^ 64) as Hsum by (unfold is_u64 in *; lia).
  destruct (MaybeGC_total c Hr Hcount Hpos Hsum) as [c' Hgc].
  assert (¬ count c ≤ u64 (limit c + slop c)) as Hngt.
  { rewrite u64_id by (unfold is_u64 in *; lia). lia. }
  exists c'. split; [done|].
  pose proof (MaybeGC_count_evicted c c' Hl Hc Hnd Hngt Hgc) as Hc'.
  destruct (MaybeGC_inv _ _ Hgc) as [[? _]|[_ (ms & Hms & ->)]]; [done|].
  rewrite u64_id in Hms by (unfold is_u64 in *; lia).
  destruct (cutoff_count _ _ _ Hnd Hms) as [_ Hsize].
  rewrite erase_below_table. unfold count_ok, is_u64 in *.
  split; [|split; [done|lia]].
  split; [apply map_filter_subseteq|]. split; [lia|].
  intros k v k' v' Hk Hnone Hk'.
  apply map_lookup_filter_Some in Hk' as [_ Hge]. simpl in Hge.
  apply map_lookup_filter_None in Hnone as [Hnone|Hnone]; [congruence|].
  specialize (Hnone v Hk). simpl in Hnone. lia.
Qed.

End cache_gc.

(** ** Invariants of the cache *)

Section cache_invariants.
Import StateCache.
Implicit Types (c : t) (tb : gmap (Z * list Z) (Z * list Z)).

Lemma count_ok_fresh : count_ok fresh.
Proof. unfold count_ok. simpl. by rewrite map_size_empty. Qed.

Lemma count_ok_Resize ll ss c : count_ok (Resize ll ss c).
Proof. unfold count_ok. simpl. by rewrite map_size_empty. Qed.

Lemma count_ok_GetKnown i s c : count_ok c → count_ok (GetKnown i s c).2.
Proof.
  unfold count_ok, GetKnown. intros Hc.
  destruct (table c !! (i, s)) as [[sq r]|] eqn:Hk; simpl; [|done].
  rewrite map_size_insert_Some by done. done.
Qed.

Lemma count_ok_MaybeGC c c' :
  is_u64 (count c) → count_ok c → MaybeGC c = Some c' → count_ok c'.
Proof.
  intros Hr Hc [[_ ->]|[_ (ms & _ & ->)]]%MaybeGC_inv; [done|].
  unfold count_ok in *. rewrite erase_below_count by done.
  rewrite erase_below_table.
  pose proof (size_filter_kept ms (table c)) as Hsz.
  rewrite u64_id; unfold is_u64 in *; lia.
Qed.

Lemma count_ok_Remember i s r c c' :
  count_ok c → count c + 1 < 2 ^ 64 → table c !! (i, s) = None →
  Remember i s r c = Some c' → count_ok c'.
Proof.
  intros Hc Hlt Hk. unfold Remember. rewrite Hk. unfold count_ok in Hc.
  assert (is_u64 (count c + 1)) by (unfold is_u64; lia).
  apply count_ok_MaybeGC; simpl.
  - apply u64_range.
  - unfold count_ok. simpl. rewrite u64_id by done.
    rewrite map_size_insert_None by done. lia.
Qed.

Lemma stamped_MaybeGC n c c' :
  stamped n c → MaybeGC c = Some c' → stamped n c'.
Proof.
  intros [[Hnd Hall] Hn] Hgc.
  destruct (MaybeGC_frame _ _ Hgc) as (_ & Hseq & _).
  pose proof (MaybeGC_seqs _ _ Hgc) as Hsub.
  split; [split|]; rewrite ?Hseq; try done.
  - by eapply NoDup_of_submseteq.
  - eapply Forall_forall. intros x Hx.
    eapply Forall_forall in Hall; [done|]. by eapply elem_of_submseteq.
Qed.

Lemma stamped_exec n o c c' :
  stamped n c → n + 1 < 2 ^ 64 → exec o c = Some c' → stamped (n + 1) c'.
Proof.
  intros [[Hnd Hall] Hn] Hlt Hex.
  assert (is_u64 (next_seq c + 1)) as Hr by (unfold is_u64; lia).
  destruct o as [ll ss|i s r|i s|]; simpl in Hex.
  - simplify_eq. split; [split|]; simpl; rewrite ?seqs_of_empty.
    + apply NoDup_nil_2.
    + apply Forall_nil_2.
    + lia.
  - unfold Remember in Hex.
    eapply stamped_MaybeGC; [|done]. clear Hex.
    destruct (table c !! (i, s)) as [v|] eqn:Hk.
    + split; [split|]; simpl; rewrite ?u64_id by done; try lia; try done.
      eapply Forall_impl; [done|]. simpl. lia.
    + split; [|simpl; rewrite u64_id by done; lia]. simpl.
      eapply (seqs_ok_stamp _ _ (next_seq c)); try done; try lia.
      by apply seqs_of_insert_fresh.
  - simplify_eq. unfold GetKnown.
    destruct (table c !! (i, s)) as [[sq r]|] eqn:Hk; simpl.
    + pose proof (seqs_of_delete _ _ _ Hk) as Hdel. simpl in Hdel.
      rewrite <- Hdel in Hnd, Hall.
      apply NoDup_cons in Hnd as [_ Hnd]. apply Forall_cons in Hall as [_ Hall].
      split; [|simpl; rewrite u64_id by done; lia]. simpl.
      eapply (seqs_ok_stamp _ _ (next_seq c)); try done; try lia.
      by eapply (seqs_of_insert_over _ _ (next_seq c, r)).
    + split; [split|]; simpl; try done. lia.
  - eapply stamped_MaybeGC; [|done]. split; [done|lia].
Qed.

Lemma stamped_exec_all os n c c' :
  stamped n c → n + Z.of_nat (length os) < 2 ^ 64 →
  exec_all os c = Some c' → stamped (n + Z.of_nat (length os)) c'.
Proof.
  revert n c. induction os as [|o os IH]; intros n c Hst Hlt Hex; simpl in *.
  - simplify_eq. by rewrite Z.add_0_r.
  - destruct (exec o c) as [c1|] eqn:Ho; [|done].
    replace (n + Z.of_nat (S (length os)))
      with ((n + 1) + Z.of_nat (length os)) by lia.
    apply (IH (n + 1) c1); [|lia|done].
    eapply stamped_exec; [done|lia|done].
Qed.

Lemma stamped_fresh : stamped 0 fresh.
Proof.
  split; [split|]; simpl; rewrite ?seqs_of_empty.
  - apply NoDup_nil_2.
  - apply Forall_nil_2.
  - lia.
Qed.

End cache_invariants.

(** ** The claims about the cache *)

Section cache_claims.
Import StateCache.
Implicit Types (c : t) (tb : gmap (Z * list Z) (Z * list Z)).

(** After a completed operation [count] is within [limit + slop], and an
    eviction that completes leaves [count = limit]. *)
Lemma MaybeGC_bound c c' :
  is_u64 (limit c) → is_u64 (slop c) → is_u64 (count c) →
  NoDup (seqs_of (table c)) →
  MaybeGC c = Some c' →
  count c' ≤ limit c' + slop c'
  ∧ (¬ count c ≤ u64 (limit c + slop c) → count c' = limit c').
Proof.
  intros Hl Hs Hc Hnd Hgc.
  destruct (MaybeGC_frame _ _ Hgc) as (Hlim & _ & Hslop & _).
  rewrite Hlim, Hslop.
  destruct (decide (count c ≤ u64 (limit c + slop c))) as [Hle|Hgt].
  - rewrite MaybeGC_skip in Hgc by done. simplify_eq. split; [|done].
    pose proof (Z.mod_le (limit c' + slop c') (2 ^ 64)) as Hmod.
    unfold u64, is_u64 in *. lia.
  - rewrite (MaybeGC_count_evicted c c') by done.
    unfold is_u64 in *. split; [lia|done].
Qed.

(** With [limit = 0] an eviction has [num_remove = count], the number of
    sequence numbers collected, and [seqs[num_remove]] is one past the end
    of the vector. *)
Lemma MaybeGC_cutoff_out_of_range c :
  count_ok c → is_u64 (count c) → is_u64 (slop c) →
  limit c = 0 → slop c < count c →
  MaybeGC c = None.
Proof.
  intros Hcount Hc Hs Hl Hgt. unfold MaybeGC. rewrite Hl. simpl.
  rewrite u64_id by done. rewrite decide_False by lia.
  rewrite Z.sub_0_r, u64_id by done.
  rewrite lookup_ge_None_2; [done|].
  rewrite merge_sort_Permutation, length_seqs_of.
  unfold count_ok in Hcount. lia.
Qed.

(** C4 (defect of [MaybeGC]): an eviction, in a cache whose [count] is its
    number of entries, has a defined result exactly when [limit] is not 0.
    With [limit = 0] the cutoff [seqs[num_remove]] is read out of range,
    where the claim wants every entry removed.  For a positive [limit]
    exactly the [limit] newest entries survive ([MaybeGC_keeps_newest]). *)
Theorem MaybeGC_undefined_iff_limit_zero c :
  in_range c → count_ok c → limit c + slop c < count c →
  MaybeGC c = None ↔ limit c = 0.
Proof.
  intros Hr Hcount Hgt. pose proof Hr as (Hl & Hs & Hc & _). split.
  - intros Hnone. destruct (decide (limit c = 0)) as [|Hne]; [done|].
    destruct (MaybeGC_total c) as [c' Hc']; try done.
    + unfold is_u64 in *. lia.
    + unfold is_u64 in *. lia.
    + congruence.
  - intros Hzero. apply MaybeGC_cutoff_out_of_range; try done. lia.
Qed.

(** C5 (defect of [MaybeGC], the same as for C4): with [limit = 0] the
    [Remember] that takes [count] past [limit + slop] does not end with
    [count ≤ limit]; its [MaybeGC] reads [seqs] out of range.  Whenever an
    operation does complete, the bounds hold ([MaybeGC_bound]). *)
Theorem Remember_limit_zero_out_of_range i s r c :
  count_ok c → is_u64 (slop c) → limit c = 0 → count c = slop c →
  count c + 1 < 2 ^ 64 → table c !! (i, s) = None →
  Remember i s r c = None.
Proof.
  intros Hcount Hs Hl Hc Hlt Hk. unfold Remember. rewrite Hk.
  assert (is_u64 (count c + 1)) as Hr by (unfold is_u64 in *; lia).
  apply MaybeGC_cutoff_out_of_range; simpl; try done.
  - unfold count_ok in *. simpl. rewrite u64_id by done.
    rewrite map_size_insert_None by done. lia.
  - apply u64_range.
  - rewrite u64_id by done. lia.
Qed.

(** C6 (as amended): [count] is the number of entries of the table after
    every operation that completes, [Resize], [GetKnown], [MaybeGC] and a
    [Remember] whose key is not in the table, which is the only way the
    frontend calls [Remember]. *)
Theorem count_ok_preserved o c c' :
  count_ok c → count c + 1 < 2 ^ 64 →
  (∀ i s r, o = OpRemember i s r → table c !! (i, s) = None) →
  exec o c = Some c' → count_ok c'.
Proof.
  intros Hcount Hlt Hfresh Hex.
  assert (is_u64 (count c)) by (unfold count_ok, is_u64 in *; lia).
  destruct o as [ll ss|i s r|i s|]; simpl in Hex; simplify_eq.
  - apply count_ok_Resize.
  - eapply count_ok_Remember; eauto.
  - by apply count_ok_GetKnown.
  - by eapply count_ok_MaybeGC.
Qed.

(** C10: in every cache reached from a newly built one by operations that
    complete, the sequence numbers of the entries are pairwise distinct
    and below [next_seq]; the counter cannot have wrapped around within
    fewer than [2^64] operations. *)
Theorem seqs_distinct_below_next_seq os c :
  exec_all os fresh = Some c → Z.of_nat (length os) < 2 ^ 64 → seqs_ok c.
Proof.
  intros Hex Hlen.
  destruct (stamped_exec_all os 0 fresh c) as [Hok _];
    [apply stamped_fresh|lia|done|done].
Qed.

(** How the stamps are handed out: [Resize] empties the table and resets
    the counter together; a [GetKnown] hit and a [Remember] of a new key
    stamp that entry with the current [next_seq], and the counter moves
    on. *)
Lemma Resize_resets ll ss c :
  table (Resize ll ss c) = ∅ ∧ next_seq (Resize ll ss c) = 0.
Proof. done. Qed.

Lemma GetKnown_hit_stamp i s c sq r :
  table c !! (i, s) = Some (sq, r) →
  (GetKnown i s c).1 = Some r
  ∧ table (GetKnown i s c).2 !! (i, s) = Some (next_seq c, r)
  ∧ next_seq (GetKnown i s c).2 = u64 (next_seq c + 1)
  ∧ hits (GetKnown i s c).2 = u64 (hits c + 1)
  ∧ misses (GetKnown i s c).2 = misses c
  ∧ count (GetKnown i s c).2 = count c
  ∧ ∀ k, k ≠ (i, s) → table (GetKnown i s c).2 !! k = table c !! k.
Proof.
  intros Hk. unfold GetKnown. rewrite Hk. simpl.
  rewrite lookup_insert_eq. repeat split; try done.
  intros k Hne. by rewrite lookup_insert_ne.
Qed.

Lemma GetKnown_miss i s c :
  table c !! (i, s) = None →
  (GetKnown i s c).1 = None
  ∧ table (GetKnown i s c).2 = table c
  ∧ next_seq (GetKnown i s c).2 = next_seq c
  ∧ count (GetKnown i s c).2 = count c
  ∧ limit (GetKnown i s c).2 = limit c
  ∧ slop (GetKnown i s c).2 = slop c
  ∧ hits (GetKnown i s c).2 = hits c
  ∧ misses (GetKnown i s c).2 = u64 (misses c + 1).
Proof. intros Hk. unfold GetKnown. rewrite Hk. done. Qed.

(** A [Remember] that stays within [limit + slop] inserts and evicts
    nothing. *)
Lemma Remember_no_eviction i s r c :
  count c + 1 ≤ limit c + slop c → limit c + slop c < 2 ^ 64 →
  0 ≤ count c → table c !! (i, s) = None →
  Remember i s r c
  = Some {| table := <[(i, s) := (next_seq c, r)]> (table c);
            limit := limit c; count := count c + 1;
            next_seq := u64 (next_seq c + 1); slop := slop c;
            hits := hits c; misses := misses c |}.
Proof.
  intros Hroom Hsum Hc Hk. unfold Remember. rewrite Hk.
  rewrite (u64_id (count c + 1)) by (unfold is_u64; lia).
  apply MaybeGC_skip. simpl.
  rewrite u64_id by (unfold is_u64; lia). done.
Qed.

End cache_claims.

(** ** The frontend while a ROM is loaded *)

Section frontend_running.
Import EmulatorLibretro Client.
Context {Core : Type} `{!Libretro Core} `{!Zlib}.
Implicit Types (fs : EmulatorLibretro.t Core) (x : Core) (c : StateCache.t).

Lemma SaveUncompressed_running fs x c :
  running fs x c → SaveUncompressed [] fs = state_bytes x.
Proof.
  intros [(w & Hw & Hrom & <-) _]. unfold SaveUncompressed. rewrite Hw.
  unfold Wrapper.SaveState, Wrapper.GetStateSize, state_bytes. rewrite Hrom.
  rewrite resize_nil, length_replicate.
  rewrite decide_False by lia. done.
Qed.

Lemma GetMemory_running fs x c :
  running fs x c → GetMemory fs = retro_get_memory x.
Proof.
  intros [(w & Hw & Hrom & <-) _]. unfold GetMemory, Wrapper.GetRAM.
  by rewrite Hw, Hrom.
Qed.

Lemma Step_running fs x c b :
  running fs x c → running (Step b fs) (retro_run b x).1 c.
Proof.
  intros [(w & Hw & Hrom & <-) Hc]. unfold Step. rewrite Hw.
  unfold Wrapper.Run, Wrapper.SetInput. simpl. rewrite Hrom.
  destruct (retro_run b (Wrapper.core w)) as [x' vrs] eqn:Hrun. simpl.
  split; [|done]. eexists. split; [done|]. done.
Qed.

Lemma Steps_running inputs fs x c :
  running fs x c → running (Steps inputs fs) (final x inputs) c.
Proof.
  revert fs x. induction inputs as [|b inputs IH]; intros fs x Hrun; [done|].
  simpl. apply IH. by apply Step_running.
Qed.

Lemma with_cache_running fs x c c' :
  running fs x c → running (with_cache (Some c') fs) x c'.
Proof. intros [(w & Hw & Hrom & <-) _]. split; [|done]. by exists w. Qed.

Lemma LoadUncompressed_running fs x c inp :
  running fs x c →
  running (LoadUncompressed inp fs)
          (if decide (inp = []) then x else retro_unserialize inp x) c.
Proof.
  intros [(w & Hw & Hrom & <-) Hc]. unfold LoadUncompressed. rewrite Hw.
  case_decide; [split; [by exists w|done]|].
  split; [|done]. unfold Wrapper.LoadState. rewrite Hrom.
  eexists. split; [done|]. done.
Qed.

Context `{!LawfulCore Core}.

Lemma final_bytes inputs x y :
  state_bytes x = state_bytes y →
  state_bytes (final x inputs) = state_bytes (final y inputs).
Proof.
  revert x y. induction inputs as [|b inputs IH]; intros x y Hxy; [done|].
  simpl. apply IH. by apply run_deterministic.
Qed.

Lemma trajectory_bytes inputs x y :
  state_bytes x = state_bytes y → trajectory x inputs = trajectory y inputs.
Proof.
  revert x y. induction inputs as [|b inputs IH]; intros x y Hxy; [done|].
  simpl. rewrite Hxy. f_equal. apply IH. by apply run_deterministic.
Qed.

(** Loading the serialized state of [y] brings the core to the state of
    [y], as far as its serialized state shows. *)
Lemma LoadUncompressed_restores fs x c y :
  running fs x c →
  ∃ x', running (LoadUncompressed (state_bytes y) fs) x' c
        ∧ state_bytes x' = state_bytes y.
Proof.
  intros Hrun. eexists. split; [by apply LoadUncompressed_running|].
  case_decide as Hnil.
  - rewrite Hnil. apply nil_length_inv.
    rewrite (size_fixed x y). by rewrite Hnil.
  - by apply load_save.
Qed.

Lemma cache_sound_empty c : StateCache.table c = ∅ → cache_sound (Core := Core) c.
Proof. intros Hc b s sq r Hk. by rewrite Hc, lookup_empty in Hk. Qed.

Lemma cache_sound_subseteq c c' :
  StateCache.table c' ⊆ StateCache.table c →
  cache_sound (Core := Core) c → cache_sound (Core := Core) c'.
Proof.
  intros Hsub Hsound b s sq r Hk. eapply Hsound.
  by eapply lookup_weaken.
Qed.

(** One [CachingStep]: whenever it completes, the core is in the state a
    [Step] leads to, and the cache still maps states to their
    successors. *)
Lemma CachingStep_sound fs x c b fs' :
  running fs x c → cache_sound (Core := Core) c →
  CachingStep b fs = Some fs' →
  ∃ x' c', running fs' x' c' ∧ cache_sound (Core := Core) c'
           ∧ state_bytes x' = state_bytes (retro_run b x).1.
Proof.
  intros Hrun Hsound. unfold CachingStep.
  pose proof Hrun as [_ Hc]. rewrite Hc.
  rewrite (SaveUncompressed_running fs x c) by done.
  destruct (StateCache.table c !! (b, state_bytes x)) as [[sq r]|] eqn:Hk.
  - destruct (GetKnown_hit_stamp _ _ _ _ _ Hk)
      as (Hres & Hnew & _ & _ & _ & _ & Hother).
    destruct (StateCache.GetKnown b (state_bytes x) c) as [res c1].
    simpl in *. subst res. intros ?; simplify_eq.
    specialize (Hsound _ _ _ _ Hk x eq_refl) as Hr. subst r.
    destruct (LoadUncompressed_restores (with_cache (Some c1) fs) x c1
                (retro_run b x).1) as (x' & Hrun' & Hx').
    { by eapply with_cache_running. }
    exists x', c1. split; [done|]. split; [|done].
    intros b' s' sq' r' Hk' y Hy.
    destruct (decide ((b', s') = (b, state_bytes x))) as [Heq|Hne].
    + injection Heq as -> ->. rewrite Hnew in Hk'.
      injection Hk' as _ <-. by apply run_deterministic.
    + rewrite Hother in Hk' by done. by eapply Hsound.
  - destruct (GetKnown_miss _ _ _ Hk)
      as (Hres & Htb & _).
    destruct (StateCache.GetKnown b (state_bytes x) c) as [res c1].
    simpl in *. subst res.
    pose proof (Step_running (with_cache (Some c1) fs) x c1 b
                  (with_cache_running _ _ _ _ Hrun)) as Hrun1.
    rewrite (SaveUncompressed_running _ _ _ Hrun1).
    destruct (StateCache.Remember _ _ _ c1) as [c2|] eqn:Hrem; [|done].
    intros ?; simplify_eq.
    exists (retro_run b x).1, c2. split; [by eapply with_cache_running|].
    split; [|done].
    unfold StateCache.Remember in Hrem. rewrite Htb, Hk in Hrem.
    apply MaybeGC_subseteq in Hrem.
    apply (cache_sound_subseteq _ _ Hrem). clear Hrem.
    intros b' s' sq' r' Hk' y Hy. simpl in Hk'.
    destruct (decide ((b', s') = (b, state_bytes x))) as [Heq|Hne].
    + injection Heq as -> ->. rewrite lookup_insert_eq in Hk'.
      injection Hk' as _ <-. by apply run_deterministic.
    + rewrite lookup_insert_ne in Hk' by done.
      eapply Hsound; [|done]. done.
Qed.

End frontend_running.

(** ** Replaying a run through the cache *)

Section replay.
Import EmulatorLibretro Client.
Context {Core : Type} `{!Libretro Core} `{!Zlib} `{!LawfulCore Core}.
Implicit Types (fs : EmulatorLibretro.t Core) (x : Core) (c : StateCache.t).

Lemma g_cache_LoadUncompressed inp fs :
  g_cache (LoadUncompressed inp fs) = g_cache fs.
Proof.
  unfold LoadUncompressed. destruct (g_wrapper fs); [|done]. by case_decide.
Qed.

Lemma g_cache_Step b fs : g_cache (Step b fs) = g_cache fs.
Proof.
  unfold Step. destruct (g_wrapper fs); [|done].
  by destruct (Wrapper.Run _).
Qed.

Lemma CachingStep_hit fs x c b sq r :
  running fs x c → StateCache.table c !! (b, state_bytes x) = Some (sq, r) →
  CachingStep b fs
  = Some (LoadUncompressed r
            (with_cache (Some (StateCache.GetKnown b (state_bytes x) c).2) fs)).
Proof.
  intros Hrun Hk. unfold CachingStep. pose proof Hrun as [_ ->].
  rewrite (SaveUncompressed_running fs x c) by done.
  unfold StateCache.GetKnown. by rewrite Hk.
Qed.

Lemma CachingStep_miss fs x c b :
  running fs x c → StateCache.table c !! (b, state_bytes x) = None →
  CachingStep b fs
  = match StateCache.Remember b (state_bytes x) (state_bytes (retro_run b x).1)
            (StateCache.GetKnown b (state_bytes x) c).2 with
    | Some c2 =>
        Some (with_cache (Some c2)
                (Step b (with_cache
                           (Some (StateCache.GetKnown b (state_bytes x) c).2) fs)))
    | None => None
    end.
Proof.
  intros Hrun Hk. unfold CachingStep. pose proof Hrun as [_ ->].
  rewrite (SaveUncompressed_running fs x c) by done.
  unfold StateCache.GetKnown. rewrite Hk.
  match goal with
  | |- context [Step b (with_cache (Some ?c1) fs)] =>
      pose proof (Step_running (with_cache (Some c1) fs) x c1 b
                    (with_cache_running _ _ _ _ Hrun)) as Hrun1;
        rewrite (SaveUncompressed_running _ _ _ Hrun1)
  end.
  done.
Qed.

(** A step that the cache has room for completes and evicts nothing. *)
Lemma CachingStep_room fs x c b :
  running fs x c → 0 ≤ StateCache.count c →
  StateCache.limit c + StateCache.slop c < 2 ^ 64 →
  StateCache.count c + 1 ≤ StateCache.limit c + StateCache.slop c →
  ∃ fs' c',
    CachingStep b fs = Some fs' ∧ g_cache fs' = Some c'
    ∧ StateCache.limit c' = StateCache.limit c
    ∧ StateCache.slop c' = StateCache.slop c
    ∧ StateCache.count c ≤ StateCache.count c' ≤ StateCache.count c + 1
    ∧ (∀ k, is_Some (StateCache.table c !! k) →
            is_Some (StateCache.table c' !! k))
    ∧ is_Some (StateCache.table c' !! (b, state_bytes x))
    ∧ (is_u64 (StateCache.hits c) → is_u64 (StateCache.hits c')).
Proof.
  intros Hrun Hc0 Hsum Hroom.
  destruct (StateCache.table c !! (b, state_bytes x)) as [[sq r]|] eqn:Hk.
  - rewrite (CachingStep_hit fs x c b sq r) by done.
    destruct (GetKnown_hit_stamp _ _ _ _ _ Hk)
      as (_ & Hstamp & _ & _ & _ & Hcount & Hother).
    eexists _, _. split; [done|]. rewrite g_cache_LoadUncompressed.
    split; [done|]. unfold StateCache.GetKnown in *. rewrite Hk in *.
    simpl in *. split_and!; try done; try lia; try (intros _; apply u64_range).
    intros k Hsome. destruct (decide (k = (b, state_bytes x))) as [->|Hne].
    + by rewrite Hstamp.
    + by rewrite Hother.
  - rewrite (CachingStep_miss fs x c b) by done.
    destruct (GetKnown_miss _ _ _ Hk)
      as (_ & Htb & Hseq & Hcount & Hlim & Hslop & Hhitsm & _).
    rewrite (Remember_no_eviction _ _ _ (StateCache.GetKnown b (state_bytes x) c).2);
      rewrite ?Htb, ?Hcount, ?Hlim, ?Hslop; try done.
    eexists _, _. split; [done|]. split; [done|].
    simpl. rewrite Hhitsm.
    split_and!; try done; try lia; try (by rewrite lookup_insert_eq).
    intros k Hsome. destruct (decide (k = (b, state_bytes x))) as [->|Hne].
    + by rewrite lookup_insert_eq.
    + by rewrite lookup_insert_ne.
Qed.

(** A run that the cache has room for: every step completes, nothing is
    evicted, and afterwards the cache knows every step of the run. *)
Lemma CachingSteps_record inputs fs x c :
  running fs x c → cache_sound (Core := Core) c →
  0 ≤ StateCache.count c →
  StateCache.limit c + StateCache.slop c < 2 ^ 64 →
  StateCache.count c + Z.of_nat (length inputs)
    ≤ StateCache.limit c + StateCache.slop c →
  ∃ fs1 x1 c1,
    CachingSteps inputs fs = Some fs1
    ∧ running fs1 x1 c1 ∧ cache_sound (Core := Core) c1
    ∧ state_bytes x1 = state_bytes (final x inputs)
    ∧ (∀ k, is_Some (StateCache.table c !! k) →
            is_Some (StateCache.table c1 !! k))
    ∧ (∀ k, k ∈ trajectory x inputs → is_Some (StateCache.table c1 !! k))
    ∧ (is_u64 (StateCache.hits c) → is_u64 (StateCache.hits c1)).
Proof.
  revert fs x c.
  induction inputs as [|b inputs IH]; intros fs x c Hrun Hsound Hc0 Hsum Hroom.
  { exists fs, x, c. split_and!; try done.
    intros k Hk. by apply elem_of_nil in Hk. }
  simpl in Hroom.
  destruct (CachingStep_room fs x c b) as
    (fs' & c' & Hstep & Hcache & Hlim & Hslop & Hcount & Hkeep & Hnew & Hhits);
    [done|done|done|lia|].
  destruct (CachingStep_sound fs x c b fs' Hrun Hsound Hstep)
    as (x' & c'' & Hrun' & Hsound' & Hx').
  assert (c'' = c') as -> by (destruct Hrun' as [_ ?]; congruence).
  destruct (IH fs' x' c' Hrun' Hsound')
    as (fs1 & x1 & c1 & Hsteps & Hrun1 & Hsound1 & Hx1 & Hkeep1 & Htraj1 & Hhits1);
    [lia|lia|lia|].
  exists fs1, x1, c1. simpl. rewrite Hstep.
  split_and!; try done.
  - rewrite Hx1. by apply final_bytes.
  - intros k Hk. by apply Hkeep1, Hkeep.
  - intros k [->|Hk]%elem_of_cons.
    + by apply Hkeep1.
    + apply Htraj1. by rewrite (trajectory_bytes inputs x' (retro_run b x).1).
  - intros Hh. by apply Hhits1, Hhits.
Qed.

(** A run whose every step the cache knows: every step is a hit. *)
Lemma CachingSteps_replay inputs fs x c :
  running fs x c → cache_sound (Core := Core) c →
  is_u64 (StateCache.hits c) →
  (∀ k, k ∈ trajectory x inputs → is_Some (StateCache.table c !! k)) →
  ∃ fs2 x2 c2,
    CachingSteps inputs fs = Some fs2
    ∧ running fs2 x2 c2
    ∧ state_bytes x2 = state_bytes (final x inputs)
    ∧ StateCache.hits c2 = u64 (StateCache.hits c + Z.of_nat (length inputs))
    ∧ StateCache.misses c2 = StateCache.misses c.
Proof.
  revert fs x c.
  induction inputs as [|b inputs IH]; intros fs x c Hrun Hsound Hhits Htraj.
  { exists fs, x, c. split_and!; try done. simpl.
    by rewrite Z.add_0_r, u64_id. }
  destruct (Htraj (b, state_bytes x)) as [[sq r] Hk]; [by left|].
  destruct (GetKnown_hit_stamp _ _ _ _ _ Hk)
    as (_ & Hstamp & _ & Hh & Hm & _ & Hother).
  pose proof (CachingStep_hit fs x c b sq r Hrun Hk) as Hstep.
  destruct (CachingStep_sound fs x c b _ Hrun Hsound Hstep)
    as (x' & c' & Hrun' & Hsound' & Hx').
  assert (c' = (StateCache.GetKnown b (state_bytes x) c).2) as Hc'.
  { destruct Hrun' as [_ Hcache].
    rewrite g_cache_LoadUncompressed in Hcache. simpl in Hcache. congruence. }
  destruct (IH _ x' c' Hrun' Hsound')
    as (fs2 & x2 & c2 & Hsteps & Hrun2 & Hx2 & Hh2 & Hm2).
  - rewrite Hc', Hh. apply u64_range.
  - intros k Hin.
    rewrite (trajectory_bytes inputs x' (retro_run b x).1) in Hin by done.
    rewrite Hc'. destruct (decide (k = (b, state_bytes x))) as [->|Hne].
    + by rewrite Hstamp.
    + rewrite Hother by done. apply Htraj. by right.
  - exists fs2, x2, c2. simpl. rewrite Hstep. split_and!; try done.
    + rewrite Hx2. by apply final_bytes.
    + rewrite Hh2, Hc', Hh. unfold u64. rewrite Zplus_mod_idemp_l.
      f_equal. lia.
    + by rewrite Hm2, Hc', Hm.
Qed.

End replay.

(** ** [count] under [CachingStep] *)

Section caching_count.
Import EmulatorLibretro.
Context {Core : Type} `{!Libretro Core} `{!Zlib}.
Implicit Types (fs : EmulatorLibretro.t Core) (c : StateCache.t).

(** [CachingStep] calls [Remember] only after [GetKnown] missed on the same
    key, so it keeps [count] equal to the number of entries. *)
Lemma CachingStep_count_ok b fs c fs' :
  g_cache fs = Some c → StateCache.count_ok c →
  StateCache.count c + 1 < 2 ^ 64 →
  CachingStep b fs = Some fs' →
  ∃ c', g_cache fs' = Some c' ∧ StateCache.count_ok c'.
Proof.
  intros Hc Hcount Hlt. unfold CachingStep. rewrite Hc.
  destruct (StateCache.table c !! (b, SaveUncompressed [] fs)) as [[sq r]|] eqn:Hk.
  - pose proof (count_ok_GetKnown b (SaveUncompressed [] fs) c Hcount) as Hok.
    unfold StateCache.GetKnown in *. rewrite Hk in *. simpl in *.
    intros [= <-]. eexists. split; [|exact Hok].
    unfold LoadUncompressed, with_cache. simpl.
    destruct (g_wrapper fs); [|done]. by case_decide.
  - destruct (GetKnown_miss _ _ _ Hk) as (_ & Htb & _ & Hcnt & _).
    unfold StateCache.GetKnown in *. rewrite Hk in *. simpl in *.
    match goal with
    | |- context [StateCache.Remember ?i ?st ?res ?c1] =>
        destruct (StateCache.Remember i st res c1) as [c2|] eqn:Hrem; [|done];
          apply count_ok_Remember in Hrem; try done
    end.
    intros [= <-]. by exists c2.
Qed.

End caching_count.

(** ** The cache of a reachable frontend *)

Section reachable_cache.
Import EmulatorLibretro Client.
Context {Core : Type} `{!Libretro Core} `{!Zlib} `{!LawfulCore Core}.
Implicit Types (fs : EmulatorLibretro.t Core) (x : Core) (c : StateCache.t).

Lemma cache_sound_GetKnown i s c :
  cache_sound (Core := Core) c →
  cache_sound (Core := Core) (StateCache.GetKnown i s c).2.
Proof.
  intros Hsound. unfold StateCache.GetKnown.
  destruct (StateCache.table c !! (i, s)) as [[sq r]|] eqn:Hk; [|done].
  intros b' s' sq' r' Hk' y Hy. simpl in Hk'.
  destruct (decide ((b', s') = (i, s))) as [Heq|Hne].
  - injection Heq as -> ->. rewrite lookup_insert_eq in Hk'.
    injection Hk' as _ <-. by eapply Hsound.
  - rewrite lookup_insert_ne in Hk' by done. by eapply Hsound.
Qed.

Lemma cache_sound_Remember i s r c c' :
  cache_sound (Core := Core) c →
  (∀ x, state_bytes x = s → state_bytes (retro_run i x).1 = r) →
  StateCache.Remember i s r c = Some c' → cache_sound (Core := Core) c'.
Proof.
  intros Hsound Hnew Hrem. unfold StateCache.Remember in Hrem.
  apply MaybeGC_subseteq in Hrem.
  apply (cache_sound_subseteq _ _ Hrem). clear Hrem.
  intros b' s' sq' r' Hk' y Hy. simpl in Hk'.
  destruct (StateCache.table c !! (i, s)) as [v|] eqn:Hk; [by eapply Hsound|].
  destruct (decide ((b', s') = (i, s))) as [Heq|Hne].
  - injection Heq as -> ->. rewrite lookup_insert_eq in Hk'.
    injection Hk' as _ <-. by apply Hnew.
  - rewrite lookup_insert_ne in Hk' by done. by eapply Hsound.
Qed.

Lemma settled_LoadUncompressed inp fs :
  settled fs → settled (LoadUncompressed inp fs).
Proof.
  intros [Hc Hw]. split.
  - intros c. rewrite g_cache_LoadUncompressed. apply Hc.
  - intros w. unfold LoadUncompressed.
    destruct (g_wrapper fs) as [w0|] eqn:Hw0; [|by rewrite Hw0].
    case_decide; [rewrite Hw0; apply Hw|].
    simpl. intros [= <-]. unfold Wrapper.LoadState.
    by rewrite (Hw w0 eq_refl).
Qed.

Lemma settled_Step b fs : settled fs → settled (Step b fs).
Proof.
  intros [Hc Hw]. split.
  - intros c. rewrite g_cache_Step. apply Hc.
  - intros w. unfold Step.
    destruct (g_wrapper fs) as [w0|] eqn:Hw0; [|by rewrite Hw0].
    unfold Wrapper.Run, Wrapper.SetInput. simpl. rewrite (Hw w0 eq_refl).
    destruct (retro_run b (Wrapper.core w0)). simpl. by intros [= <-].
Qed.

Lemma settled_with_cache c fs :
  settled fs → cache_sound (Core := Core) c → settled (with_cache (Some c) fs).
Proof.
  intros [Hc Hw] Hsound. split; [|done]. simpl. by intros ? [= <-].
Qed.

Lemma settled_CachingStep b fs fs' :
  settled fs → CachingStep b fs = Some fs' → settled fs'.
Proof.
  intros Hs Hstep. pose proof Hs as [Hc Hw]. unfold CachingStep in Hstep.
  destruct (g_cache fs) as [c|] eqn:Hcache.
  - specialize (Hc c eq_refl).
    pose proof (cache_sound_GetKnown b (SaveUncompressed [] fs) c Hc) as Hc1.
    destruct (StateCache.GetKnown b (SaveUncompressed [] fs) c) as [[cached|] c1];
      simpl in Hc1.
    + simplify_eq. by apply settled_LoadUncompressed, settled_with_cache.
    + destruct (StateCache.Remember _ _ _ c1) as [c2|] eqn:Hrem; [|done].
      simplify_eq.
      apply settled_with_cache; [by apply settled_Step, settled_with_cache|].
      eapply cache_sound_Remember; [done| |done].
      intros x Hx.
      destruct (g_wrapper fs) as [w|] eqn:Hw0.
      * assert (running fs (Wrapper.core w) c) as Hrun.
        { split; [|done]. exists w. by rewrite (Hw w). }
        rewrite (SaveUncompressed_running fs _ c) in Hx by done.
        rewrite (SaveUncompressed_running _ _ c1
                   (Step_running _ _ _ b (with_cache_running _ _ _ c1 Hrun))).
        by apply run_deterministic.
      * unfold SaveUncompressed at 1. unfold Step, with_cache. simpl.
        rewrite Hw0. simpl. unfold SaveUncompressed in Hx. rewrite Hw0 in Hx.
        apply nil_length_inv.
        by rewrite (size_fixed _ x), Hx.
  - simplify_eq. by apply settled_Step.
Qed.

Lemma settled_perform call fs fs' :
  settled fs → perform call fs = Some fs' → settled fs'.
Proof.
  intros Hs Hcall. pose proof Hs as [Hc Hw].
  destruct call as [r| |b|b|b|inp|inp basis|n s]; simpl in Hcall.
  - simplify_eq. unfold Initialize. destruct (g_initialized fs); [done|].
    destruct r; (split; simpl;
      [intros ? [= <-]; by apply cache_sound_empty
      |first [done | by intros ? [= <-]]]).
  - simplify_eq. by split.
  - simplify_eq. by apply settled_Step.
  - simplify_eq. by apply settled_Step.
  - by eapply settled_CachingStep.
  - simplify_eq. by apply settled_LoadUncompressed.
  - unfold LoadEx in Hcall. case_decide; [by simplify_eq|].
    destruct (uncompress _ _); [|done]. simplify_eq.
    by apply settled_LoadUncompressed.
  - simplify_eq. unfold ResetCache. destruct (g_cache fs) as [c|] eqn:Hcache; [|done].
    apply settled_with_cache; [done|]. by apply cache_sound_empty.
Qed.

Lemma reachable_settled fs : reachable fs → settled fs.
Proof.
  intros [cs Hcs].
  assert (settled (start (Core := Core))) as Hs by (by split).
  revert Hcs Hs. generalize (start (Core := Core)).
  induction cs as [|call cs IH]; intros fs0 Hcs Hs; simpl in Hcs.
  - by simplify_eq.
  - destruct (perform call fs0) as [fs1|] eqn:Hcall; [|done].
    eapply IH; [done|]. by eapply settled_perform.
Qed.

End reachable_cache.

(** ** The claim about [CachingStep] *)

Section caching_claim.
Import EmulatorLibretro Client.
Context {Core : Type} `{!Libretro Core} `{!Zlib} `{!LawfulCore Core}.
Implicit Types (fs : EmulatorLibretro.t Core) (x : Core) (c : StateCache.t).

(** C1 (as amended): in every reachable state of the frontend with a ROM
    loaded, a [CachingStep] that completes leaves the core in the state
    [Step] leads to, hit or miss; and when the cache has room for a whole
    run, restoring the state saved before the run and replaying the inputs
    ends in the same RAM with a hit at every step and no miss.  States are
    compared by their serialized form, and the core behaves as [LawfulCore]
    says. *)
Theorem CachingStep_transparent fs x c :
  reachable fs → running fs x c →
  (∀ b fs', CachingStep b fs = Some fs' →
     SaveUncompressed [] fs' = SaveUncompressed [] (Step b fs)
     ∧ GetMemory fs' = GetMemory (Step b fs))
  ∧ (∀ inputs,
       StateCache.in_range c →
       StateCache.limit c + StateCache.slop c < 2 ^ 64 →
       StateCache.count c + Z.of_nat (length inputs)
         ≤ StateCache.limit c + StateCache.slop c →
       ∃ fs1 c1 fs2 c2,
         CachingSteps inputs fs = Some fs1 ∧ g_cache fs1 = Some c1
         ∧ GetMemory fs1 = GetMemory (Steps inputs fs)
         ∧ CachingSteps inputs (LoadUncompressed (SaveUncompressed [] fs) fs1)
           = Some fs2
         ∧ g_cache fs2 = Some c2
         ∧ GetMemory fs2 = GetMemory fs1
         ∧ StateCache.hits c2
           = u64 (StateCache.hits c1 + Z.of_nat (length inputs))
         ∧ StateCache.misses c2 = StateCache.misses c1).
Proof.
  intros Hreach Hrun.
  assert (cache_sound (Core := Core) c) as Hsound.
  { destruct (reachable_settled fs Hreach) as [Hc _]. apply Hc. by destruct Hrun. }
  split.
  - intros b fs' Hstep.
    destruct (CachingStep_sound fs x c b fs' Hrun Hsound Hstep)
      as (x' & c' & Hrun' & Hsound' & Hx').
    pose proof (Step_running fs x c b Hrun) as HrunS.
    rewrite (SaveUncompressed_running fs' x' c') by done.
    rewrite (SaveUncompressed_running _ _ _ HrunS).
    rewrite (GetMemory_running fs' x' c') by done.
    rewrite (GetMemory_running _ _ _ HrunS).
    split; [done|]. by apply memory_saved.
  - intros inputs (Hl & Hs & Hc & _ & Hh & _) Hsum Hroom.
    destruct (CachingSteps_record inputs fs x c)
      as (fs1 & x1 & c1 & Hsteps & Hrun1 & Hsound1 & Hx1 & _ & Htraj & Hhits);
      [done|done|unfold is_u64 in *; lia|done|done|].
    rewrite (SaveUncompressed_running fs x c) by done.
    destruct (LoadUncompressed_restores fs1 x1 c1 x Hrun1) as (x1' & Hrun1' & Hx1').
    destruct (CachingSteps_replay inputs _ x1' c1 Hrun1' Hsound1)
      as (fs2 & x2 & c2 & Hsteps2 & Hrun2 & Hx2 & Hh2 & Hm2).
    { by apply Hhits. }
    { intros k Hk. apply Htraj. by rewrite (trajectory_bytes inputs x x1'). }
    exists fs1, c1, fs2, c2.
    pose proof (Steps_running inputs fs x c Hrun) as HrunS.
    rewrite (GetMemory_running fs1 x1 c1) by done.
    rewrite (GetMemory_running fs2 x2 c2) by done.
    rewrite (GetMemory_running _ _ _ HrunS).
    split_and!; try done.
    + by destruct Hrun1.
    + by apply memory_saved.
    + by destruct Hrun2.
    + apply memory_saved. rewrite Hx2, Hx1. by apply final_bytes.
Qed.

End caching_claim.

(** ** The small core meets the expectations *)

Lemma Toy_state_bytes (c : Z) : state_bytes c = [u8 c].
Proof. done. Qed.

#[global] Instance Toy_lawful : LawfulCore Z.
Proof.
  split.
  - intros b c1 c2. rewrite !Toy_state_bytes. simpl. unfold Toy.run, u8.
    intros [= Heq]. f_equal. rewrite !Z.mod_mod by lia.
    rewrite <- (Z.add_assoc c1), <- (Z.add_assoc c2).
    rewrite (Z.add_mod c1), (Z.add_mod c2) by lia. by rewrite Heq.
  - intros c c' _. rewrite !Toy_state_bytes. simpl. unfold u8.
    by rewrite !Z.mod_mod by lia.
  - done.
  - intros c1 c2. rewrite !Toy_state_bytes. intros [= Heq]. simpl.
    by rewrite Heq.
  - intros c. rewrite Toy_state_bytes. repeat constructor; apply u8_range.
Qed.

#[global] Instance Toy_lawful_zlib : LawfulZlib.
Proof.
  split. intros raw. exists raw. split; [done|]. simpl.
  by rewrite decide_True.
Qed.

(** ** The cache claims at concrete caches *)

Section cache_examples.
Import StateCache.

Lemma MaybeGC_undefined_iff_limit_zero_witness :
  let c := {| table := {[ (0, []) := (0, []) ]}; limit := 0; count := 1;
              next_seq := 1; slop := 0; hits := 0; misses := 1 |} in
  in_range c ∧ count_ok c ∧ limit c + slop c < count c ∧ MaybeGC c = None.
Proof.
  intros c.
  assert (in_range c) as H1 by (unfold in_range, is_u64; simpl; lia).
  assert (count_ok c) as H2 by (unfold count_ok; simpl; by rewrite map_size_singleton).
  assert (limit c + slop c < count c) as H3 by (simpl; lia).
  exact (conj H1 (conj H2 (conj H3
           (proj2 (MaybeGC_undefined_iff_limit_zero c H1 H2 H3) eq_refl)))).
Defined.

Lemma Remember_limit_zero_out_of_range_witness :
  let c := Resize 0 0 fresh in
  count_ok c ∧ is_u64 (slop c) ∧ limit c = 0 ∧ count c = slop c
  ∧ count c + 1 < 2 ^ 64 ∧ table c !! (0, []) = None
  ∧ Remember 0 [] [] c = None.
Proof.
  intros c.
  assert (count_ok c) as H1 by apply count_ok_Resize.
  assert (is_u64 (slop c)) as H2 by (unfold is_u64; simpl; lia).
  assert (count c + 1 < 2 ^ 64) as H3 by (simpl; lia).
  assert (table c !! (0, []) = None) as H4 by apply lookup_empty.
  exact (conj H1 (conj H2 (conj eq_refl (conj eq_refl (conj H3 (conj H4
           (Remember_limit_zero_out_of_range 0 [] [] c H1 H2 eq_refl eq_refl
              H3 H4))))))).
Defined.

(** C6, the claim as stated fails: a second [Remember] with a key that is
    already in the table adds no entry and still increments [count]. *)
Lemma Remember_duplicate_miscounts :
  ∃ c1 c2,
    Remember 0 [1] [2] (Resize 10 10 fresh) = Some c1 ∧ count_ok c1
    ∧ is_Some (table c1 !! (0, [1]))
    ∧ Remember 0 [1] [2] c1 = Some c2
    ∧ count c2 = 2 ∧ size (table c2) = 1%nat ∧ ¬ count_ok c2.
Proof.
  eexists _, _. split; [vm_compute; reflexivity|].
  split; [vm_compute; reflexivity|].
  split; [vm_compute; eexists; reflexivity|].
  split; [vm_compute; reflexivity|].
  split; [vm_compute; reflexivity|].
  split; [vm_compute; reflexivity|].
  vm_compute. discriminate.
Qed.

Lemma count_ok_preserved_witness :
  let c := Resize 10 10 fresh in
  let c' := {| table := {[ (0, [1]) := (0, [2]) ]}; limit := 10; count := 1;
               next_seq := 1; slop := 10; hits := 0; misses := 0 |} in
  count_ok c ∧ count c + 1 < 2 ^ 64
  ∧ (∀ i s r, OpRemember 0 [1] [2] = OpRemember i s r → table c !! (i, s) = None)
  ∧ exec (OpRemember 0 [1] [2]) c = Some c'
  ∧ count_ok c'.
Proof.
  intros c c'.
  assert (count_ok c) as H1 by apply count_ok_Resize.
  assert (count c + 1 < 2 ^ 64) as H2 by (simpl; lia).
  assert (∀ i s r, OpRemember 0 [1] [2] = OpRemember i s r →
                   table c !! (i, s) = None) as H3
    by (intros; apply lookup_empty).
  assert (exec (OpRemember 0 [1] [2]) c = Some c') as H4
    by (vm_compute; reflexivity).
  exact (conj H1 (conj H2 (conj H3 (conj H4
           (count_ok_preserved _ c c' H1 H2 H3 H4))))).
Defined.

Lemma seqs_distinct_below_next_seq_witness :
  let os := [OpResize 2 1; OpRemember 0 [1] [2]; OpGetKnown 0 [1];
             OpRemember 0 [2] [3]] in
  let c := {| table := <[(0, [2]) := (2, [3])]> {[ (0, [1]) := (1, [2]) ]};
              limit := 2; count := 2; next_seq := 3; slop := 1;
              hits := 1; misses := 0 |} in
  exec_all os fresh = Some c ∧ Z.of_nat (length os) < 2 ^ 64 ∧ seqs_ok c.
Proof.
  intros os c.
  assert (exec_all os fresh = Some c) as H1 by (vm_compute; reflexivity).
  assert (Z.of_nat (length os) < 2 ^ 64) as H2 by (simpl; lia).
  exact (conj H1 (conj H2 (seqs_distinct_below_next_seq os c H1 H2))).
Defined.

End cache_examples.

(** ** [CachingStep] on the small core *)

Section caching_examples.
Import EmulatorLibretro Client.

Lemma Toy_booted_running ll ss :
  running (ResetCache ll ss Toy.booted) 0 (StateCache.Resize ll ss StateCache.fresh).
Proof. split; [|done]. eexists. split; [done|]. done. Qed.

Lemma CachingStep_transparent_witness :
  let fs := ResetCache 1000 100 Toy.booted in
  let c := StateCache.Resize 1000 100 StateCache.fresh in
  reachable fs ∧ running fs 0 c
  ∧ ∃ fs1 c1 fs2 c2,
      CachingSteps [0; 1; 0] fs = Some fs1 ∧ g_cache fs1 = Some c1
      ∧ GetMemory fs1 = GetMemory (Steps [0; 1; 0] fs)
      ∧ CachingSteps [0; 1; 0] (LoadUncompressed (SaveUncompressed [] fs) fs1)
        = Some fs2
      ∧ g_cache fs2 = Some c2
      ∧ GetMemory fs2 = GetMemory fs1
      ∧ StateCache.hits c2 = u64 (StateCache.hits c1 + 3)
      ∧ StateCache.misses c2 = StateCache.misses c1.
Proof.
  intros fs c.
  assert (reachable fs) as H1.
  { exists [CInitialize (Loaded 0); CResetCache 1000 100]. reflexivity. }
  assert (running fs 0 c) as H2 by apply Toy_booted_running.
  assert (StateCache.in_range c) as H3 by (unfold StateCache.in_range, is_u64; simpl; lia).
  assert (StateCache.limit c + StateCache.slop c < 2 ^ 64) as H4 by (simpl; lia).
  assert (StateCache.count c + Z.of_nat (length [0; 1; 0])
          ≤ StateCache.limit c + StateCache.slop c) as H5 by (simpl; lia).
  exact (conj H1 (conj H2
           (proj2 (CachingStep_transparent fs 0 c H1 H2) [0; 1; 0] H3 H4 H5))).
Defined.

(** C1, the claim as stated fails: with [ResetCache(1, 0)] the second step
    of a run evicts what the first one recorded, so the replay of the run
    from the restored state misses at both steps and hits at none. *)
Lemma replay_after_eviction_misses :
  let fs := ResetCache 1 0 Toy.booted in
  ∃ fs1 c1 fs2 c2,
    CachingSteps [0; 0] fs = Some fs1 ∧ g_cache fs1 = Some c1
    ∧ CachingSteps [0; 0] (LoadUncompressed (SaveUncompressed [] fs) fs1)
      = Some fs2
    ∧ g_cache fs2 = Some c2
    ∧ GetMemory fs2 = GetMemory fs1
    ∧ StateCache.hits c2 = StateCache.hits c1
    ∧ StateCache.misses c2 = StateCache.misses c1 + 2.
Proof.
  intros fs. eexists _, _, _, _.
  split; [vm_compute; reflexivity|]. split; [vm_compute; reflexivity|].
  split; [vm_compute; reflexivity|]. split; [vm_compute; reflexivity|].
  split; [vm_compute; reflexivity|]. split; vm_compute; reflexivity.
Qed.

End caching_examples.

(** ** The frontend without a core *)

Section uninitialized.
Import EmulatorLibretro Client.
Context {Core : Type} `{!Libretro Core} `{!Zlib} (CityHash64 : list Z → Z).
Implicit Types (fs : EmulatorLibretro.t Core).

(** Without a wrapper [Step], [StepFull] and [LoadUncompressed] change
    nothing, [GetMemory] and [SaveUncompressed] leave their vector empty,
    [RamChecksum] is 0, and [ResetCache] and [PrintCacheStats] complete. *)
Lemma uninitialized_noop fs b out inp n s :
  g_wrapper fs = None →
  Step b fs = fs ∧ StepFull b fs = fs ∧ GetMemory fs = []
  ∧ SaveUncompressed out fs = [] ∧ RamChecksum CityHash64 fs = 0
  ∧ LoadUncompressed inp fs = fs
  ∧ g_wrapper (ResetCache n s fs) = None
  ∧ (g_cache fs = None → ResetCache n s fs = fs ∧ PrintCacheStats fs = None).
Proof.
  intros Hw.
  unfold StepFull, Step, GetMemory, SaveUncompressed, RamChecksum,
    LoadUncompressed, ResetCache, PrintCacheStats.
  rewrite Hw. split_and!; try done.
  - by destruct (g_cache fs).
  - by intros ->.
Qed.

(** Without a wrapper and without a cache [CachingStep] changes nothing. *)
Lemma uninitialized_CachingStep_no_cache fs b :
  g_wrapper fs = None → g_cache fs = None → CachingStep b fs = Some fs.
Proof. intros Hw Hc. unfold CachingStep, Step. by rewrite Hc, Hw. Qed.

(** With the cache that a failed [Initialize] leaves behind, [CachingStep]
    completes when the cache has room for one more entry. *)
Lemma uninitialized_CachingStep_room fs b c :
  g_wrapper fs = None → g_cache fs = Some c →
  0 ≤ StateCache.count c →
  StateCache.limit c + StateCache.slop c < 2 ^ 64 →
  StateCache.count c + 1 ≤ StateCache.limit c + StateCache.slop c →
  ∃ c', CachingStep b fs = Some (with_cache (Some c') fs).
Proof.
  intros Hw Hc Hcount Hsum Hroom.
  unfold CachingStep, SaveUncompressed, LoadUncompressed, Step, with_cache.
  rewrite Hc. simpl. rewrite Hw.
  destruct (StateCache.table c !! (b, [])) as [[sq r]|] eqn:Hk.
  - unfold StateCache.GetKnown. rewrite Hk. by eexists.
  - unfold StateCache.GetKnown. rewrite Hk. simpl.
    rewrite Remember_no_eviction by done. by eexists.
Qed.

(** It also completes when the eviction of [Remember] has a positive
    target. *)
Lemma uninitialized_CachingStep_cache fs b c :
  g_wrapper fs = None → g_cache fs = Some c →
  StateCache.in_range c → StateCache.count_ok c →
  0 < StateCache.limit c → StateCache.limit c + StateCache.slop c < 2 ^ 64 →
  StateCache.count c + 1 < 2 ^ 64 →
  ∃ c', CachingStep b fs = Some (with_cache (Some c') fs).
Proof.
  intros Hw Hc Hr Hcount Hpos Hsum Hlt.
  unfold CachingStep, SaveUncompressed, LoadUncompressed, Step, with_cache.
  rewrite Hc. simpl. rewrite Hw.
  destruct (StateCache.table c !! (b, [])) as [[sq r]|] eqn:Hk.
  - unfold StateCache.GetKnown. rewrite Hk. by eexists.
  - unfold StateCache.GetKnown. rewrite Hk. simpl.
    unfold StateCache.Remember. simpl. rewrite Hk.
    destruct Hr as (Hl & Hs & Hcr & Hn & Hhr & Hmr).
    edestruct (MaybeGC_total) as [c2 ->]; [| | | |by eexists];
      simpl; try done.
    + unfold StateCache.in_range. simpl.
      split_and!; try done; apply u64_range.
    + unfold StateCache.count_ok in *. simpl.
      rewrite u64_id by (unfold is_u64 in *; lia).
      rewrite map_size_insert_None by done. lia.
Qed.

(** Without a core the state saved is empty, so the cache can only hold
    keys [(b, [])]: at most 256 of them for input bytes. *)
Lemma size_coreless_keys (tb : gmap (Z * list Z) (Z * list Z)) :
  (∀ k, is_Some (tb !! k) → ∃ b, is_u8 b ∧ k = (b, [])) →
  (size tb ≤ 256)%nat.
Proof.
  intros Hkeys.
  set (keys := (λ b : Z, (b, @nil Z)) <$> seqZ 0 256).
  assert (dom tb ⊆ (list_to_set keys : gset (Z * list Z))) as Hsub.
  { intros k Hk%elem_of_dom. destruct (Hkeys k Hk) as (b & Hb & ->).
    apply elem_of_list_to_set, list_elem_of_fmap. exists b. split; [done|].
    apply elem_of_seqZ. unfold is_u8 in Hb. lia. }
  apply subseteq_size in Hsub. rewrite size_dom in Hsub.
  rewrite size_list_to_set in Hsub.
  - unfold keys in Hsub. by rewrite length_fmap, length_seqZ in Hsub.
  - apply NoDup_fmap_2; [|apply NoDup_seqZ]. by intros ? ? [= ->].
Qed.

(** Hence in a cache with room for 256 entries, as the one a failed
    [Initialize] leaves (limit 0, slop 10000), every run of [CachingStep]s
    completes. *)
Lemma uninitialized_CachingSteps inputs fs c :
  g_wrapper fs = None → g_cache fs = Some c →
  StateCache.count_ok c →
  (∀ k, is_Some (StateCache.table c !! k) → ∃ b, is_u8 b ∧ k = (b, [])) →
  256 ≤ StateCache.limit c + StateCache.slop c < 2 ^ 64 →
  Forall is_u8 inputs →
  ∃ c', CachingSteps inputs fs = Some (with_cache (Some c') fs).
Proof.
  intros Hw Hc Hcount Hkeys Hroom Hin. revert fs c Hw Hc Hcount Hkeys Hroom.
  induction Hin as [|b inputs Hb _ IH]; intros fs c Hw Hc Hcount Hkeys Hroom.
  - exists c. simpl. f_equal. destruct fs. simpl in *. by subst.
  - simpl.
    pose proof (size_coreless_keys _ Hkeys) as Hsize.
    unfold StateCache.count_ok in Hcount.
    assert (∃ c1, CachingStep b fs = Some (with_cache (Some c1) fs)
                  ∧ StateCache.count_ok c1
                  ∧ (∀ k, is_Some (StateCache.table c1 !! k) →
                          ∃ b', is_u8 b' ∧ k = (b', []))
                  ∧ StateCache.limit c1 = StateCache.limit c
                  ∧ StateCache.slop c1 = StateCache.slop c)
      as (c1 & Hstep & Hcount1 & Hkeys1 & Hl1 & Hs1).
    { unfold CachingStep, SaveUncompressed, LoadUncompressed, Step, with_cache.
      rewrite Hc. simpl. rewrite Hw.
      destruct (StateCache.table c !! (b, [])) as [[sq r]|] eqn:Hk.
      - unfold StateCache.GetKnown. rewrite Hk. eexists. split; [done|].
        simpl. split_and!; try done.
        + unfold StateCache.count_ok. simpl.
          rewrite map_size_insert_Some by done. done.
        + intros k [v Hv]. destruct (decide (k = (b, []))) as [->|Hne].
          * by exists b.
          * rewrite lookup_insert_ne in Hv by done. by apply Hkeys.
      - assert (size (<[(b, []) := (StateCache.next_seq c, [])]>
                        (StateCache.table c)) ≤ 256)%nat as Hsize1.
        { apply size_coreless_keys. intros k [v Hv].
          destruct (decide (k = (b, []))) as [->|Hne]; [by exists b|].
          rewrite lookup_insert_ne in Hv by done. by apply Hkeys. }
        rewrite map_size_insert_None in Hsize1 by done.
        unfold StateCache.GetKnown. rewrite Hk. simpl.
        rewrite Remember_no_eviction; simpl; try done; try lia.
        eexists. split; [done|]. simpl. split_and!; try done.
        + unfold StateCache.count_ok. simpl.
          rewrite map_size_insert_None by done. lia.
        + intros k [v Hv]. destruct (decide (k = (b, []))) as [->|Hne].
          * by exists b.
          * rewrite lookup_insert_ne in Hv by done. by apply Hkeys. }
    rewrite Hstep.
    destruct (IH (with_cache (Some c1) fs) c1) as [c' Hrest]; try done.
    { by rewrite Hl1, Hs1. }
    exists c'. by rewrite Hrest.
Qed.

(** C9 (as amended): while no wrapper is held, [Step], [StepFull] and
    [LoadUncompressed] do nothing, [GetMemory], [SaveUncompressed] and
    [GetBasis] leave their vector empty, [RamChecksum] is 0, [ResetCache]
    resizes the cache if there is one and touches nothing else, and
    [PrintCacheStats] prints the fields of the cache if there is one.
    [CachingStep] does nothing when no cache is allocated; with the cache
    that a failed [Initialize] left allocated it completes, touching only
    the cache, when the cache has room for one more entry or a positive
    limit, and every run of [CachingStep]s on input bytes completes when
    the cache has room for the 256 keys that exist without a core, as has
    the cache a failed [Initialize] leaves.  [LoadEx] does nothing on an
    input shorter than 4 bytes or one that decompresses, and aborts on any
    other input. *)
Theorem uninitialized_safe fs b out inp basis n s inputs :
  g_wrapper fs = None →
  Step b fs = fs ∧ StepFull b fs = fs
  ∧ GetMemory fs = [] ∧ SaveUncompressed out fs = [] ∧ GetBasis out fs = []
  ∧ RamChecksum CityHash64 fs = 0
  ∧ LoadUncompressed inp fs = fs
  ∧ ResetCache n s fs = with_cache (StateCache.Resize n s <$> g_cache fs) fs
  ∧ PrintCacheStats fs
    = (λ c, (StateCache.count c, StateCache.limit c, StateCache.next_seq c,
             StateCache.hits c, StateCache.misses c)) <$> g_cache fs
  ∧ (g_cache fs = None → CachingStep b fs = Some fs)
  ∧ (∀ c, g_cache fs = Some c →
       0 ≤ StateCache.count c →
       StateCache.limit c + StateCache.slop c < 2 ^ 64 →
       StateCache.count c + 1 ≤ StateCache.limit c + StateCache.slop c →
       ∃ c', CachingStep b fs = Some (with_cache (Some c') fs))
  ∧ (∀ c, g_cache fs = Some c →
       StateCache.in_range c → StateCache.count_ok c →
       0 < StateCache.limit c →
       StateCache.limit c + StateCache.slop c < 2 ^ 64 →
       StateCache.count c + 1 < 2 ^ 64 →
       ∃ c', CachingStep b fs = Some (with_cache (Some c') fs))
  ∧ (∀ c, g_cache fs = Some c →
       StateCache.count_ok c →
       (∀ k, is_Some (StateCache.table c !! k) → ∃ b', is_u8 b' ∧ k = (b', [])) →
       256 ≤ StateCache.limit c + StateCache.slop c < 2 ^ 64 →
       Forall is_u8 inputs →
       ∃ c', CachingSteps inputs fs = Some (with_cache (Some c') fs))
  ∧ ((length inp < 4)%nat → LoadEx inp basis fs = Some fs)
  ∧ (¬ (length inp < 4)%nat →
     LoadEx inp basis fs
     = match uncompress (Z.to_nat (load_u32 inp)) (drop 4 inp) with
       | Some _ => Some fs
       | None => None
       end).
Proof.
  intros Hw.
  destruct (uninitialized_noop fs b out inp n s Hw)
    as (H1 & H2 & H3 & H4 & H5 & H6 & H7 & _).
  split_and!; try done.
  - unfold ResetCache, with_cache. destruct (g_cache fs) eqn:Hc; [done|].
    destruct fs. simpl in *. by subst.
  - by apply uninitialized_CachingStep_no_cache.
  - intros c. by apply uninitialized_CachingStep_room.
  - intros c. by apply uninitialized_CachingStep_cache.
  - intros c. by apply uninitialized_CachingSteps.
  - intros Hshort. unfold LoadEx. by rewrite decide_True.
  - intros Hlong. unfold LoadEx. rewrite decide_False by done.
    destruct (uncompress _ _); [|done].
    unfold LoadUncompressed. by rewrite Hw.
Qed.

End uninitialized.

Lemma uninitialized_safe_witness :
  let fs := Toy.failed in
  let full_cache :=
    {| StateCache.table := {[ (3, []) := (0, []) ]};
       StateCache.limit := 1; StateCache.count := 1;
       StateCache.next_seq := 1; StateCache.slop := 0;
       StateCache.hits := 0; StateCache.misses := 1 |} in
  let full := EmulatorLibretro.with_cache (Some full_cache) fs in
  let hash := λ _ : list Z, 7 in
  EmulatorLibretro.g_wrapper fs = None
  ∧ EmulatorLibretro.g_cache fs = Some StateCache.fresh
  ∧ EmulatorLibretro.Step 3 fs = fs
  ∧ EmulatorLibretro.GetMemory fs = []
  ∧ EmulatorLibretro.SaveUncompressed [1; 2] fs = []
  ∧ EmulatorLibretro.RamChecksum hash fs = 0
  ∧ EmulatorLibretro.LoadUncompressed [1; 2] fs = fs
  ∧ EmulatorLibretro.PrintCacheStats fs = Some (0, 0, 0, 0, 0)
  ∧ (∃ c', EmulatorLibretro.CachingStep 3 fs
           = Some (EmulatorLibretro.with_cache (Some c') fs))
  ∧ (∃ c', EmulatorLibretro.CachingSteps [3; 3; 7; 255] fs
           = Some (EmulatorLibretro.with_cache (Some c') fs))
  ∧ EmulatorLibretro.CachingSteps [3] (EmulatorLibretro.ResetCache 1 0 fs)
    = Some full
  ∧ (∃ c', EmulatorLibretro.CachingStep 7 full
           = Some (EmulatorLibretro.with_cache (Some c') full))
  ∧ EmulatorLibretro.LoadEx [1; 2] None fs = Some fs
  ∧ EmulatorLibretro.LoadEx [1; 0; 0; 0; 9] None fs = Some fs
  ∧ EmulatorLibretro.LoadEx [0; 0; 0; 0; 9] None fs = None.
Proof.
  intros fs full_cache full hash.
  pose proof (uninitialized_safe hash fs 3 [1; 2] [1; 2] None 0 0
                [3; 3; 7; 255] eq_refl)
    as (H1 & _ & H3 & H4 & _ & H6 & H7 & _ & H9 & _ & Hroom & _ & Hall & Hshort & _).
  pose proof (uninitialized_safe hash fs 3 [1; 2] [1; 0; 0; 0; 9] None 0 0
                [] eq_refl)
    as (_ & _ & _ & _ & _ & _ & _ & _ & _ & _ & _ & _ & _ & _ & Hgood).
  pose proof (uninitialized_safe hash fs 3 [1; 2] [0; 0; 0; 0; 9] None 0 0
                [] eq_refl)
    as (_ & _ & _ & _ & _ & _ & _ & _ & _ & _ & _ & _ & _ & _ & Hbad).
  pose proof (uninitialized_safe hash full 7 [] [] None 0 0 [] eq_refl)
    as (_ & _ & _ & _ & _ & _ & _ & _ & _ & _ & _ & Hevict & _).
  assert (0 ≤ StateCache.count StateCache.fresh) as Hc0 by (simpl; lia).
  assert (StateCache.limit StateCache.fresh + StateCache.slop StateCache.fresh
          < 2 ^ 64) as Hsum by (simpl; lia).
  assert (StateCache.count StateCache.fresh + 1
          ≤ StateCache.limit StateCache.fresh + StateCache.slop StateCache.fresh)
    as Hfree by (simpl; lia).
  assert (StateCache.count_ok StateCache.fresh) as Hok by reflexivity.
  assert (∀ k, is_Some (StateCache.table StateCache.fresh !! k) →
               ∃ b', is_u8 b' ∧ k = (b', [])) as Hkeys.
  { intros k [v Hv]. simpl in Hv. by rewrite lookup_empty in Hv. }
  assert (256 ≤ StateCache.limit StateCache.fresh
                + StateCache.slop StateCache.fresh < 2 ^ 64) as Hbig
    by (simpl; lia).
  assert (Forall is_u8 [3; 3; 7; 255]) as Hbytes
    by (repeat (apply Forall_cons; split; [unfold is_u8; lia|]); apply Forall_nil_2).
  assert (StateCache.in_range full_cache) as Hrange
    by (unfold StateCache.in_range, is_u64; simpl; lia).
  assert (StateCache.count_ok full_cache) as Hfull by reflexivity.
  assert (0 < StateCache.limit full_cache) as Hlimit by (simpl; lia).
  assert (StateCache.limit full_cache + StateCache.slop full_cache < 2 ^ 64)
    as Hsum' by (simpl; lia).
  assert (StateCache.count full_cache + 1 < 2 ^ 64) as Hcount by (simpl; lia).
  assert (EmulatorLibretro.CachingSteps [3] (EmulatorLibretro.ResetCache 1 0 fs)
          = Some full) as Hfill by (vm_compute; reflexivity).
  exact (conj eq_refl (conj eq_refl (conj H1 (conj H3 (conj H4 (conj H6
          (conj H7 (conj H9
          (conj (Hroom StateCache.fresh eq_refl Hc0 Hsum Hfree)
          (conj (Hall StateCache.fresh eq_refl Hok Hkeys Hbig Hbytes)
          (conj Hfill
          (conj (Hevict full_cache eq_refl Hrange Hfull Hlimit Hsum' Hcount)
          (conj (Hshort ltac:(simpl; lia))
          (conj (Hgood ltac:(simpl; lia))
                (Hbad ltac:(simpl; lia)))))))))))))))).
Defined.

(** C9, the claim as stated fails: with no core initialized, [Load] of five
    bytes that do not decompress aborts. *)
Lemma uninitialized_Load_aborts :
  EmulatorLibretro.g_wrapper (EmulatorLibretro.start (Core := Z)) = None
  ∧ EmulatorLibretro.g_initialized (EmulatorLibretro.start (Core := Z)) = false
  ∧ EmulatorLibretro.Load [0; 0; 0; 0; 1] (EmulatorLibretro.start (Core := Z))
    = None.
Proof. split_and!; vm_compute; reflexivity. Qed.

(** The defect of [MaybeGC] shows here too: an [Initialize] whose core
    fails to load leaves no wrapper but keeps the cache it allocated; after
    [ResetCache(0, 0)] the first [CachingStep] records its step, and the
    eviction in [Remember] reads [seqs] out of range. *)
Lemma failed_Initialize_then_zero_cache_out_of_range :
  let fs := EmulatorLibretro.ResetCache 0 0 Toy.failed in
  Client.perform_all
    [Client.CInitialize EmulatorLibretro.CoreLoadFailed; Client.CResetCache 0 0]
    EmulatorLibretro.start = Some fs
  ∧ EmulatorLibretro.g_wrapper fs = None
  ∧ EmulatorLibretro.g_initialized fs = false
  ∧ EmulatorLibretro.CachingStep 0 fs = None.
Proof. intros fs. split_and!; vm_compute; reflexivity. Qed.

(** ** The constructor's fast-forward *)

Section constructor.
Import EmulatorLibretro PlayFun.
Context {Core : Type} `{!Libretro Core}.
Implicit Types (fs : EmulatorLibretro.t Core).

Lemma leading_zeros_cons_nonzero b l : b ≠ 0 → leading_zeros (b :: l) = [].
Proof. intros Hb. by destruct b. Qed.

(** The loop steps through, and appends to [movie], the leading zero bytes
    and then the first non-zero byte, if there is one. *)
Lemma fast_forward_spec solution fs movie :
  let stepped :=
    leading_zeros solution
    ++ take 1 (drop (length (leading_zeros solution)) solution) in
  fast_forward solution fs movie = (Steps stepped fs, movie ++ stepped).
Proof.
  revert fs movie. induction solution as [|b solution IH]; intros fs movie.
  - simpl. by rewrite app_nil_r.
  - cbn [fast_forward]. case_decide as Hb.
    + by rewrite leading_zeros_cons_nonzero.
    + subst b.
      change (leading_zeros (0 :: solution)) with (0 :: leading_zeros solution).
      rewrite IH. simpl. by rewrite <- app_assoc.
Qed.

(** C7 (as amended): after the constructor, the output movie consists of
    the leading zero bytes of the input movie followed by its first non-zero
    byte, when it has one, and exactly those bytes have been stepped through
    the emulator, after [ResetCache(100000, 10000)]. *)
Theorem Construct_movie solution fs :
  let stepped :=
    leading_zeros solution
    ++ take 1 (drop (length (leading_zeros solution)) solution) in
  Construct solution fs
  = (Steps stepped (ResetCache 100000 10000 fs), stepped).
Proof. intros stepped. unfold Construct. by rewrite fast_forward_spec. Qed.

End constructor.

(** C7, the claim as stated fails: the first key press of the input movie is
    stepped and recorded too. *)
Lemma Construct_steps_first_keypress :
  let solution := [0; 0; 5; 7] in
  let after := PlayFun.Construct solution Toy.booted in
  leading_zeros solution = [0; 0]
  ∧ after.2 = [0; 0; 5]
  ∧ after.2 ≠ leading_zeros solution
  ∧ EmulatorLibretro.GetMemory after.1 = [8]
  ∧ EmulatorLibretro.GetMemory
      (EmulatorLibretro.Steps (leading_zeros solution)
         (EmulatorLibretro.ResetCache 100000 10000 Toy.booted)) = [2].
Proof. intros solution after. split_and!; try (vm_compute; reflexivity). vm_compute. discriminate. Qed.

(** ** Compressed save and load *)

Section compressed.
Import EmulatorLibretro Client.
Context {Core : Type} `{!Libretro Core} `{!Zlib}.
Implicit Types (fs : EmulatorLibretro.t Core) (x : Core) (c : StateCache.t).

Lemma u8_sub_add r b : is_u8 r → u8 (u8 (r - b) + b) = r.
Proof.
  intros Hr. unfold u8. rewrite Zplus_mod_idemp_l.
  replace (r - b + b) with r by lia. by apply u8_id.
Qed.

(** The subtraction of the basis on save and the addition on load cancel. *)
Lemma add_sub_basis raw basis :
  Forall is_u8 raw → add_basis (sub_basis raw basis) basis = raw.
Proof.
  intros Hraw. revert basis.
  induction Hraw as [|r raw Hr _ IH]; intros basis; [done|].
  destruct basis as [|b basis]; [done|]. simpl.
  by rewrite u8_sub_add, IH.
Qed.

Lemma length_sub_basis raw basis : length (sub_basis raw basis) = length raw.
Proof.
  revert basis. induction raw as [|r raw IH]; intros basis; [done|].
  destruct basis as [|b basis]; [done|]. simpl. by rewrite IH.
Qed.

(** The header reads back as the length it was written from. *)
Lemma load_store_u32 n rest :
  0 ≤ n < 2 ^ 32 → load_u32 (store_u32 n ++ rest) = n.
Proof.
  intros Hn. unfold load_u32, store_u32, u32. simpl.
  rewrite (Z.mod_small n (2 ^ 32)) by done.
  change (2 ^ 32) with 4294967296 in Hn.
  Z.to_euclidean_division_equations. lia.
Qed.

Lemma length_store_u32 n : length (store_u32 n) = 4%nat.
Proof. done. Qed.

Context `{!LawfulCore Core} `{!LawfulZlib}.

(** C2: whatever the basis, [SaveEx] completes, and [LoadEx] of its output
    with the same basis, in any later state of the emulator, completes and
    restores the saved state; so does [Load] of the output of [Save].  The
    core and zlib behave as [LawfulCore] and [LawfulZlib] say, and the
    serialized size fits the 32-bit header. *)
Theorem LoadEx_SaveEx fs x c fs' x' c' basis :
  running fs x c → running fs' x' c' →
  Z.of_nat (length (state_bytes x)) < 2 ^ 32 →
  (∃ blob fs'',
     SaveEx basis fs = Some blob ∧ LoadEx blob basis fs' = Some fs''
     ∧ SaveUncompressed [] fs'' = SaveUncompressed [] fs
     ∧ GetMemory fs'' = GetMemory fs)
  ∧ (∃ blob fs'',
       Save fs = Some blob ∧ Load blob fs' = Some fs''
       ∧ SaveUncompressed [] fs'' = SaveUncompressed [] fs
       ∧ GetMemory fs'' = GetMemory fs).
Proof.
  intros Hrun Hrun' Hsize.
  assert (∀ basis, ∃ blob fs'',
     SaveEx basis fs = Some blob ∧ LoadEx blob basis fs' = Some fs''
     ∧ SaveUncompressed [] fs'' = SaveUncompressed [] fs
     ∧ GetMemory fs'' = GetMemory fs) as Hall; [|by split; apply Hall].
  clear basis. intros basis.
  pose proof (bytes_saved x) as Hbytes.
  unfold SaveEx. rewrite (SaveUncompressed_running fs x c) by done.
  set (raw := match basis with
              | Some b => sub_basis (state_bytes x) b
              | None => state_bytes x
              end).
  assert (length raw = length (state_bytes x)) as Hlen.
  { unfold raw. destruct basis; [apply length_sub_basis|done]. }
  destruct (inflate_deflate raw) as (z & Hz & Hunz). rewrite Hz.
  destruct (LoadUncompressed_restores fs' x' c' x Hrun') as (x'' & Hrun'' & Hx'').
  exists (store_u32 (Z.of_nat (length raw)) ++ z),
         (LoadUncompressed (state_bytes x) fs').
  split; [done|].
  split.
  - unfold LoadEx. rewrite decide_False by (rewrite length_app, length_store_u32; lia).
    rewrite load_store_u32 by lia. rewrite Nat2Z.id.
    rewrite drop_app_length' by done. rewrite Hunz.
    f_equal. f_equal. unfold raw. destruct basis; [|done].
    by apply add_sub_basis.
  - rewrite (SaveUncompressed_running _ x'' c') by done.
    rewrite (GetMemory_running _ x'' c') by done.
    rewrite (GetMemory_running fs x c) by done.
    split; [done|]. by apply memory_saved.
Qed.

End compressed.

Lemma LoadEx_SaveEx_witness :
  let fs := EmulatorLibretro.Steps [3; 4] Toy.booted in
  let fs' := EmulatorLibretro.Steps [3; 4; 0; 1] Toy.booted in
  let basis := Some [7; 9] in
  Client.running fs 9 StateCache.fresh ∧ Client.running fs' 12 StateCache.fresh
  ∧ Z.of_nat (length (state_bytes (9 : Z))) < 2 ^ 32
  ∧ (∃ blob fs'',
       EmulatorLibretro.SaveEx basis fs = Some blob
       ∧ EmulatorLibretro.LoadEx blob basis fs' = Some fs''
       ∧ EmulatorLibretro.SaveUncompressed [] fs''
         = EmulatorLibretro.SaveUncompressed [] fs
       ∧ EmulatorLibretro.GetMemory fs'' = EmulatorLibretro.GetMemory fs).
Proof.
  intros fs fs' basis.
  assert (Client.running fs 9 StateCache.fresh) as H1
    by (split; [eexists; split; [done|]; done|done]).
  assert (Client.running fs' 12 StateCache.fresh) as H2
    by (split; [eexists; split; [done|]; done|done]).
  assert (Z.of_nat (length (state_bytes (9 : Z))) < 2 ^ 32) as H3 by (simpl; lia).
  exact (conj H1 (conj H2 (conj H3
           (proj1 (LoadEx_SaveEx fs 9 _ fs' 12 _ basis H1 H2 H3))))).
Defined.

(** ** The canonical frame *)

Section video_facts.
Import Video.

Lemma FRAME_BYTES_Z : Z.of_nat FRAME_BYTES = 262144.
Proof. unfold FRAME_BYTES. rewrite !Nat2Z.inj_mul. reflexivity. Qed.

Lemma dst_offset_small y x :
  0 ≤ y < 256 → 0 ≤ x < 256 →
  u32 (u32 (u32 (y * 256) * 4) + u32 (x * 4)) = y * 1024 + x * 4.
Proof.
  intros Hy Hx. unfold u32.
  rewrite (Z.mod_small (y * 256)) by lia.
  rewrite (Z.mod_small (y * 256 * 4)) by lia.
  rewrite (Z.mod_small (x * 4)) by lia.
  rewrite Z.mod_small by lia. lia.
Qed.

Lemma length_put_pixel fb y x rgba :
  length (put_pixel fb y x rgba) = length rgba.
Proof. unfold put_pixel. case_decide; [|done]. by rewrite !length_insert. Qed.

(** A pixel written by the callback lies in the reported window, so a byte
    outside the window is not touched. *)
Lemma put_pixel_outside W H fb y x rgba i :
  0 ≤ y < 256 → 0 ≤ x < 256 → x < W → y < H → ¬ inside W H i →
  put_pixel fb y x rgba !! i = rgba !! i.
Proof.
  intros Hy Hx HxW HyH Hout. unfold put_pixel. case_decide; [|done].
  rewrite dst_offset_small by done.
  assert (∀ k, (k < 4)%nat → (Z.to_nat (y * 1024 + x * 4) + k)%nat ≠ i) as Hne.
  { intros k Hk <-. apply Hout. unfold inside.
    rewrite Nat2Z.inj_add, Z2Nat.id by lia.
    split; Z.to_euclidean_division_equations; lia. }
  rewrite !list_lookup_insert_ne by (apply Hne; lia). done.
Qed.

Lemma row_outside W H fb y xs rgba :
  0 ≤ y < 256 → y < H → Forall (λ x, 0 ≤ x < 256 ∧ x < W) xs →
  length (foldl (λ acc x, put_pixel fb y x acc) rgba xs) = length rgba
  ∧ ∀ i, ¬ inside W H i →
         foldl (λ acc x, put_pixel fb y x acc) rgba xs !! i = rgba !! i.
Proof.
  intros Hy HyH Hxs. revert rgba.
  induction Hxs as [|x xs [Hx HxW] _ IH]; intros rgba; [done|]. simpl.
  destruct (IH (put_pixel fb y x rgba)) as [Hlen Hout].
  split.
  - by rewrite Hlen, length_put_pixel.
  - intros i Hi. rewrite Hout by done. by eapply put_pixel_outside.
Qed.

Lemma rows_outside W H fb ys xs rgba :
  Forall (λ y, 0 ≤ y < 256 ∧ y < H) ys →
  Forall (λ x, 0 ≤ x < 256 ∧ x < W) xs →
  length (foldl (λ acc y, foldl (λ acc x, put_pixel fb y x acc) acc xs) rgba ys)
  = length rgba
  ∧ ∀ i, ¬ inside W H i →
         foldl (λ acc y, foldl (λ acc x, put_pixel fb y x acc) acc xs) rgba ys !! i
         = rgba !! i.
Proof.
  intros Hys Hxs. revert rgba.
  induction Hys as [|y ys [Hy HyH] _ IH]; intros rgba; [done|]. simpl.
  destruct (row_outside W H fb y xs rgba Hy HyH Hxs) as [Hlen1 Hout1].
  destruct (IH (foldl (λ acc x, put_pixel fb y x acc) rgba xs)) as [Hlen Hout].
  split.
  - by rewrite Hlen, Hlen1.
  - intros i Hi. by rewrite Hout, Hout1.
Qed.

Lemma window_columns w W :
  w ≤ W → Forall (λ x, 0 ≤ x < 256 ∧ x < W) (seqZ 0 (Z.min w 256)).
Proof. intros Hw. apply Forall_forall. intros x Hx%elem_of_seqZ. lia. Qed.

(** The callback leaves a full frame whose bytes outside the bounds are 0,
    when it starts from an empty buffer or from such a frame. *)
Lemma video_cb_ok W H fb rgba :
  width fb ≤ W → height fb ≤ H → frame_ok W H rgba →
  length (video_cb fb rgba) = FRAME_BYTES
  ∧ ∀ i, (i < FRAME_BYTES)%nat → ¬ inside W H i → video_cb fb rgba !! i = Some 0.
Proof.
  intros Hw Hh Hok. unfold video_cb.
  destruct (rows_outside W H fb (seqZ 0 (Z.min (height fb) 256))
              (seqZ 0 (Z.min (width fb) 256)) (resize FRAME_BYTES 0 rgba))
    as [Hlen Hout]; [by apply window_columns..|].
  rewrite length_resize in Hlen. split; [done|].
  intros i Hi Hni. rewrite Hout by done.
  destruct Hok as [->|[Hfull Hblank]].
  - rewrite resize_nil. by apply lookup_replicate_2.
  - rewrite resize_all_alt by done. by apply Hblank.
Qed.

Lemma refresh_ok W H rgba vr :
  vr_width vr ≤ W → vr_height vr ≤ H → frame_ok W H rgba →
  frame_ok W H (refresh rgba vr).
Proof.
  intros Hw Hh Hok. unfold refresh, frame_of.
  destruct (vr_data vr) as [bytes|]; [|done].
  right. by apply video_cb_ok.
Qed.

Lemma refreshes_ok W H rgba vrs :
  Forall (λ vr, vr_width vr ≤ W ∧ vr_height vr ≤ H) vrs →
  frame_ok W H rgba → frame_ok W H (foldl refresh rgba vrs).
Proof.
  intros Hvrs. revert rgba.
  induction Hvrs as [|vr vrs [Hw Hh] _ IH]; intros rgba Hok; [done|].
  simpl. apply IH. by apply refresh_ok.
Qed.

(** A refresh with a frame leaves a full buffer, whatever was there, and
    no refresh shortens a full buffer. *)
Lemma length_refresh rgba vr :
  is_Some (vr_data vr) ∨ length rgba = FRAME_BYTES →
  length (refresh rgba vr) = FRAME_BYTES.
Proof.
  intros Hor. unfold refresh, frame_of.
  destruct (vr_data vr) as [bytes|] eqn:Hb.
  - unfold video_cb.
    match goal with
    | |- context [foldl _ _ (seqZ 0 (Z.min (height ?fb) 256))] =>
        destruct (rows_outside (width fb) (height fb) fb
                    (seqZ 0 (Z.min (height fb) 256))
                    (seqZ 0 (Z.min (width fb) 256)) (resize FRAME_BYTES 0 rgba))
          as [Hlen _]; [by apply window_columns..|]
    end.
    by rewrite Hlen, length_resize.
  - destruct Hor as [[? ?]|?]; done.
Qed.

Lemma length_refreshes rgba vrs :
  Exists (λ vr, is_Some (vr_data vr)) vrs ∨ length rgba = FRAME_BYTES →
  length (foldl refresh rgba vrs) = FRAME_BYTES.
Proof.
  revert rgba. induction vrs as [|vr vrs IH]; intros rgba Hor; simpl.
  - destruct Hor as [Hex|?]; [|done]. by apply Exists_nil in Hex.
  - apply IH. destruct Hor as [[Hvr|Hex]%Exists_cons|Hfull].
    + right. apply length_refresh. by left.
    + by left.
    + right. apply length_refresh. by right.
Qed.

(** The four bytes of a pixel outside the bounds of a full frame. *)
Lemma pixel_outside W H rgba (x y : nat) :
  length rgba = FRAME_BYTES →
  (∀ i, (i < FRAME_BYTES)%nat → ¬ inside W H i → rgba !! i = Some 0) →
  (x < 256)%nat → (y < 256)%nat → W ≤ Z.of_nat x ∨ H ≤ Z.of_nat y →
  pixel rgba x y = [0; 0; 0; 0].
Proof.
  intros Hlen Hblank Hx Hy Hout. unfold pixel.
  assert (∀ k, (k < 4)%nat → drop (y * 1024 + x * 4) rgba !! k = Some 0) as Hk.
  { intros k Hk. rewrite lookup_drop. apply Hblank.
    - apply Nat2Z.inj_lt. rewrite FRAME_BYTES_Z. lia.
    - unfold inside. intros [Hin1 Hin2].
      assert (Z.of_nat (y * 1024 + x * 4 + k)
              = Z.of_nat y * 1024 + Z.of_nat x * 4 + Z.of_nat k) as Heq by lia.
      rewrite Heq in Hin1, Hin2. clear Heq.
      revert Hin1 Hin2. Z.to_euclidean_division_equations. lia. }
  pose proof (Hk 0%nat ltac:(lia)) as H0. pose proof (Hk 1%nat ltac:(lia)) as H1.
  pose proof (Hk 2%nat ltac:(lia)) as H2. pose proof (Hk 3%nat ltac:(lia)) as H3.
  destruct (drop (y * 1024 + x * 4) rgba) as [|a [|b [|c [|d l]]]];
    simplify_eq/=. done.
Qed.

End video_facts.

(** ** What [GetImage] returns *)

Section image_claim.
Import EmulatorLibretro Client Video.
Context {Core : Type} `{!Libretro Core} {zlib_api : Zlib}.
Implicit Types (fs : EmulatorLibretro.t Core).

Lemma g_frame_LoadUncompressed inp fs :
  g_frame_rgba (LoadUncompressed inp fs) = g_frame_rgba fs.
Proof.
  unfold LoadUncompressed. destruct (g_wrapper fs); [|done]. by case_decide.
Qed.

Lemma g_frame_Step W H b fs :
  geometry_within (Core := Core) W H →
  frame_ok W H (g_frame_rgba fs) → frame_ok W H (g_frame_rgba (Step b fs)).
Proof.
  intros Hgeo Hok. unfold Step. destruct (g_wrapper fs) as [w|]; [|done].
  unfold Wrapper.Run. simpl. destruct (Wrapper.rom_loaded w); [|done].
  specialize (Hgeo b (Wrapper.core w)).
  destruct (retro_run b (Wrapper.core w)) as [x' vrs]. simpl in *.
  by apply refreshes_ok.
Qed.

Lemma g_frame_CachingStep W H b fs fs' :
  geometry_within (Core := Core) W H →
  CachingStep b fs = Some fs' →
  frame_ok W H (g_frame_rgba fs) → frame_ok W H (g_frame_rgba fs').
Proof.
  intros Hgeo Hstep Hok. unfold CachingStep in Hstep.
  destruct (g_cache fs) as [c|].
  - destruct (StateCache.GetKnown _ _ c) as [[cached|] c1].
    + simplify_eq. by rewrite g_frame_LoadUncompressed.
    + destruct (StateCache.Remember _ _ _ c1) as [c2|]; [|done].
      simplify_eq. simpl. by apply (g_frame_Step W H b (with_cache (Some c1) fs)).
  - simplify_eq. by apply g_frame_Step.
Qed.

Lemma perform_frame_ok W H call fs fs' :
  geometry_within (Core := Core) W H →
  perform call fs = Some fs' →
  frame_ok W H (g_frame_rgba fs) → frame_ok W H (g_frame_rgba fs').
Proof.
  intros Hgeo Hcall Hok.
  destruct call as [r| |b|b|b|inp|inp basis|n s]; simpl in Hcall.
  - simplify_eq. unfold Initialize. destruct (g_initialized fs); [done|].
    by destruct r.
  - simplify_eq. by left.
  - simplify_eq. by apply g_frame_Step.
  - simplify_eq. by apply g_frame_Step.
  - by eapply g_frame_CachingStep.
  - simplify_eq. by rewrite g_frame_LoadUncompressed.
  - unfold LoadEx in Hcall. case_decide; [by simplify_eq|].
    destruct (uncompress _ _); [|done]. simplify_eq.
    by rewrite g_frame_LoadUncompressed.
  - simplify_eq. unfold ResetCache. by destruct (g_cache fs).
Qed.

Lemma reachable_frame_ok W H fs :
  geometry_within (Core := Core) W H → reachable fs →
  frame_ok W H (g_frame_rgba fs).
Proof.
  intros Hgeo [cs Hcs].
  assert (frame_ok W H (g_frame_rgba (start (Core := Core)))) as Hok by (by left).
  revert Hcs Hok. generalize (start (Core := Core)).
  induction cs as [|call cs IH]; intros fs0 Hcs Hok; simpl in Hcs.
  - by simplify_eq.
  - destruct (perform call fs0) as [fs1|] eqn:Hcall; [|done].
    eapply IH; [done|]. by eapply perform_frame_ok.
Qed.

Lemma refreshes_without_frame rgba vrs :
  Forall (λ vr, vr_data vr = None) vrs → foldl refresh rgba vrs = rgba.
Proof.
  induction 1 as [|vr vrs Hvr _ IH]; [done|]. simpl.
  unfold refresh at 2, frame_of. by rewrite Hvr.
Qed.

(** A [Step] that delivers a frame leaves a full buffer; any other leaves
    the buffer as it was. *)
Lemma g_frame_Step_delivers b fs :
  if delivers b fs
  then length (g_frame_rgba (Step b fs)) = FRAME_BYTES
  else g_frame_rgba (Step b fs) = g_frame_rgba fs.
Proof.
  unfold delivers, Step. destruct (g_wrapper fs) as [w|]; [|done].
  destruct (Wrapper.Run (Wrapper.SetInput b w)) as [w' vrs]. simpl.
  case_bool_decide as Hex.
  - apply length_refreshes. by left.
  - apply refreshes_without_frame. apply Forall_forall. intros vr Hvr.
    destruct (vr_data vr) eqn:Hd; [|done].
    destruct Hex. apply Exists_exists. exists vr. by rewrite Hd.
Qed.

Lemma frame_state_Step b fs framed :
  frame_state fs framed → frame_state (Step b fs) (framed || delivers b fs).
Proof.
  intros Hst. pose proof (g_frame_Step_delivers b fs) as Hstep.
  unfold frame_state in *.
  destruct framed, (delivers b fs); simpl; congruence.
Qed.

Lemma perform_frame_state call fs fs' framed :
  perform call fs = Some fs' → frame_state fs framed →
  frame_state fs' (framed_after call fs framed).
Proof.
  intros Hcall Hst.
  destruct call as [r| |b|b|b|inp|inp basis|n s]; simpl in Hcall;
    unfold framed_after; simpl.
  - simplify_eq. unfold frame_state, Initialize in *.
    destruct (g_initialized fs); [done|]. by destruct r.
  - by simplify_eq.
  - simplify_eq. by apply frame_state_Step.
  - simplify_eq. by apply frame_state_Step.
  - unfold CachingStep in Hcall. destruct (g_cache fs) as [c|].
    + destruct (StateCache.GetKnown _ _ c) as [[cached|] c1]; simpl.
      * simplify_eq. unfold frame_state in *.
        by rewrite g_frame_LoadUncompressed.
      * destruct (StateCache.Remember _ _ _ c1) as [c2|]; [|done].
        simplify_eq.
        by apply (frame_state_Step b (with_cache (Some c1) fs)).
    + simplify_eq. by apply frame_state_Step.
  - simplify_eq. unfold frame_state in *. by rewrite g_frame_LoadUncompressed.
  - unfold LoadEx in Hcall. unfold frame_state in *.
    case_decide; [by simplify_eq|].
    destruct (uncompress _ _); [|done]. simplify_eq.
    by rewrite g_frame_LoadUncompressed.
  - simplify_eq. unfold frame_state, ResetCache in *. by destruct (g_cache fs).
Qed.

Lemma watch_frame_state cs fs framed :
  frame_state fs framed →
  match perform_all cs fs with
  | Some fs' => ∃ framed', watch cs fs framed = Some (fs', framed')
                           ∧ frame_state fs' framed'
  | None => watch cs fs framed = None
  end.
Proof.
  revert fs framed. induction cs as [|call cs IH]; intros fs framed Hst; simpl.
  - by exists framed.
  - destruct (perform call fs) as [fs1|] eqn:Hcall; [|done].
    apply IH. by eapply perform_frame_state.
Qed.

(** C8 (as amended): in the state reached by any calls from program start,
    [GetImage] returns an empty buffer as long as no video-refresh
    callback with a frame has completed since start-up or the last
    [Shutdown], and exactly 262144 bytes from then on; in such a frame
    every pixel at a column from [W] on or a row from [H] on is (0,0,0,0),
    where [W] and [H] bound the widths and heights the core reports. *)
Theorem GetImage_frame W H cs fs :
  geometry_within (Core := Core) W H →
  perform_all cs start = Some fs →
  ∃ framed,
    watch cs start false = Some (fs, framed)
    ∧ (framed = false → GetImage fs = [])
    ∧ (framed = true →
       Z.of_nat (length (GetImage fs)) = 262144
       ∧ ∀ x y : nat, (x < 256)%nat → (y < 256)%nat →
           W ≤ Z.of_nat x ∨ H ≤ Z.of_nat y →
           pixel (GetImage fs) x y = [0; 0; 0; 0]).
Proof.
  intros Hgeo Hcs.
  pose proof (watch_frame_state cs start false eq_refl) as Hwatch.
  rewrite Hcs in Hwatch. destruct Hwatch as (framed & Hw & Hst).
  exists framed. split; [done|]. unfold frame_state in Hst. split.
  - by intros ->.
  - intros ->. unfold GetImage. rewrite Hst. split; [apply FRAME_BYTES_Z|].
    destruct (reachable_frame_ok W H fs Hgeo (ex_intro _ cs Hcs))
      as [Hnil|[_ Hblank]].
    + by rewrite Hnil in Hst.
    + intros x y Hx Hy Hout. by eapply pixel_outside.
Qed.

End image_claim.

Lemma tv_geometry : Video.geometry_within (Core := nat) 2 2.
Proof.
  intros b n. simpl. apply Forall_cons. split; [|done].
  destruct n; simpl; lia.
Qed.

Lemma GetImage_frame_witness :
  let boot := Client.CInitialize (EmulatorLibretro.Loaded 0%nat) in
  let before := [boot; Client.CStep 0; Client.CShutdown; boot] in
  let after := before ++ [Client.CStep 0; Client.CLoadUncompressed [7]] in
  let fs := EmulatorLibretro.LoadUncompressed [7]
              (EmulatorLibretro.Step 0 Toy.tv_booted) in
  Video.geometry_within (Core := nat) 2 2
  ∧ Client.perform_all before EmulatorLibretro.start = Some Toy.tv_booted
  ∧ Client.watch before EmulatorLibretro.start false = Some (Toy.tv_booted, false)
  ∧ EmulatorLibretro.GetImage Toy.tv_booted = []
  ∧ Client.perform_all after EmulatorLibretro.start = Some fs
  ∧ Client.watch after EmulatorLibretro.start false = Some (fs, true)
  ∧ Z.of_nat (length (EmulatorLibretro.GetImage fs)) = 262144
  ∧ ∀ x y : nat, (x < 256)%nat → (y < 256)%nat →
      2 ≤ Z.of_nat x ∨ 2 ≤ Z.of_nat y →
      Video.pixel (EmulatorLibretro.GetImage fs) x y = [0; 0; 0; 0].
Proof.
  intros boot before after fs.
  assert (Client.perform_all before EmulatorLibretro.start = Some Toy.tv_booted)
    as H1 by reflexivity.
  assert (Client.perform_all after EmulatorLibretro.start = Some fs)
    as H2 by reflexivity.
  assert (snd <$> Client.watch before EmulatorLibretro.start false = Some false)
    as F1 by (vm_compute; reflexivity).
  assert (snd <$> Client.watch after EmulatorLibretro.start false = Some true)
    as F2 by (vm_compute; reflexivity).
  destruct (GetImage_frame 2 2 before Toy.tv_booted tv_geometry H1)
    as (framed1 & W1 & E1 & _).
  destruct (GetImage_frame 2 2 after fs tv_geometry H2)
    as (framed2 & W2 & _ & L2).
  rewrite W1 in F1. rewrite W2 in F2.
  injection F1 as ->. injection F2 as ->.
  exact (conj tv_geometry (conj H1 (conj W1 (conj (E1 eq_refl)
           (conj H2 (conj W2 (L2 eq_refl))))))).
Defined.

(** C8, the claim as stated fails: before the first frame the buffer is
    empty, and after the core went from a 2 by 2 frame to a 1 by 1 frame
    the pixel at row 1, column 1 still holds the colour of the first
    frame. *)
Lemma GetImage_empty_then_stale :
  let fs := EmulatorLibretro.Steps [0; 0] Toy.tv_booted in
  length (EmulatorLibretro.GetImage (EmulatorLibretro.start (Core := nat))) = 0%nat
  ∧ Client.reachable Toy.tv_booted
  ∧ length (EmulatorLibretro.GetImage Toy.tv_booted) = 0%nat
  ∧ Client.reachable fs
  ∧ vr_width (Toy.picture 1) = 1 ∧ vr_height (Toy.picture 1) = 1
  ∧ Video.pixel (EmulatorLibretro.GetImage fs) 1 1 = [3; 2; 1; 255].
Proof.
  intros fs. split; [reflexivity|]. split.
  { by exists [Client.CInitialize (EmulatorLibretro.Loaded 0%nat)]. }
  split; [reflexivity|]. split.
  { by exists [Client.CInitialize (EmulatorLibretro.Loaded 0%nat);
               Client.CStep 0; Client.CStep 0]. }
  split; [reflexivity|]. split; [reflexivity|].
  vm_compute. reflexivity.
Qed.

(** ** The baseline of the look-ahead scores *)

Section lookahead.
Import EmulatorLibretro PlayFun.
Context {Core : Type} `{!Libretro Core}.
Context {D : Type} `{!Double D}.
Context {Rng : Type}.
Context (Evaluate EvaluateMagnitude : list Z → list Z → D).
Context (RandomWeightedMotif : Rng → list Z * Rng).
Context (use_magnitude_scoring : bool).

Abbreviation Env := (PlayFun.Env (Core := Core) (Rng := Rng)).
Abbreviation M := (PlayFun.M (Core := Core) (Rng := Rng)).
Abbreviation ScoreChange :=
  (PlayFun.ScoreChange (Core := Core) (Rng := Rng)
     Evaluate EvaluateMagnitude use_magnitude_scoring).
Abbreviation AvoidBadFutures :=
  (PlayFun.AvoidBadFutures (Core := Core) Evaluate EvaluateMagnitude
     RandomWeightedMotif use_magnitude_scoring).
Abbreviation SeekGoodFutures :=
  (PlayFun.SeekGoodFutures (Core := Core) Evaluate EvaluateMagnitude
     RandomWeightedMotif use_magnitude_scoring).
Abbreviation TryMotif :=
  (PlayFun.TryMotif (Core := Core) Evaluate EvaluateMagnitude
     RandomWeightedMotif use_magnitude_scoring).

#[local] Existing Instance PlayFun.M_ret.
#[local] Existing Instance PlayFun.M_bind.

Implicit Types (e : Env).

Lemma bind_Some {A B} (m : M A) (k : A → M B) e r :
  (m ≫= k) e = Some r ↔ ∃ a e1, m e = Some (a, e1) ∧ k a e1 = Some r.
Proof.
  unfold mbind, M_bind, bind. split.
  - destruct (m e) as [[a e1]|]; [|done]. intros Hk. by exists a, e1.
  - intros (a & e1 & -> & Hk). done.
Qed.

Lemma scored_with_refl base e e' : scored e' = scored e → scored_with base e e'.
Proof. intros Heq. exists []. by rewrite Heq, app_nil_r. Qed.

Lemma scored_with_trans base e e1 e2 :
  scored_with base e e1 → scored_with base e1 e2 → scored_with base e e2.
Proof.
  intros [fs1 H1] [fs2 H2]. exists (fs1 ++ fs2).
  by rewrite H2, H1, fmap_app, app_assoc.
Qed.

Lemma caching_step_scored b e u e' :
  caching_step b e = Some (u, e') → scored e' = scored e.
Proof.
  unfold caching_step. destruct (CachingStep b (emu e)); [|done].
  by intros [= _ <-].
Qed.

Lemma on_emu_scored f e u e' : on_emu f e = Some (u, e') → scored e' = scored e.
Proof. unfold on_emu. by intros [= _ <-]. Qed.

Lemma of_emu_inv {A} (f : EmulatorLibretro.t Core → A) e a e' :
  of_emu f e = Some (a, e') → a = f (emu e) ∧ e' = e.
Proof. unfold of_emu. by intros [= <- <-]. Qed.

Lemma random_motif_scored e m e' :
  random_motif RandomWeightedMotif e = Some (m, e') → scored e' = scored e.
Proof.
  unfold random_motif. destruct (RandomWeightedMotif (rng e)).
  by intros [= _ <-].
Qed.

Lemma ScoreChange_scored mem1 mem2 e s e' :
  ScoreChange mem1 mem2 e = Some (s, e') →
  scored e' = scored e ++ [(mem1, mem2)] ∧ emu e' = emu e.
Proof. unfold PlayFun.ScoreChange. by intros [= _ <-]. Qed.

Lemma play_bytes_scored m e u e' :
  play_bytes m e = Some (u, e') → scored e' = scored e.
Proof.
  revert e. induction m as [|b m IH]; intros e; simpl.
  - by intros [= _ <-].
  - intros (? & e1 & H1 & H2)%bind_Some.
    rewrite (IH _ H2). by eapply caching_step_scored.
Qed.

Lemma seek_depth_scored n e u e' :
  seek_depth RandomWeightedMotif n e = Some (u, e') → scored e' = scored e.
Proof.
  revert e. induction n as [|n IH]; intros e; simpl.
  - by intros [= _ <-].
  - intros (m & e1 & H1 & (? & e2 & H2 & H3)%bind_Some)%bind_Some.
    rewrite (IH _ H3), (play_bytes_scored _ _ _ _ H2).
    by eapply random_motif_scored.
Qed.

Lemma avoid_bytes_scored base i d x m total e t e' :
  avoid_bytes Evaluate EvaluateMagnitude use_magnitude_scoring
    base i d x m total e = Some (t, e') →
  scored_with base e e'.
Proof.
  revert x total e. induction m as [|b m IH]; intros x total e; simpl.
  - intros [= _ <-]. by apply scored_with_refl.
  - intros (? & e1 & H1 & (fm & e2 & H2 & (s & e3 & H3 & H4)%bind_Some)%bind_Some)%bind_Some.
    apply of_emu_inv in H2 as [-> ->].
    apply ScoreChange_scored in H3 as [H3 _].
    apply caching_step_scored in H1.
    eapply scored_with_trans; [|by eapply IH].
    exists [GetMemory (emu e1)]. by rewrite H3, H1.
Qed.

Lemma avoid_depth_scored base i d n total e t e' :
  avoid_depth Evaluate EvaluateMagnitude RandomWeightedMotif
    use_magnitude_scoring base i d n total e = Some (t, e') →
  scored_with base e e'.
Proof.
  revert d total e. induction n as [|n IH]; intros d total e; simpl.
  - intros [= _ <-]. by apply scored_with_refl.
  - intros (m & e1 & H1 & (t1 & e2 & H2 & H3)%bind_Some)%bind_Some.
    apply random_motif_scored in H1.
    eapply scored_with_trans; [|by eapply IH].
    eapply scored_with_trans; [by apply scored_with_refl|].
    by eapply avoid_bytes_scored.
Qed.

(** Every score taken by [AvoidBadFutures] compares against its argument. *)
Lemma AvoidBadFutures_scored depths base e t e' :
  AvoidBadFutures depths base e = Some (t, e') → scored_with base e e'.
Proof.
  unfold PlayFun.AvoidBadFutures.
  intros (st & e1 & H1 & (t1 & e2 & H2
          & (? & e3 & H3 & H4)%bind_Some)%bind_Some)%bind_Some.
  apply of_emu_inv in H1 as [-> ->].
  apply on_emu_scored in H3.
  eapply scored_with_trans; [by eapply avoid_depth_scored|].
  eapply scored_with_trans; [by apply scored_with_refl|].
  by eapply avoid_depth_scored.
Qed.

Lemma seek_trial_scored base i depth total e t e' :
  seek_trial Evaluate EvaluateMagnitude RandomWeightedMotif
    use_magnitude_scoring base i depth total e = Some (t, e') →
  scored_with base e e'.
Proof.
  unfold seek_trial.
  intros (? & e1 & H1 & (fm & e2 & H2
          & (s & e3 & H3 & H4)%bind_Some)%bind_Some)%bind_Some.
  apply of_emu_inv in H2 as [-> ->].
  apply ScoreChange_scored in H3 as [H3 _].
  apply seek_depth_scored in H1.
  injection H4 as _ <-.
  exists [GetMemory (emu e1)]. by rewrite H3, H1.
Qed.

(** Every score taken by [SeekGoodFutures] compares against its argument. *)
Lemma SeekGoodFutures_scored depths base e t e' :
  SeekGoodFutures depths base e = Some (t, e') → scored_with base e e'.
Proof.
  unfold PlayFun.SeekGoodFutures.
  intros (st & e1 & H1 & (t1 & e2 & H2 & (? & e3 & H3 & (t2 & e4 & H4
          & (? & e5 & H5 & H6)%bind_Some)%bind_Some)%bind_Some)%bind_Some)%bind_Some.
  apply of_emu_inv in H1 as [-> ->].
  apply on_emu_scored in H3. apply on_emu_scored in H5.
  eapply scored_with_trans; [by eapply seek_trial_scored|].
  eapply scored_with_trans; [by apply scored_with_refl|].
  eapply scored_with_trans; [by eapply seek_trial_scored|].
  eapply scored_with_trans; [by apply scored_with_refl|].
  by eapply seek_trial_scored.
Qed.

(** *** The look-aheads against their rollouts *)

Abbreviation score :=
  (PlayFun.score Evaluate EvaluateMagnitude use_magnitude_scoring).
Abbreviation rollout := (PlayFun.rollout (Core := Core) RandomWeightedMotif).
Abbreviation avoid_rollouts :=
  (PlayFun.avoid_rollouts (Core := Core) RandomWeightedMotif).
Abbreviation seek_rollout :=
  (PlayFun.seek_rollout (Core := Core) RandomWeightedMotif).
Abbreviation seek_rollouts :=
  (PlayFun.seek_rollouts (Core := Core) RandomWeightedMotif).
Abbreviation lookahead_rollouts :=
  (PlayFun.lookahead_rollouts (Core := Core) RandomWeightedMotif).

Lemma fmap_concat {A B} (f : A → B) (ls : list (list A)) :
  f <$> concat ls = concat (fmap (M := list) f <$> ls).
Proof.
  induction ls as [|l ls IH]; [done|]. simpl. by rewrite fmap_app, IH.
Qed.

Lemma least_from_started total (scores : list D) :
  least_from true total scores = foldl d_min total scores.
Proof. by destruct scores. Qed.

Lemma same_machine_refl e : same_machine e e.
Proof. done. Qed.

Lemma blind_ret {A} (a : A) : blind (Core := Core) (Rng := Rng) (mret a).
Proof.
  intros e1 e2 a' e1' Hsame [= <- <-]. split; [done|]. by exists e2.
Qed.

Lemma blind_bind {A B} (m : M A) (k : A → M B) :
  blind m → (∀ a, blind (k a)) → blind (m ≫= k).
Proof.
  intros Hm Hk e1 e2 b e1' Hsame (a & e1m & H1 & H2)%bind_Some.
  destruct (Hm _ _ _ _ Hsame H1) as (Hs1 & e2m & H1' & Hsame1 & Hs2).
  destruct (Hk a _ _ _ _ Hsame1 H2) as (Hs1' & e2' & H2' & Hsame2 & Hs2').
  split; [congruence|]. exists e2'. split_and!; [|done|congruence].
  apply bind_Some. by exists a, e2m.
Qed.

Lemma blind_of_emu {A} (f : EmulatorLibretro.t Core → A) :
  blind (Rng := Rng) (of_emu f).
Proof.
  intros e1 e2 a e1' [Hemu Hrng] [= <- <-]. split; [done|].
  exists e2. unfold of_emu. by rewrite Hemu.
Qed.

Lemma blind_on_emu (f : EmulatorLibretro.t Core → EmulatorLibretro.t Core) :
  blind (Rng := Rng) (on_emu f).
Proof.
  intros e1 e2 a e1' [Hemu Hrng] [= <- <-]. split; [done|].
  eexists. split; [done|]. split; [|done]. split; simpl; congruence.
Qed.

Lemma blind_caching_step b : blind (Rng := Rng) (caching_step b).
Proof.
  intros e1 e2 a e1' [Hemu Hrng] Hstep. unfold caching_step in *.
  rewrite <- Hemu.
  destruct (CachingStep b (emu e1)) as [fs|]; [|done].
  injection Hstep as <- <-. split; [done|].
  eexists. split; [done|]. split; [|done]. by split.
Qed.

Lemma blind_random_motif :
  blind (Core := Core) (random_motif RandomWeightedMotif).
Proof.
  intros e1 e2 a e1' [Hemu Hrng] Hm. unfold random_motif in *.
  rewrite <- Hrng. destruct (RandomWeightedMotif (rng e1)) as [m g].
  injection Hm as <- <-. split; [done|].
  eexists. split; [done|]. split; [|done]. by split.
Qed.

(** Playing a motif changes the machine as the rollout of its steps
    does. *)
Lemma play_bytes_rollout m e1 e2 u e1' :
  same_machine e1 e2 → play_bytes m e1 = Some (u, e1') →
  scored e1' = scored e1
  ∧ ∃ memories e2', rollout_steps m e2 = Some (memories, e2')
                    ∧ same_machine e1' e2' ∧ scored e2' = scored e2.
Proof.
  revert e1 e2. induction m as [|b m IH]; intros e1 e2 Hsame; simpl.
  - intros [= _ <-]. split; [done|]. by exists [], e2.
  - intros ([] & e1a & H1 & H2)%bind_Some.
    destruct (blind_caching_step b _ _ _ _ Hsame H1)
      as (Hs1 & e2a & H1' & Hsame1 & Hs2).
    destruct (IH _ _ Hsame1 H2) as (Hs1' & memories & e2' & H2' & Hsame2 & Hs2').
    split; [congruence|].
    exists (GetMemory (emu e2a) :: memories), e2'. split_and!; [|done|congruence].
    apply bind_Some. exists tt, e2a. split; [done|].
    apply bind_Some. exists (GetMemory (emu e2a)), e2a. split; [done|].
    apply bind_Some. by exists memories, e2'.
Qed.

Lemma seek_depth_rollout n e1 e2 u e1' :
  same_machine e1 e2 → seek_depth RandomWeightedMotif n e1 = Some (u, e1') →
  scored e1' = scored e1
  ∧ ∃ motifs e2', rollout n e2 = Some (motifs, e2')
                  ∧ same_machine e1' e2' ∧ scored e2' = scored e2.
Proof.
  revert e1 e2. induction n as [|n IH]; intros e1 e2 Hsame; simpl.
  - intros [= _ <-]. split; [done|]. by exists [], e2.
  - intros (m & e1a & H1 & ([] & e1b & H2 & H3)%bind_Some)%bind_Some.
    destruct (blind_random_motif _ _ _ _ Hsame H1)
      as (Hs1 & e2a & H1' & Hsame1 & Hs2).
    destruct (play_bytes_rollout _ _ _ _ _ Hsame1 H2)
      as (Hs1' & memories & e2b & H2' & Hsame2 & Hs2').
    destruct (IH _ _ Hsame2 H3) as (Hs1'' & motifs & e2' & H3' & Hsame3 & Hs2'').
    split; [congruence|].
    exists (memories :: motifs), e2'. split_and!; [|done|congruence].
    apply bind_Some. exists m, e2a. split; [done|].
    apply bind_Some. exists memories, e2b. split; [done|].
    apply bind_Some. by exists motifs, e2'.
Qed.

(** The innermost loop of [AvoidBadFutures] scores, against its argument,
    the memory after every step of the motif, and keeps the least. *)
Lemma avoid_bytes_rollout base i d x m total e1 e2 t e1' :
  same_machine e1 e2 →
  avoid_bytes Evaluate EvaluateMagnitude use_magnitude_scoring
    base i d x m total e1 = Some (t, e1') →
  ∃ memories e2',
    rollout_steps m e2 = Some (memories, e2')
    ∧ same_machine e1' e2' ∧ scored e2' = scored e2
    ∧ scored e1' = scored e1 ++ ((λ f, (base, f)) <$> memories)
    ∧ t = least_from (nonzero i || nonzero d || nonzero x) total
            (score base <$> memories).
Proof.
  revert x total e1 e2. induction m as [|b m IH]; intros x total e1 e2 Hsame; simpl.
  - intros [= <- <-]. exists [], e2. by rewrite app_nil_r.
  - intros ([] & e1a & H1 & (fm & e1b & H2 & (s & e1c & H3 & H4)%bind_Some)
            %bind_Some)%bind_Some.
    destruct (blind_caching_step b _ _ _ _ Hsame H1)
      as (Hs1 & e2a & H1' & Hsame1 & Hs2).
    apply of_emu_inv in H2 as [-> ->].
    unfold PlayFun.ScoreChange in H3. injection H3 as <- <-.
    assert (same_machine
              {| emu := emu e1a; rng := rng e1a;
                 scored := scored e1a ++ [(base, GetMemory (emu e1a))] |} e2a)
      as Hsame1' by (destruct Hsame1; by split).
    destruct (IH (S x) _ _ e2a Hsame1' H4)
      as (memories & e2' & H4' & Hsame2 & Hs2' & Hs1' & Ht).
    exists (GetMemory (emu e1a) :: memories), e2'. split_and!; try done.
    + apply bind_Some. exists tt, e2a. split; [done|].
      apply bind_Some. exists (GetMemory (emu e1a)), e2a.
      split; [unfold of_emu; by rewrite (proj1 Hsame1)|].
      apply bind_Some. by exists memories, e2'.
    + congruence.
    + rewrite Hs1'. simpl. rewrite Hs1, <- app_assoc. done.
    + rewrite Ht. rewrite !orb_true_r, least_from_started. done.
Qed.

(** The loop over [d] does so for [n] random motifs in sequence. *)
Lemma avoid_depth_rollout base i d n total e1 e2 t e1' :
  same_machine e1 e2 →
  avoid_depth Evaluate EvaluateMagnitude RandomWeightedMotif
    use_magnitude_scoring base i d n total e1 = Some (t, e1') →
  ∃ motifs e2',
    rollout n e2 = Some (motifs, e2')
    ∧ same_machine e1' e2' ∧ scored e2' = scored e2
    ∧ scored e1' = scored e1 ++ ((λ f, (base, f)) <$> concat motifs)
    ∧ t = match motifs with
          | [] => total
          | m0 :: later =>
              foldl d_min
                (least_from (nonzero i || nonzero d) total (score base <$> m0))
                (score base <$> concat later)
          end.
Proof.
  revert d total e1 e2. induction n as [|n IH]; intros d total e1 e2 Hsame; simpl.
  - intros [= <- <-]. exists [], e2. by rewrite app_nil_r.
  - intros (m & e1a & H1 & (t1 & e1b & H2 & H3)%bind_Some)%bind_Some.
    destruct (blind_random_motif _ _ _ _ Hsame H1)
      as (Hs1 & e2a & H1' & Hsame1 & Hs2).
    destruct (avoid_bytes_rollout _ _ _ _ _ _ _ _ _ _ Hsame1 H2)
      as (memories & e2b & H2' & Hsame2 & Hs2' & Hs1' & Ht1).
    destruct (IH _ _ _ _ Hsame2 H3)
      as (motifs & e2' & H3' & Hsame3 & Hs2'' & Hs1'' & Ht).
    exists (memories :: motifs), e2'. split_and!; try done.
    + apply bind_Some. exists m, e2a. split; [done|].
      apply bind_Some. exists memories, e2b. split; [done|].
      apply bind_Some. by exists motifs, e2'.
    + congruence.
    + rewrite Hs1'', Hs1', Hs1. simpl. by rewrite fmap_app, app_assoc.
    + rewrite Ht, Ht1. rewrite orb_false_r.
      destruct motifs as [|m1 later]; [done|].
      rewrite orb_true_r, least_from_started. simpl.
      by rewrite fmap_app, foldl_app.
Qed.

(** [AvoidBadFutures] scores every memory of its two rollouts against its
    argument, and returns the least score. *)
Lemma AvoidBadFutures_rollouts depths base e1 e2 t e1' :
  same_machine e1 e2 →
  AvoidBadFutures depths base e1 = Some (t, e1') →
  ∃ first second e2',
    avoid_rollouts depths e2 = Some ((first, second), e2')
    ∧ same_machine e1' e2' ∧ scored e2' = scored e2
    ∧ scored e1'
      = scored e1 ++ ((λ f, (base, f)) <$> (concat first ++ concat second))
    ∧ t = avoid_total (fmap (M := list) (score base) <$> first)
                      (fmap (M := list) (score base) <$> second).
Proof.
  intros Hsame. unfold PlayFun.AvoidBadFutures.
  intros (st & e1a & H1 & (t1 & e1b & H2
          & ([] & e1c & H3 & H4)%bind_Some)%bind_Some)%bind_Some.
  apply of_emu_inv in H1 as [-> ->].
  destruct (avoid_depth_rollout _ _ _ _ _ _ _ _ _ Hsame H2)
    as (first & e2b & H2' & Hsame2 & Hs2 & Hs1 & Ht1).
  destruct (blind_on_emu _ _ _ _ _ Hsame2 H3) as (Hs1c & e2c & H3' & Hsame3 & Hs2c).
  destruct (avoid_depth_rollout _ _ _ _ _ _ _ _ _ Hsame3 H4)
    as (second & e2' & H4' & Hsame4 & Hs2' & Hs1' & Ht).
  exists first, second, e2'. split_and!; try done.
  - apply bind_Some. exists (SaveUncompressed [] (emu e2)), e2. split; [done|].
    apply bind_Some. exists first, e2b. split; [done|].
    apply bind_Some. exists tt, e2c. rewrite <- (proj1 Hsame). split; [done|].
    apply bind_Some. by exists second, e2'.
  - congruence.
  - rewrite Hs1', Hs1c, Hs1. by rewrite fmap_app, app_assoc.
  - rewrite Ht, Ht1. unfold avoid_total. simpl.
    assert (∀ total,
              match second with
              | [] => total
              | m0 :: later =>
                  foldl d_min (least_from true total (score base <$> m0))
                    (score base <$> concat later)
              end
              = foldl d_min total (concat (fmap (M := list) (score base) <$> second)))
      as Hsecond.
    { intros total. destruct second as [|m0 later]; [done|].
      rewrite least_from_started. simpl.
      by rewrite foldl_app, fmap_concat. }
    rewrite Hsecond.
    destruct first as [|[|fm m0] later]; simpl.
    + done.
    + by rewrite foldl_app, fmap_concat.
    + by rewrite !foldl_app, fmap_concat.
Qed.

(** A trial of [SeekGoodFutures] scores the memory at the end of its
    rollout against the argument. *)
Lemma seek_trial_rollout base i depth total e1 e2 t e1' :
  same_machine e1 e2 →
  seek_trial Evaluate EvaluateMagnitude RandomWeightedMotif
    use_magnitude_scoring base i depth total e1 = Some (t, e1') →
  ∃ memory e2',
    seek_rollout depth e2 = Some (memory, e2')
    ∧ same_machine e1' e2' ∧ scored e2' = scored e2
    ∧ scored e1' = scored e1 ++ [(base, memory)]
    ∧ t = if nonzero i then d_max total (score base memory)
          else score base memory.
Proof.
  intros Hsame. unfold seek_trial.
  intros ([] & e1a & H1 & (fm & e1b & H2
          & (s & e1c & H3 & H4)%bind_Some)%bind_Some)%bind_Some.
  destruct (seek_depth_rollout _ _ _ _ _ Hsame H1)
    as (Hs1 & motifs & e2a & H1' & Hsame1 & Hs2).
  apply of_emu_inv in H2 as [-> ->].
  unfold PlayFun.ScoreChange in H3. injection H3 as <- <-.
  injection H4 as <- <-.
  exists (GetMemory (emu e1a)), e2a. split_and!; try done.
  - unfold PlayFun.seek_rollout. apply bind_Some. exists motifs, e2a.
    split; [done|]. unfold of_emu. by rewrite (proj1 Hsame1).
  - simpl. by rewrite Hs1.
Qed.

(** [SeekGoodFutures] scores the final memory of each of its three
    rollouts against its argument, and returns the greatest score. *)
Lemma SeekGoodFutures_rollouts depths base e1 e2 t e1' :
  same_machine e1 e2 →
  SeekGoodFutures depths base e1 = Some (t, e1') →
  ∃ ends e2',
    seek_rollouts depths e2 = Some (ends, e2')
    ∧ same_machine e1' e2' ∧ scored e2' = scored e2
    ∧ scored e1' = scored e1 ++ ((λ f, (base, f)) <$> ends)
    ∧ length ends = 3%nat
    ∧ t = seek_total (score base <$> ends).
Proof.
  intros Hsame. unfold PlayFun.SeekGoodFutures.
  intros (st & e1a & H1 & (t1 & e1b & H2 & ([] & e1c & H3 & (t2 & e1d & H4
          & ([] & e1f & H5 & H6)%bind_Some)%bind_Some)%bind_Some)%bind_Some)%bind_Some.
  apply of_emu_inv in H1 as [-> ->].
  destruct (seek_trial_rollout _ _ _ _ _ _ _ _ Hsame H2)
    as (m1 & e2b & H2' & Hsame2 & Hs2b & Hs1b & Ht1).
  destruct (blind_on_emu _ _ _ _ _ Hsame2 H3) as (Hs1c & e2c & H3' & Hsame3 & Hs2c).
  destruct (seek_trial_rollout _ _ _ _ _ _ _ _ Hsame3 H4)
    as (m2 & e2d & H4' & Hsame4 & Hs2d & Hs1d & Ht2).
  destruct (blind_on_emu _ _ _ _ _ Hsame4 H5) as (Hs1f & e2f & H5' & Hsame5 & Hs2f).
  destruct (seek_trial_rollout _ _ _ _ _ _ _ _ Hsame5 H6)
    as (m3 & e2' & H6' & Hsame6 & Hs2' & Hs1' & Ht3).
  exists [m1; m2; m3], e2'. split_and!; try done.
  - apply bind_Some. exists (SaveUncompressed [] (emu e2)), e2. split; [done|].
    apply bind_Some. exists m1, e2b. split; [done|].
    apply bind_Some. exists tt, e2c. rewrite <- (proj1 Hsame). split; [done|].
    apply bind_Some. exists m2, e2d. split; [done|].
    apply bind_Some. exists tt, e2f. split; [done|].
    apply bind_Some. by exists m3, e2'.
  - congruence.
  - rewrite Hs1', Hs1f, Hs1d, Hs1c, Hs1b. simpl. by rewrite <- !app_assoc.
  - rewrite Ht3, Ht2, Ht1. done.
Qed.

(** C3 (as amended): the evaluation of a candidate motif takes the memory
    [M1] right after the motif; its immediate score is the score of the
    memory of the frame start against [M1]; its future score is the sum of
    the minimum that [AvoidBadFutures] keeps over its two rollouts
    ([avoid_total]) and the maximum that [SeekGoodFutures] keeps over its
    three ([seek_total]), where every memory of a rollout that is scored
    (the memory after every step of an avoid rollout, the memory at the
    end of a seek rollout) is scored against [M1], not against the memory
    of the frame start; and these are all the scores it takes. *)
Theorem TryMotif_baseline avoid_depths seek_depths current_state current_memory
    trial motif e r e' :
  TryMotif avoid_depths seek_depths current_state current_memory trial motif e
  = Some (r, e') →
  ∃ e1 first second ends e2,
    play_motif current_state trial motif e = Some (tt, e1)
    ∧ lookahead_rollouts avoid_depths seek_depths e1
      = Some ((first, second, ends), e2)
    ∧ same_machine e' e2
    ∧ length ends = 3%nat
    ∧ let new_memory := GetMemory (emu e1) in
      let immediate := score current_memory new_memory in
      let future :=
        d_add (avoid_total (fmap (M := list) (score new_memory) <$> first)
                           (fmap (M := list) (score new_memory) <$> second))
              (seek_total (score new_memory <$> ends)) in
      r = (d_add immediate future, immediate, future)
      ∧ scored e'
        = scored e
          ++ (current_memory, new_memory)
             :: ((λ f, (new_memory, f))
                   <$> (concat first ++ concat second ++ ends)).
Proof.
  unfold PlayFun.TryMotif, play_motif.
  intros ([] & e0 & H0 & ([] & e1 & H1 & (new_memory & ? & H2
          & (new_state & ? & H3 & (imm & e4 & H4 & (avoid & e5 & H5
          & ([] & e6 & H6 & (seek & e7 & H7 & H8)%bind_Some)%bind_Some)%bind_Some)
          %bind_Some)%bind_Some)%bind_Some)%bind_Some)%bind_Some.
  apply of_emu_inv in H2 as [-> ->]. apply of_emu_inv in H3 as [-> ->].
  unfold PlayFun.ScoreChange in H4. injection H4 as <- <-.
  injection H8 as <- <-.
  assert (scored e1 = scored e) as Hplay.
  { rewrite (play_bytes_scored _ _ _ _ H1).
    destruct (nonzero trial).
    - by eapply on_emu_scored.
    - by injection H0 as <-. }
  assert (same_machine
            {| emu := emu e1; rng := rng e1;
               scored := scored e1 ++ [(current_memory, GetMemory (emu e1))] |}
            e1) as Hsame0 by done.
  destruct (AvoidBadFutures_rollouts _ _ _ _ _ _ Hsame0 H5)
    as (first & second & e2a & Ha & Hsame_a & Hsa2 & Hsa1 & Hta).
  destruct (blind_on_emu _ _ _ _ _ Hsame_a H6) as (Hs6 & e2b & H6' & Hsame_b & Hsb2).
  destruct (SeekGoodFutures_rollouts _ _ _ _ _ _ Hsame_b H7)
    as (ends & e2 & Hs & Hsame_s & Hss2 & Hss1 & Hlen & Hts).
  exists e1, first, second, ends, e2. split_and!; try done.
  - apply bind_Some. by exists tt, e0.
  - unfold PlayFun.lookahead_rollouts.
    apply bind_Some. exists (SaveUncompressed [] (emu e1)), e1. split; [done|].
    apply bind_Some. exists (first, second), e2a. split; [done|].
    apply bind_Some. exists tt, e2b. split; [done|].
    apply bind_Some. by exists ends, e2.
  - by rewrite Hta, Hts.
  - rewrite Hss1, Hs6, Hsa1. simpl. rewrite Hplay.
    rewrite <- !app_assoc. simpl. by rewrite !fmap_app, <- !app_assoc.
Qed.

End lookahead.

Lemma TryMotif_baseline_witness :
  let e0 := {| PlayFun.emu := EmulatorLibretro.ResetCache 1000 100 Toy.booted;
               PlayFun.rng := 0%nat; PlayFun.scored := [] |} in
  ∃ r e' e1 rollouts e2,
    PlayFun.TryMotif Toy.evaluate Toy.evaluate Toy.draw false
      (1, 2) (1, 1, 1) [0] [0] 0 [5] e0 = Some (r, e')
    ∧ PlayFun.play_motif [0] 0 [5] e0 = Some (tt, e1)
    ∧ EmulatorLibretro.GetMemory (PlayFun.emu e1) = [6]
    ∧ PlayFun.lookahead_rollouts Toy.draw (1, 2) (1, 1, 1) e1
      = Some (rollouts, e2)
    ∧ rollouts = ([[[8]]], [[[8]]; [[10]]], [[8]; [8]; [8]])
    ∧ r = (10, 6, 4)
    ∧ PlayFun.scored e'
      = [([0], [6]); ([6], [8]); ([6], [8]); ([6], [10]);
         ([6], [8]); ([6], [8]); ([6], [8])]
    ∧ ∃ e1 first second ends e2,
        PlayFun.play_motif [0] 0 [5] e0 = Some (tt, e1)
        ∧ PlayFun.lookahead_rollouts Toy.draw (1, 2) (1, 1, 1) e1
          = Some ((first, second, ends), e2)
        ∧ PlayFun.same_machine e' e2
        ∧ length ends = 3%nat
        ∧ let new_memory := EmulatorLibretro.GetMemory (PlayFun.emu e1) in
          let score := PlayFun.score Toy.evaluate Toy.evaluate false in
          let immediate := score [0] new_memory in
          let future :=
            d_add (PlayFun.avoid_total
                     (fmap (M := list) (score new_memory) <$> first)
                     (fmap (M := list) (score new_memory) <$> second))
                  (PlayFun.seek_total (score new_memory <$> ends)) in
          r = (d_add immediate future, immediate, future)
          ∧ PlayFun.scored e'
            = PlayFun.scored e0
              ++ ([0], new_memory)
                 :: ((λ f, (new_memory, f))
                       <$> (concat first ++ concat second ++ ends)).
Proof.
  intros e0. do 5 eexists.
  split; [vm_compute; reflexivity|].
  split; [vm_compute; reflexivity|].
  split; [vm_compute; reflexivity|].
  split; [vm_compute; reflexivity|].
  split; [reflexivity|].
  split; [reflexivity|].
  split; [reflexivity|].
  apply (TryMotif_baseline Toy.evaluate Toy.evaluate Toy.draw false
           (1, 2) (1, 1, 1) [0] [0] 0%nat [5] e0).
  vm_compute. reflexivity.
Defined.

(** C3, the claim as stated fails: from a frame start with RAM [[0]], the
    motif of the single input 5 leads to RAM [[6]]; the immediate score
    compares [[0]] with [[6]], and each of the six look-ahead scores
    compares [[6]], not [[0]], with a rollout memory.  The future score is
    4; with [[0]] as the baseline the first look-ahead alone would give 8. *)
Lemma TryMotif_scores_against_new_memory :
  let booted := EmulatorLibretro.ResetCache 1000 100 Toy.booted in
  let e0 := {| PlayFun.emu := booted; PlayFun.rng := 0%nat;
               PlayFun.scored := [] |} in
  let e1 := {| PlayFun.emu := EmulatorLibretro.Steps [5] booted;
               PlayFun.rng := 0%nat; PlayFun.scored := [] |} in
  EmulatorLibretro.GetMemory booted = [0]
  ∧ (∃ e', PlayFun.TryMotif Toy.evaluate Toy.evaluate Toy.draw false
             (1, 2) (1, 1, 1) [0] [0] 0 [5] e0 = Some ((10, 6, 4), e')
           ∧ PlayFun.scored e'
             = [([0], [6]); ([6], [8]); ([6], [8]); ([6], [10]);
                ([6], [8]); ([6], [8]); ([6], [8])])
  ∧ (∃ e', PlayFun.AvoidBadFutures Toy.evaluate Toy.evaluate Toy.draw false
             (1, 2) [0] e1 = Some (8, e')).
Proof.
  intros booted e0 e1. split; [reflexivity|]. split.
  - eexists. split; vm_compute; reflexivity.
  - eexists. vm_compute. reflexivity.
Qed.

(** ** The joypad *)

Section joypad_facts.
Import LibretroUtil Joypad.

Lemma has_testbit mask k : 0 ≤ k → has mask (2 ^ k) = Z.testbit mask k.
Proof.
  intros Hk. unfold has.
  destruct (Z.testbit mask k) eqn:Hbit.
  - apply negb_true_iff, Z.eqb_neq. intros Hz.
    assert (Z.testbit (Z.land mask (2 ^ k)) k = true) as Hb.
    { rewrite Z.land_spec, Hbit, Z.pow2_bits_true by done. done. }
    by rewrite Hz, Z.bits_0 in Hb.
  - apply negb_false_iff, Z.eqb_eq, Z.bits_inj'. intros n Hn.
    rewrite Z.land_spec, Z.bits_0.
    destruct (decide (n = k)) as [->|Hne].
    + by rewrite Hbit.
    + rewrite Z.pow2_bits_false by lia. by rewrite andb_false_r.
Qed.

Lemma testbit_press mask bit id r b :
  0 ≤ id →
  Z.testbit (press mask bit id r) b
  = (has mask bit && (b =? id)) || Z.testbit r b.
Proof.
  intros Hid. unfold press. destruct (has mask bit); [|done].
  destruct (decide (0 ≤ b)) as [Hb|Hb].
  - rewrite Z.lor_spec, Z.shiftl_1_l, Z.pow2_bits_eqb by done.
    rewrite (Z.eqb_sym id b). by rewrite orb_comm.
  - rewrite !Z.testbit_neg_r by lia.
    by replace (b =? id) with false by (symmetry; apply Z.eqb_neq; lia).
Qed.

Lemma JoypadMask_testbit mask b :
  Z.testbit (JoypadMask mask) b = IsPressed mask b.
Proof.
  unfold JoypadMask. rewrite !testbit_press by done. rewrite Z.bits_0.
  unfold IsPressed.
  repeat (case_decide; [subst b; by destruct (has mask _), (has mask _),
    (has mask _), (has mask _), (has mask _), (has mask _), (has mask _),
    (has mask _)|]).
  unfold JOYPAD_A, JOYPAD_B, JOYPAD_SELECT, JOYPAD_START, JOYPAD_UP,
    JOYPAD_DOWN, JOYPAD_LEFT, JOYPAD_RIGHT in *.
  repeat match goal with
         | |- context [b =? ?n] =>
             replace (b =? n) with false by (symmetry; apply Z.eqb_neq; lia)
         end.
  by rewrite !andb_false_r.
Qed.

Lemma IsPressed_testbit mask k :
  0 ≤ k < 8 →
  Z.testbit mask k
  = IsPressed mask (nth (Z.to_nat k)
      [JOYPAD_A; JOYPAD_B; JOYPAD_SELECT; JOYPAD_START; JOYPAD_UP;
       JOYPAD_DOWN; JOYPAD_LEFT; JOYPAD_RIGHT] 0).
Proof.
  intros Hk. rewrite <- has_testbit by lia.
  assert (k = 0 ∨ k = 1 ∨ k = 2 ∨ k = 3 ∨ k = 4 ∨ k = 5 ∨ k = 6 ∨ k = 7)
    as Hcases by lia.
  destruct Hcases as [->|[->|[->|[->|[->|[->|[->| ->]]]]]]]; reflexivity.
Qed.

Section callback.
Context (RETRO_DEVICE_JOYPAD RETRO_DEVICE_ID_JOYPAD_MASK : Z).
Abbreviation callback :=
  (InputStateCallback RETRO_DEVICE_JOYPAD RETRO_DEVICE_ID_JOYPAD_MASK).

(** X1: on a joypad of port 0 or 1, at index 0, the callback answers 1 for a
    button id exactly when [LibretroUtil::IsPressed] holds of the mask
    stored for that port, and 0 otherwise; after [SetInput(0, b)] port 0
    reports the buttons of [b] and port 1 reports none. *)
Theorem InputStateCallback_IsPressed {Core : Type} `{!Libretro Core}
    (w : Wrapper.t Core) (b port id : Z) :
  0 ≤ port < 2 → id ≠ RETRO_DEVICE_ID_JOYPAD_MASK →
  callback (impl_of (Wrapper.SetInput b w)) port RETRO_DEVICE_JOYPAD 0 id
  = if IsPressed (if decide (port = 0) then b else 0) id then 1 else 0.
Proof.
  intros Hport Hid. unfold InputStateCallback, impl_of, Wrapper.SetInput. simpl.
  destruct (decide (2 ≤ port)); [lia|].
  destruct (decide (RETRO_DEVICE_JOYPAD ≠ RETRO_DEVICE_JOYPAD)); [done|].
  destruct (decide (0 ≠ 0)); [done|].
  unfold IsPressed.
  repeat (case_decide; [done|]). done.
Qed.

Lemma InputStateCallback_mask (input_state : Z * Z) (port : Z) :
  0 ≤ port < 2 → RETRO_DEVICE_ID_JOYPAD_MASK ∉ joypad_ids →
  callback (Some input_state) port RETRO_DEVICE_JOYPAD 0
           RETRO_DEVICE_ID_JOYPAD_MASK
  = JoypadMask (if decide (port = 0) then input_state.1 else input_state.2).
Proof.
  intros Hport Hid. unfold InputStateCallback.
  destruct (decide (2 ≤ port)); [lia|].
  destruct (decide (RETRO_DEVICE_JOYPAD ≠ RETRO_DEVICE_JOYPAD)); [done|].
  destruct (decide (0 ≠ 0)); [done|].
  unfold joypad_ids in Hid. rewrite !not_elem_of_cons in Hid.
  destruct Hid as (?&?&?&?&?&?&?&?&_).
  repeat (rewrite decide_False by done). by rewrite decide_True by done.
Qed.

(** X2: the answer to [RETRO_DEVICE_ID_JOYPAD_MASK] has bit [id] set exactly
    when [IsPressed(mask, id)]; so it lies between 0 and 511. *)
Theorem InputStateCallback_mask_bits (input_state : Z * Z) (port : Z) :
  0 ≤ port < 2 → RETRO_DEVICE_ID_JOYPAD_MASK ∉ joypad_ids →
  let mask := if decide (port = 0) then input_state.1 else input_state.2 in
  let answer := callback (Some input_state) port RETRO_DEVICE_JOYPAD 0
                         RETRO_DEVICE_ID_JOYPAD_MASK in
  (∀ id, Z.testbit answer id = IsPressed mask id) ∧ 0 ≤ answer < 512.
Proof.
  intros Hport Hid mask answer.
  assert (answer = JoypadMask mask) as ->
    by (by apply InputStateCallback_mask).
  split; [apply JoypadMask_testbit|].
  assert (0 ≤ JoypadMask mask) as Hnn.
  { apply Z.bits_iff_nonneg_ex. exists 9. intros m Hm.
    rewrite JoypadMask_testbit. unfold IsPressed.
    unfold JOYPAD_A, JOYPAD_B, JOYPAD_SELECT, JOYPAD_START, JOYPAD_UP,
      JOYPAD_DOWN, JOYPAD_LEFT, JOYPAD_RIGHT.
    repeat (case_decide; [lia|]). done. }
  split; [done|].
  destruct (decide (JoypadMask mask = 0)) as [->|Hnz]; [lia|].
  change 512 with (2 ^ 9). apply Z.log2_lt_pow2; [lia|].
  pose proof (Z.bit_log2 (JoypadMask mask) ltac:(lia)) as Hbit.
  rewrite JoypadMask_testbit in Hbit. unfold IsPressed in Hbit.
  unfold JOYPAD_A, JOYPAD_B, JOYPAD_SELECT, JOYPAD_START, JOYPAD_UP,
    JOYPAD_DOWN, JOYPAD_LEFT, JOYPAD_RIGHT in Hbit.
  repeat (case_decide; [lia|]). done.
Qed.

(** X3: the answer of port 0 to the mask query determines the input byte:
    two bytes with the same answer are equal. *)
Theorem InputStateCallback_mask_injective (m1 m2 : Z) :
  RETRO_DEVICE_ID_JOYPAD_MASK ∉ joypad_ids → is_u8 m1 → is_u8 m2 →
  callback (Some (m1, 0)) 0 RETRO_DEVICE_JOYPAD 0 RETRO_DEVICE_ID_JOYPAD_MASK
  = callback (Some (m2, 0)) 0 RETRO_DEVICE_JOYPAD 0 RETRO_DEVICE_ID_JOYPAD_MASK →
  m1 = m2.
Proof.
  intros Hid H1 H2 Heq.
  assert (JoypadMask m1 = JoypadMask m2) as Hj.
  { by rewrite !InputStateCallback_mask in Heq by (done || lia). }
  apply Z.bits_inj'. intros k Hk.
  destruct (decide (k < 8)) as [Hlt|Hge].
  - rewrite !IsPressed_testbit by lia. rewrite <- !JoypadMask_testbit.
    by rewrite Hj.
  - unfold is_u8 in *. rewrite !Z.bits_above_log2; try done; try lia.
    + destruct (decide (m2 = 0)) as [->|]; [simpl; lia|].
      assert (Z.log2 m2 < 8) by (apply Z.log2_lt_pow2; lia). lia.
    + destruct (decide (m1 = 0)) as [->|]; [simpl; lia|].
      assert (Z.log2 m1 < 8) by (apply Z.log2_lt_pow2; lia). lia.
Qed.
End callback.
End joypad_facts.

Lemma InputStateCallback_IsPressed_witness :
  let w := {| Wrapper.rom_loaded := true; Wrapper.input_state := 0;
              Wrapper.core := 0 |} in
  let impl := Joypad.impl_of (Wrapper.SetInput 0x81 w) in
  0 ≤ 0 < 2 ∧ 0 ≤ 1 < 2
  ∧ LibretroUtil.JOYPAD_A ≠ 256 ∧ LibretroUtil.JOYPAD_B ≠ 256
  ∧ LibretroUtil.JOYPAD_RIGHT ≠ 256
  ∧ Joypad.InputStateCallback 1 256 impl 0 1 0 LibretroUtil.JOYPAD_A = 1
  ∧ Joypad.InputStateCallback 1 256 impl 0 1 0 LibretroUtil.JOYPAD_B = 0
  ∧ Joypad.InputStateCallback 1 256 impl 0 1 0 LibretroUtil.JOYPAD_RIGHT = 1
  ∧ Joypad.InputStateCallback 1 256 impl 1 1 0 LibretroUtil.JOYPAD_A = 0.
Proof.
  intros w impl.
  assert (0 ≤ 0 < 2) as P0 by lia.
  assert (0 ≤ 1 < 2) as P1 by lia.
  assert (LibretroUtil.JOYPAD_A ≠ 256) as HA by done.
  assert (LibretroUtil.JOYPAD_B ≠ 256) as HB by done.
  assert (LibretroUtil.JOYPAD_RIGHT ≠ 256) as HR by done.
  exact (conj P0 (conj P1 (conj HA (conj HB (conj HR
    (conj (InputStateCallback_IsPressed 1 256 w 0x81 0 _ P0 HA)
    (conj (InputStateCallback_IsPressed 1 256 w 0x81 0 _ P0 HB)
    (conj (InputStateCallback_IsPressed 1 256 w 0x81 0 _ P0 HR)
          (InputStateCallback_IsPressed 1 256 w 0x81 1 _ P1 HA))))))))).
Defined.

Lemma InputStateCallback_mask_bits_witness :
  let answer := Joypad.InputStateCallback 1 256 (Some (0x81, 0)) 0 1 0 256 in
  0 ≤ 0 < 2 ∧ (256 ∉ joypad_ids)
  ∧ answer = 384
  ∧ (∀ id, Z.testbit answer id = LibretroUtil.IsPressed 0x81 id)
  ∧ 0 ≤ answer < 512.
Proof.
  intros answer.
  assert (0 ≤ 0 < 2) as P0 by lia.
  assert (256 ∉ joypad_ids) as Hid
    by (unfold joypad_ids; rewrite !not_elem_of_cons; split_and!; try done;
        apply not_elem_of_nil).
  exact (conj P0 (conj Hid (conj eq_refl
           (InputStateCallback_mask_bits 1 256 (0x81, 0) 0 P0 Hid)))).
Defined.

Lemma InputStateCallback_mask_injective_witness :
  (256 ∉ joypad_ids) ∧ is_u8 0x81 ∧ is_u8 (0x80 + 1)
  ∧ Joypad.InputStateCallback 1 256 (Some (0x81, 0)) 0 1 0 256
    = Joypad.InputStateCallback 1 256 (Some (0x80 + 1, 0)) 0 1 0 256
  ∧ 0x81 = 0x80 + 1.
Proof.
  assert (256 ∉ joypad_ids) as Hid
    by (unfold joypad_ids; rewrite !not_elem_of_cons; split_and!; try done;
        apply not_elem_of_nil).
  assert (is_u8 0x81) as H1 by (unfold is_u8; lia).
  assert (is_u8 (0x80 + 1)) as H2 by (unfold is_u8; lia).
  exact (conj Hid (conj H1 (conj H2 (conj eq_refl
           (InputStateCallback_mask_injective 1 256 0x81 (0x80 + 1)
              Hid H1 H2 eq_refl))))).
Defined.

(** ** Sound *)

Section audio_facts.
Import Audio.

Lemma mean_between l r :
  Z.min l r ≤ Z.quot (l + r) 2 ≤ Z.max l r.
Proof.
  destruct (decide (0 ≤ l + r)) as [Hs|Hs].
  - rewrite Z.quot_div_nonneg by lia.
    pose proof (Z.div_mod (l + r) 2 ltac:(lia)).
    pose proof (Z.mod_pos_bound (l + r) 2 ltac:(lia)). lia.
  - rewrite <- (Z.opp_involutive (l + r)), Z.quot_opp_l by lia.
    rewrite Z.quot_div_nonneg by lia.
    pose proof (Z.div_mod (- (l + r)) 2 ltac:(lia)).
    pose proof (Z.mod_pos_bound (- (l + r)) 2 ltac:(lia)). lia.
Qed.

Lemma s16_id z : is_s16 z → s16 z = z.
Proof. unfold is_s16, s16. intros Hz. rewrite Z.mod_small; lia. Qed.

Lemma s16_mean l r : is_s16 l → is_s16 r → s16 (Z.quot (l + r) 2) = Z.quot (l + r) 2.
Proof.
  intros Hl Hr. apply s16_id. pose proof (mean_between l r).
  unfold is_s16 in *. lia.
Qed.

Lemma audio_cb_stereo (n : nat) (samples : list Z) :
  length samples = (2 * n)%nat → Forall is_s16 samples →
  audio_cb samples = Some (mean <$> stereo n samples)
  ∧ length (stereo n samples) = n.
Proof.
  revert samples. induction n as [|n IH]; intros samples Hlen Hs.
  - by destruct samples.
  - destruct samples as [|l [|r samples]]; simpl in Hlen; try lia.
    apply Forall_cons in Hs as [Hl Hs]. apply Forall_cons in Hs as [Hr Hs].
    destruct (IH samples) as [Hcb Hlen']; [lia|done|].
    simpl. rewrite Hcb, s16_mean by done. by rewrite Hlen'.
Qed.

Lemma stereo_app (n m : nat) (a b : list Z) :
  length a = (2 * n)%nat →
  stereo (n + m) (a ++ b) = stereo n a ++ stereo m b.
Proof.
  revert a. induction n as [|n IH]; intros a Hlen.
  - by destruct a.
  - destruct a as [|l [|r a]]; simpl in Hlen; try lia.
    simpl. f_equal. apply IH. lia.
Qed.

Lemma stereo_take (n : nat) (data : list Z) :
  stereo n (take (2 * n) data) = stereo n data.
Proof.
  revert data. induction n as [|n IH]; intros data; [by destruct data|].
  replace (2 * S n)%nat with (S (S (2 * n))) by lia.
  destruct data as [|l [|r data]]; [done..|].
  cbn [stereo take]. f_equal. apply IH.
Qed.

(** The buffer after the calls: the interleaved frames, in order. *)
Lemma collect_frames (calls : list call) (buf : list Z) (n : nat) :
  Forall call_ok calls → length buf = (2 * n)%nat → Forall is_s16 buf →
  ∃ buf' m,
    collect calls buf = Some buf'
    ∧ length buf' = (2 * m)%nat ∧ Forall is_s16 buf'
    ∧ stereo m buf' = stereo n buf ++ concat (frames_of <$> calls).
Proof.
  intros Hok. revert buf n.
  induction Hok as [|c calls Hc Hok IH]; intros buf n Hlen Hs.
  - exists buf, n. by rewrite app_nil_r.
  - destruct c as [l r|data frames]; simpl.
    + destruct Hc as [Hl Hr].
      destruct (IH (AudioSampleCallback l r buf) (n + 1)%nat)
        as (buf' & m & -> & Hlen' & Hs' & Hst).
      { unfold AudioSampleCallback. rewrite length_app. simpl. lia. }
      { apply Forall_app. split; [done|]. by apply Forall_cons_2, Forall_singleton. }
      exists buf', m. split_and!; try done.
      rewrite Hst. unfold AudioSampleCallback.
      rewrite stereo_app by done. by rewrite <- app_assoc.
    + destruct Hc as (Hf & Hdata & Hsd).
      unfold AudioSampleBatchCallback.
      assert (u64 (frames * 2) = 2 * frames) as ->
        by (unfold u64; rewrite Z.mod_small; lia).
      rewrite decide_True by lia.
      replace (Z.to_nat (2 * frames)) with (2 * Z.to_nat frames)%nat by lia.
      destruct (IH (buf ++ take (2 * Z.to_nat frames) data)
                   (n + Z.to_nat frames)%nat)
        as (buf' & m & -> & Hlen' & Hs' & Hst).
      { rewrite length_app, length_take. lia. }
      { apply Forall_app. split; [done|]. by apply Forall_take. }
      exists buf', m. split_and!; try done.
      rewrite Hst, stereo_app by done. by rewrite stereo_take, <- app_assoc.
Qed.

(** X4: when the core keeps to the callback contract, [Run] never reads
    out of range; a run without sound leaves the samples of the previous
    run in place, and otherwise [GetSound] returns one sample per stereo
    frame delivered, each the truncated mean of its frame (with no
    wrap-around). *)
Theorem Run_mono (calls : list call) (g_audio_samples : list Z) :
  Forall call_ok calls →
  let frames := concat (frames_of <$> calls) in
  Run calls g_audio_samples
  = Some (if decide (frames = []) then g_audio_samples else mean <$> frames).
Proof.
  intros Hok frames. unfold Run.
  destruct (collect_frames calls [] 0 Hok eq_refl (Forall_nil_2 _))
    as (buf & m & -> & Hlen & Hs & Hst).
  simpl in Hst. fold frames in Hst.
  destruct (audio_cb_stereo m buf Hlen Hs) as [Hcb Hm].
  rewrite Hcb, Hst.
  destruct (decide (buf = [])) as [->|Hne].
  - destruct m; [|done]. simpl in Hst. by rewrite <- Hst.
  - rewrite decide_False; [done|]. intros Hnil. rewrite Hnil in Hst.
    rewrite <- Hm, Hst in Hlen. by destruct buf.
Qed.

(** X5: the audio callback on an interleaved buffer of odd length reads
    past its end; on one of even length it yields half as many samples. *)
Theorem audio_cb_even (samples : list Z) :
  match audio_cb samples with
  | Some mono => (2 * length mono)%nat = length samples
  | None => Nat.Odd (length samples)
  end.
Proof.
  cut (∀ l : list Z,
         (match audio_cb l with
          | Some mono => (2 * length mono)%nat = length l
          | None => Nat.Odd (length l)
          end)
         ∧ ∀ x, match audio_cb (x :: l) with
                | Some mono => (2 * length mono)%nat = length (x :: l)
                | None => Nat.Odd (length (x :: l))
                end).
  { intros Hcut. apply Hcut. }
  clear samples. intros l. induction l as [|a l [IH1 IH2]].
  - split; [done|]. intros x. by exists 0%nat.
  - split; [apply IH2|]. intros x. cbn [audio_cb].
    destruct (audio_cb l) as [mono|]; simpl in *.
    + lia.
    + destruct IH1 as [k Hk]. exists (S k). lia.
Qed.
End audio_facts.

Lemma Run_mono_witness :
  let calls := [Audio.Sample 10 20; Audio.Batch [-3; -4; 7; 8; 99] 2] in
  Forall Audio.call_ok calls
  ∧ Audio.Run calls [1; 2; 3] = Some [15; -3; 7]
  ∧ Audio.Run [] [1; 2; 3] = Some [1; 2; 3].
Proof.
  intros calls.
  assert (Forall Audio.call_ok calls) as Hok.
  { apply Forall_cons. split; [unfold Audio.call_ok, Audio.is_s16; lia|].
    apply Forall_cons. split; [|apply Forall_nil_2].
    unfold Audio.call_ok. split; [lia|]. split; [simpl; lia|].
    repeat (apply Forall_cons; split; [unfold Audio.is_s16; lia|]).
    apply Forall_nil_2. }
  exact (conj Hok (conj (Run_mono calls [1; 2; 3] Hok)
                        (Run_mono [] [1; 2; 3] (Forall_nil_2 _)))).
Defined.

(** ** The pixels of the canonical frame *)

Section pixel_facts.
Import Video VideoShown.

Lemma pixel_ext (l1 l2 : list Z) (x y : nat) :
  (∀ k, (k < 4)%nat → l1 !! (y * 1024 + x * 4 + k)%nat = l2 !! (y * 1024 + x * 4 + k)%nat) →
  pixel l1 x y = pixel l2 x y.
Proof.
  intros Hk. unfold pixel. apply list_eq. intros i.
  destruct (decide (i < 4)%nat) as [Hi|Hi].
  - rewrite !lookup_take_lt, !lookup_drop by done. by apply Hk.
  - by rewrite !lookup_take_ge by lia.
Qed.

Lemma pixel_lookup (l : list Z) (x y : nat) a b c d :
  l !! (y * 1024 + x * 4 + 0)%nat = Some a →
  l !! (y * 1024 + x * 4 + 1)%nat = Some b →
  l !! (y * 1024 + x * 4 + 2)%nat = Some c →
  l !! (y * 1024 + x * 4 + 3)%nat = Some d →
  pixel l x y = [a; b; c; d].
Proof.
  intros H0 H1 H2 H3. unfold pixel.
  rewrite <- lookup_drop in H0, H1, H2, H3.
  destruct (drop (y * 1024 + x * 4) l) as [|a' [|b' [|c' [|d' l']]]];
    by simplify_eq/=.
Qed.

Lemma pixel_put_same fb (x y : nat) rgba :
  length rgba = FRAME_BYTES → (x < 256)%nat → (y < 256)%nat →
  pixel (put_pixel fb (Z.of_nat y) (Z.of_nat x) rgba) x y
  = shown fb (Z.of_nat x) (Z.of_nat y) (pixel rgba x y).
Proof.
  intros Hlen Hx Hy. unfold put_pixel, shown. case_decide; [|done].
  rewrite dst_offset_small by lia.
  replace (Z.to_nat (Z.of_nat y * 1024 + Z.of_nat x * 4))
    with (y * 1024 + x * 4)%nat by lia.
  assert (y * 1024 + x * 4 + 3 < FRAME_BYTES)%nat as Hin
    by (apply Nat2Z.inj_lt; rewrite FRAME_BYTES_Z; lia).
  apply pixel_lookup.
  - rewrite !list_lookup_insert_ne by lia.
    apply list_lookup_insert_eq. lia.
  - rewrite !list_lookup_insert_ne by lia.
    apply list_lookup_insert_eq. rewrite !length_insert. lia.
  - rewrite !list_lookup_insert_ne by lia.
    apply list_lookup_insert_eq. rewrite !length_insert. lia.
  - apply list_lookup_insert_eq. rewrite !length_insert. lia.
Qed.

Lemma pixel_put_other fb (x' y' : Z) (x y : nat) rgba :
  0 ≤ x' < 256 → 0 ≤ y' < 256 → (x < 256)%nat → (y < 256)%nat →
  (x', y') ≠ (Z.of_nat x, Z.of_nat y) →
  pixel (put_pixel fb y' x' rgba) x y = pixel rgba x y.
Proof.
  intros Hx' Hy' Hx Hy Hne. unfold put_pixel. case_decide; [|done].
  rewrite dst_offset_small by lia.
  assert (x' ≠ Z.of_nat x ∨ y' ≠ Z.of_nat y) as Hor.
  { destruct (decide (x' = Z.of_nat x)); [|by left].
    destruct (decide (y' = Z.of_nat y)); [|by right]. by subst. }
  apply pixel_ext. intros k Hk.
  rewrite !list_lookup_insert_ne by lia. done.
Qed.

Lemma row_pixel fb (y' : Z) (xs : list Z) rgba (x y : nat) :
  Forall (λ x', 0 ≤ x' < 256) xs → NoDup xs → 0 ≤ y' < 256 →
  (x < 256)%nat → (y < 256)%nat → length rgba = FRAME_BYTES →
  pixel (foldl (λ acc x', put_pixel fb y' x' acc) rgba xs) x y
  = if decide (y' = Z.of_nat y ∧ Z.of_nat x ∈ xs)
    then shown fb (Z.of_nat x) (Z.of_nat y) (pixel rgba x y)
    else pixel rgba x y.
Proof.
  intros Hxs Hnd Hy' Hx Hy. revert rgba.
  induction Hxs as [|x' xs Hx' _ IH]; intros rgba Hlen.
  - simpl. rewrite decide_False; [done|]. intros [_ Hin]. by apply elem_of_nil in Hin.
  - apply NoDup_cons in Hnd as [Hnin Hnd]. simpl.
    rewrite IH by (done || by rewrite length_put_pixel).
    destruct (decide ((x', y') = (Z.of_nat x, Z.of_nat y))) as [Heq|Hne].
    + injection Heq as Hex Hey. subst x' y'.
      rewrite decide_False by (intros [_ ?]; done).
      rewrite decide_True by (split; [done|apply list_elem_of_here]).
      by apply pixel_put_same.
    + rewrite pixel_put_other by done.
      destruct (decide (y' = Z.of_nat y ∧ Z.of_nat x ∈ xs)) as [[-> Hin]|Hno].
      * by rewrite decide_True by (split; [done|by apply list_elem_of_further]).
      * rewrite decide_False; [done|].
        intros [Hey [Hex|Hin]%elem_of_cons]; [congruence|]. by apply Hno.
Qed.

Lemma rows_pixel fb (ys xs : list Z) rgba (x y : nat) :
  Forall (λ y', 0 ≤ y' < 256) ys → NoDup ys →
  Forall (λ x', 0 ≤ x' < 256) xs → NoDup xs →
  (x < 256)%nat → (y < 256)%nat → length rgba = FRAME_BYTES →
  pixel (foldl (λ acc y', foldl (λ acc x', put_pixel fb y' x' acc) acc xs)
               rgba ys) x y
  = if decide (Z.of_nat y ∈ ys ∧ Z.of_nat x ∈ xs)
    then shown fb (Z.of_nat x) (Z.of_nat y) (pixel rgba x y)
    else pixel rgba x y.
Proof.
  intros Hys Hndy Hxs Hndx Hx Hy. revert rgba.
  induction Hys as [|y' ys Hy' _ IH]; intros rgba Hlen.
  - cbn [foldl]. rewrite decide_False; [done|].
    intros [Hin _]. by apply elem_of_nil in Hin.
  - apply NoDup_cons in Hndy as [Hnin Hndy]. simpl.
    assert (length (foldl (λ acc x', put_pixel fb y' x' acc) rgba xs)
            = FRAME_BYTES) as Hlen'.
    { destruct (row_outside 256 256 fb y' xs rgba) as [-> _]; try done; try lia.
      eapply Forall_impl; [exact Hxs|]. simpl. lia. }
    rewrite IH by done. rewrite row_pixel by done.
    destruct (decide (y' = Z.of_nat y)) as [->|Hne].
    + rewrite decide_False by (intros [? _]; done).
      destruct (decide (Z.of_nat x ∈ xs)) as [Hin|Hnin'].
      * rewrite decide_True by done.
        by rewrite decide_True by (split; [apply list_elem_of_here|done]).
      * rewrite decide_False by (intros [_ ?]; done).
        by rewrite decide_False by (intros [_ ?]; done).
    + rewrite (decide_False (P := y' = Z.of_nat y ∧ _)) by (intros [? _]; done).
      destruct (decide (Z.of_nat y ∈ ys ∧ Z.of_nat x ∈ xs)) as [[Hin1 Hin2]|Hno].
      * by rewrite decide_True by (split; [by apply list_elem_of_further|done]).
      * rewrite decide_False; [done|].
        intros [[Hey|Hin]%elem_of_cons ?]; [congruence|]. by apply Hno.
Qed.

(** X6: inside the window the callback covers, the canonical frame shows
    the source pixel with its first three bytes reversed (the source is
    taken to be XRGB8888, stored blue first) and an alpha of 255; a pixel
    whose source offset lies outside the span keeps what the buffer held. *)
Theorem video_cb_pixel fb rgba (x y : nat) :
  Z.of_nat x < Z.min (width fb) 256 → Z.of_nat y < Z.min (height fb) 256 →
  pixel (video_cb fb rgba) x y
  = shown fb (Z.of_nat x) (Z.of_nat y) (pixel (resize FRAME_BYTES 0 rgba) x y).
Proof.
  intros Hx Hy. unfold video_cb.
  rewrite rows_pixel.
  - rewrite decide_True; [done|]. split; apply elem_of_seqZ; lia.
  - apply Forall_forall. intros ? ?%elem_of_seqZ. lia.
  - apply NoDup_seqZ.
  - apply Forall_forall. intros ? ?%elem_of_seqZ. lia.
  - apply NoDup_seqZ.
  - lia.
  - lia.
  - apply length_resize.
Qed.
End pixel_facts.

Lemma video_cb_pixel_witness :
  let fb := {| Video.data := [1; 2; 3; 9; 4; 5; 6; 9; 7; 8; 9; 9; 10; 11; 12; 9];
               Video.width := 2; Video.height := 2; Video.pitch := 8 |} in
  let short := {| Video.data := [1; 2; 3; 9; 4; 5; 6; 9; 7; 8; 9; 9; 10; 11; 12];
                  Video.width := 2; Video.height := 2; Video.pitch := 8 |} in
  Z.of_nat 1 < Z.min 2 256
  ∧ Video.pixel (Video.video_cb fb []) 1 1 = [12; 11; 10; 255]
  ∧ Video.pixel (Video.video_cb fb []) 0 1 = [9; 8; 7; 255]
  ∧ Video.pixel (Video.video_cb short []) 1 1
    = Video.pixel (resize Video.FRAME_BYTES 0 []) 1 1.
Proof.
  intros fb short.
  assert (Z.of_nat 1 < Z.min 2 256) as H1 by (simpl; lia).
  assert (Z.of_nat 0 < Z.min 2 256) as H0 by (simpl; lia).
  exact (conj H1 (conj (video_cb_pixel fb [] 1 1 H1 H1)
           (conj (video_cb_pixel fb [] 0 1 H0 H1)
                 (video_cb_pixel short [] 1 1 H1 H1)))).
Defined.

(** ** More about the cache *)

Section cache_extras.
Import StateCache.
Implicit Types (c : t) (tb : gmap (Z * list Z) (Z * list Z)).

Lemma elem_of_seqs_of tb q :
  q ∈ seqs_of tb ↔ ∃ k v, tb !! k = Some v ∧ v.1 = q.
Proof.
  unfold seqs_of. rewrite list_elem_of_fmap. split.
  - intros ([k v] & -> & Hin%elem_of_map_to_list). by exists k, v.
  - intros (k & v & Hk & <-). exists (k, v). split; [done|].
    by apply elem_of_map_to_list.
Qed.

Lemma filter_all {A} (P : A → Prop) `{!∀ x, Decision (P x)} (l : list A) :
  Forall P l → filter P l = l.
Proof.
  induction 1 as [|x l Hx _ IH]; [done|].
  by rewrite filter_cons_True, IH.
Qed.

Lemma MaybeGC_keeps_max c c' k v :
  table c !! k = Some v →
  Forall (λ q, q ≤ v.1) (seqs_of (table c)) →
  MaybeGC c = Some c' → table c' !! k = Some v.
Proof.
  intros Hk Hmax Hgc.
  destruct (MaybeGC_inv c c' Hgc) as [[_ ->]|(_ & ms & Hms & ->)]; [done|].
  rewrite erase_below_table. apply map_lookup_filter_Some. split; [done|].
  simpl. apply list_elem_of_lookup_2 in Hms.
  rewrite merge_sort_Permutation in Hms.
  rewrite Forall_forall in Hmax. specialize (Hmax ms Hms). lia.
Qed.

(** X7: what [Remember] stores under a new key is what the next [GetKnown]
    on that key returns, whether or not [Remember] evicted entries. *)
Theorem Remember_then_GetKnown i s r c c' :
  seqs_ok c → table c !! (i, s) = None →
  Remember i s r c = Some c' →
  (GetKnown i s c').1 = Some r.
Proof.
  intros [_ Hlt] Hnew Hrem. unfold Remember in Hrem. rewrite Hnew in Hrem.
  eapply (MaybeGC_keeps_max _ _ (i, s) (next_seq c, r)) in Hrem.
  - simpl in Hrem. unfold GetKnown. by rewrite Hrem.
  - simpl. by rewrite lookup_insert_eq.
  - simpl. rewrite (seqs_of_insert_fresh _ _ _ Hnew). simpl.
    apply Forall_cons. split; [lia|].
    eapply Forall_impl; [exact Hlt|]. simpl. lia.
Qed.

(** X8: a hit makes its entry the most recently used: it outlives the
    eviction that the next [Remember] may run, when the cache is meant to
    keep at least two entries. *)
Theorem GetKnown_hit_survives_eviction i s i' s' r' c c2 :
  in_range c → count_ok c → seqs_ok c →
  next_seq c + 1 < 2 ^ 64 → count c + 1 < 2 ^ 64 → 2 ≤ limit c →
  is_Some (table c !! (i, s)) → table c !! (i', s') = None →
  Remember i' s' r' (GetKnown i s c).2 = Some c2 →
  is_Some (table c2 !! (i, s)).
Proof.
  intros (Hl & Hs & Hc & Hn & _) Hcount [Hnd Hlt] Hnext Hcnt Hlim
    [[sq r] Hk] Hnew Hrem.
  assert ((i', s') ≠ (i, s)) as Hne by (intros Heq; by rewrite Heq, Hk in Hnew).
  unfold GetKnown, Remember in Hrem. rewrite Hk in Hrem. simpl in Hrem.
  rewrite lookup_insert_ne, Hnew in Hrem by done.
  unfold is_u64 in *.
  rewrite (u64_id (next_seq c + 1)), (u64_id (count c + 1)) in Hrem
    by (unfold is_u64; lia).
  set (tb1 := <[(i, s) := (next_seq c, r)]> (table c)) in *.
  set (tb2 := <[(i', s') := (next_seq c + 1, r')]> tb1) in *.
  assert (tb2 !! (i, s) = Some (next_seq c, r)) as Hk2.
  { unfold tb2, tb1. by rewrite lookup_insert_ne, lookup_insert_eq. }
  assert (seqs_of tb2
          ≡ₚ (next_seq c + 1) :: next_seq c :: seqs_of (delete (i, s) (table c)))
    as Hperm.
  { unfold tb2. rewrite seqs_of_insert_fresh
      by (unfold tb1; by rewrite lookup_insert_ne).
    simpl. apply Permutation_skip. unfold tb1.
    by rewrite (seqs_of_insert_over _ _ _ _ Hk). }
  assert (Forall (λ q, 0 ≤ q < next_seq c) (seqs_of (delete (i, s) (table c))))
    as Hrest.
  { apply Forall_forall. intros q (k & v & Hkv & <-)%elem_of_seqs_of.
    apply lookup_delete_Some in Hkv as [_ Hkv].
    rewrite Forall_forall in Hlt. apply Hlt, elem_of_seqs_of. by exists k, v. }
  assert (NoDup (seqs_of (delete (i, s) (table c)))) as Hnd'.
  { pose proof (seqs_of_delete _ _ _ Hk) as Hp. rewrite <- Hp in Hnd.
    by apply NoDup_cons in Hnd as [_ ?]. }
  assert (NoDup (seqs_of tb2)) as Hnd2.
  { rewrite Hperm. rewrite Forall_forall in Hrest.
    apply NoDup_cons. split.
    - rewrite elem_of_cons. intros [?|Hin]; [lia|]. apply Hrest in Hin. lia.
    - apply NoDup_cons. split; [|done]. intros Hin. apply Hrest in Hin. lia. }
  destruct (MaybeGC_inv _ _ Hrem) as [[_ ->]|(Hover & ms & Hms & ->)];
    simpl in *; [by rewrite Hk2|].
  rewrite erase_below_table. simpl.
  exists (next_seq c, r). apply map_lookup_filter_Some. split; [done|]. simpl.
  intros Hbig.
  destruct (cutoff_count tb2 _ ms Hnd2 Hms) as [Hcut _].
  assert (ms = next_seq c + 1) as ->.
  { apply list_elem_of_lookup_2 in Hms. rewrite merge_sort_Permutation, Hperm in Hms.
    rewrite !elem_of_cons in Hms. destruct Hms as [?|[?|Hin]]; [done|lia|].
    rewrite Forall_forall in Hrest. apply Hrest in Hin. lia. }
  rewrite Hperm in Hcut.
  rewrite filter_cons_False, filter_cons_True in Hcut by lia.
  rewrite filter_all in Hcut
    by (eapply Forall_impl; [exact Hrest|]; simpl; lia).
  pose proof (seqs_of_delete _ _ _ Hk) as Hsize.
  apply Permutation_length in Hsize. simpl in Hsize, Hcut.
  rewrite Hsize, length_seqs_of in Hcut.
  unfold count_ok in Hcount.
  assert (Z.of_nat (Z.to_nat (u64 (count c + 1 - limit c))) = count c) as Hidx
    by (rewrite <- Hcut; lia).
  rewrite Z2Nat.id in Hidx by (unfold u64; apply Z.mod_pos_bound; lia).
  unfold u64 in Hidx. revert Hidx.
  Z.to_euclidean_division_equations. lia.
Qed.
End cache_extras.

Section caching_extras.
Import EmulatorLibretro StateCache.
Context {Core : Type} `{!Libretro Core} `{!Zlib}.
Implicit Types (fs : EmulatorLibretro.t Core) (c : StateCache.t).

Lemma Remember_frame i s r c c' :
  Remember i s r c = Some c' →
  limit c' = limit c ∧ slop c' = slop c ∧ hits c' = hits c
  ∧ misses c' = misses c ∧ next_seq c' = u64 (next_seq c + 1).
Proof.
  intros Hrem. unfold Remember in Hrem.
  destruct (MaybeGC_frame _ _ Hrem) as (? & ? & ? & ? & ?). by simpl in *.
Qed.

Lemma CachingStep_counts b fs c fs' :
  g_cache fs = Some c → CachingStep b fs = Some fs' →
  ∃ c', g_cache fs' = Some c'
        ∧ ((hits c' = u64 (hits c + 1) ∧ misses c' = misses c)
           ∨ (hits c' = hits c ∧ misses c' = u64 (misses c + 1))).
Proof.
  intros Hc Hstep. unfold CachingStep in Hstep. rewrite Hc in Hstep.
  unfold GetKnown in Hstep.
  destruct (table c !! (b, SaveUncompressed [] fs)) as [[sq r]|] eqn:Hk.
  - simplify_eq. eexists. rewrite g_cache_LoadUncompressed. simpl.
    split; [done|]. by left.
  - destruct (Remember _ _ _ _) as [c2|] eqn:Hrem; [|done]. simplify_eq.
    exists c2. split; [done|]. right.
    destruct (Remember_frame _ _ _ _ _ Hrem) as (_ & _ & ? & ? & _). by simpl in *.
Qed.

(** X9: with a cache allocated, every [CachingStep] counts as exactly one
    hit or one miss: after a run of [CachingStep]s, [hits + misses] has
    grown by the number of steps (in 64-bit arithmetic). *)
Theorem CachingSteps_counts_every_step inputs fs c fs' :
  g_cache fs = Some c → CachingSteps inputs fs = Some fs' →
  ∃ c', g_cache fs' = Some c'
        ∧ u64 (hits c' + misses c')
          = u64 (hits c + misses c + Z.of_nat (length inputs)).
Proof.
  revert fs c. induction inputs as [|b inputs IH]; intros fs c Hc Hsteps.
  - simpl in *. simplify_eq. exists c. split; [done|]. f_equal. lia.
  - simpl in Hsteps. destruct (CachingStep b fs) as [fs1|] eqn:Hstep; [|done].
    destruct (CachingStep_counts _ _ _ _ Hc Hstep) as (c1 & Hc1 & Hcount).
    destruct (IH _ _ Hc1 Hsteps) as (c' & Hc' & Heq).
    exists c'. split; [done|]. rewrite Heq. unfold u64 in *.
    destruct Hcount as [[-> ->]|[-> ->]]; simpl length;
      rewrite Nat2Z.inj_succ; Z.to_euclidean_division_equations; lia.
Qed.

Lemma cache_fit_hit i s c sq r :
  cache_fit c → next_seq c + 1 < 2 ^ 64 →
  table c !! (i, s) = Some (sq, r) →
  cache_fit (GetKnown i s c).2
  ∧ limit (GetKnown i s c).2 = limit c ∧ slop (GetKnown i s c).2 = slop c
  ∧ next_seq (GetKnown i s c).2 = next_seq c + 1.
Proof.
  intros (Hr & Hcount & Hseqs & Hlim & Hsum & Hbound) Hnext Hk.
  destruct Hr as (? & ? & ? & Hn & ? & ?).
  assert (stamped (next_seq c) c) as Hst
    by (split; [done|unfold is_u64 in Hn; lia]).
  pose proof (stamped_exec (next_seq c) (OpGetKnown i s) c _ Hst Hnext eq_refl)
    as [Hseqs' _].
  pose proof (count_ok_GetKnown i s c Hcount) as Hcount'.
  unfold GetKnown in *. rewrite Hk in *. simpl in *.
  assert (u64 (next_seq c + 1) = next_seq c + 1) as Hu
    by (apply u64_id; unfold is_u64 in *; lia).
  pose proof (u64_range (hits c + 1)) as Hh'.
  unfold cache_fit, in_range, is_u64 in *. simpl.
  rewrite Hu in Hseqs', Hcount' |- *.
  split_and!; try done; lia.
Qed.

Lemma cache_fit_Remember i s r c :
  cache_fit c → next_seq c + 1 < 2 ^ 64 → table c !! (i, s) = None →
  ∃ c', Remember i s r c = Some c' ∧ cache_fit c'
        ∧ limit c' = limit c ∧ slop c' = slop c
        ∧ next_seq c' = next_seq c + 1.
Proof.
  intros (Hr & Hcount & Hseqs & Hlim & Hsum & Hbound) Hnext Hk.
  pose proof Hr as (Hl & Hs & Hc & Hn & Hh & Hm).
  unfold is_u64 in *.
  set (c1 := {| table := <[(i, s) := (next_seq c, r)]> (table c);
                limit := limit c; count := u64 (count c + 1);
                next_seq := u64 (next_seq c + 1); slop := slop c;
                hits := hits c; misses := misses c |}).
  assert (Remember i s r c = MaybeGC c1) as Hrem
    by (unfold Remember; by rewrite Hk).
  assert (count c1 = count c + 1) as Hc1
    by (simpl; apply u64_id; unfold is_u64; lia).
  assert (next_seq c1 = next_seq c + 1) as Hn1
    by (simpl; apply u64_id; unfold is_u64; lia).
  assert (in_range c1) as Hr1.
  { unfold in_range, is_u64. rewrite Hc1, Hn1. simpl. lia. }
  assert (count_ok c1) as Hcount1.
  { unfold count_ok in *. rewrite Hc1. simpl.
    rewrite map_size_insert_None by done. lia. }
  destruct Hseqs as [Hnd Hlt].
  destruct (seqs_ok_stamp (seqs_of (table c)) (seqs_of (table c1)) (next_seq c))
    as [Hnd1 Hlt1]; [done|done|lia|lia| |].
  { simpl. by rewrite seqs_of_insert_fresh. }
  destruct (MaybeGC_total c1) as [c2 Hgc]; [done|done|simpl; lia|simpl; lia|].
  exists c2. rewrite Hrem. split; [done|].
  destruct (MaybeGC_frame _ _ Hgc) as (Hl2 & Hn2 & Hs2 & Hh2 & Hm2).
  destruct (MaybeGC_bound c1 c2) as [Hb2 _]; try done; try (simpl; lia).
  { unfold is_u64. lia. }
  pose proof (count_ok_MaybeGC c1 c2 ltac:(unfold is_u64; lia) Hcount1 Hgc)
    as Hcount2.
  pose proof (stamped_MaybeGC (next_seq c + 1) c1 c2) as Hst.
  destruct Hst as [Hseqs2 _]; [|done|].
  { split; [split; [done|exact Hlt1]|rewrite Hn1; lia]. }
  rewrite Hl2, Hs2 in Hb2. simpl in Hb2.
  assert (in_range c2) as Hr2.
  { unfold in_range, is_u64. rewrite Hl2, Hs2, Hn2, Hh2, Hm2, Hn1. simpl.
    unfold count_ok in Hcount2. lia. }
  unfold cache_fit. rewrite Hl2, Hs2, Hn2, Hn1. simpl. by split_and!.
Qed.

Lemma CachingStep_fit b fs c :
  g_cache fs = Some c → cache_fit c → next_seq c + 1 < 2 ^ 64 →
  ∃ fs' c', CachingStep b fs = Some fs' ∧ g_cache fs' = Some c'
            ∧ cache_fit c' ∧ limit c' = limit c ∧ slop c' = slop c
            ∧ next_seq c' = next_seq c + 1.
Proof.
  intros Hc Hfit Hnext. unfold CachingStep. rewrite Hc.
  destruct (table c !! (b, SaveUncompressed [] fs)) as [[sq r]|] eqn:Hk.
  - destruct (cache_fit_hit _ _ _ _ _ Hfit Hnext Hk) as (Hfit' & ? & ? & ?).
    destruct (GetKnown_hit_stamp _ _ _ _ _ Hk) as (Hres & _).
    destruct (GetKnown b (SaveUncompressed [] fs) c) as [res c1]. simpl in *.
    subst res. eexists _, c1. split; [done|].
    by rewrite g_cache_LoadUncompressed.
  - destruct (GetKnown_miss _ _ _ Hk) as (Hres & Htb & Hn & Hcnt & Hl & Hs & Hh & Hm).
    destruct (GetKnown b (SaveUncompressed [] fs) c) as [res c1]. simpl in *.
    subst res.
    assert (cache_fit c1) as Hfit1.
    { destruct Hfit as ((? & ? & ? & ? & ? & ?) & Hcount & [? ?] & ? & ? & ?).
      unfold cache_fit, in_range, count_ok, seqs_ok in *.
      rewrite Htb, Hn, Hcnt, Hl, Hs, Hh, Hm. split_and!; try done.
      apply u64_range. }
    edestruct (cache_fit_Remember b (SaveUncompressed [] fs)) as
      (c2 & Hrem & Hfit2 & ? & ? & ?); [exact Hfit1|lia|by rewrite Htb|].
    rewrite Hrem. eexists _, c2. split; [done|]. simpl.
    split_and!; try done; congruence.
Qed.

(** X10: from a cache in its working range (the invariants hold, the limit
    is positive, [limit + slop + 1] fits 64 bits), a run of [CachingStep]s
    that does not exhaust the 64-bit sequence counter never reads out of
    range, with or without a core; the cache stays in range, so that
    [count <= limit + slop] after every step. *)
Theorem CachingSteps_complete inputs fs c :
  g_cache fs = Some c → cache_fit c →
  next_seq c + Z.of_nat (length inputs) < 2 ^ 64 →
  ∃ fs' c', CachingSteps inputs fs = Some fs' ∧ g_cache fs' = Some c'
            ∧ cache_fit c' ∧ limit c' = limit c ∧ slop c' = slop c.
Proof.
  revert fs c. induction inputs as [|b inputs IH]; intros fs c Hc Hfit Hnext.
  - by exists fs, c.
  - simpl length in Hnext. rewrite Nat2Z.inj_succ in Hnext.
    destruct (CachingStep_fit b fs c Hc Hfit) as
      (fs1 & c1 & Hstep & Hc1 & Hfit1 & Hl1 & Hs1 & Hn1); [lia|].
    destruct (IH fs1 c1 Hc1 Hfit1) as (fs' & c' & Hsteps & Hc' & Hfit' & Hl & Hs);
      [lia|].
    exists fs', c'. simpl. rewrite Hstep. split_and!; try done; congruence.
Qed.
End caching_extras.

Lemma Remember_then_GetKnown_witness :
  let c := {| StateCache.table := {[ (3, [1]) := (0, [2]) ]};
              StateCache.limit := 1; StateCache.count := 1;
              StateCache.next_seq := 1; StateCache.slop := 0;
              StateCache.hits := 0; StateCache.misses := 0 |} in
  let c' := {| StateCache.table := {[ (4, [1]) := (1, [5]) ]};
               StateCache.limit := 1; StateCache.count := 1;
               StateCache.next_seq := 2; StateCache.slop := 0;
               StateCache.hits := 0; StateCache.misses := 0 |} in
  StateCache.seqs_ok c
  ∧ StateCache.table c !! (4, [1]) = None
  ∧ StateCache.Remember 4 [1] [5] c = Some c'
  ∧ (StateCache.GetKnown 4 [1] c').1 = Some [5].
Proof.
  intros c c'.
  assert (StateCache.seqs_of (StateCache.table c) = [0]) as Hseqs
    by (vm_compute; reflexivity).
  assert (StateCache.seqs_ok c) as Hok.
  { unfold StateCache.seqs_ok. rewrite Hseqs. split; [apply NoDup_singleton|].
    apply Forall_singleton. simpl. lia. }
  assert (StateCache.table c !! (4, [1]) = None) as Hnew
    by (vm_compute; reflexivity).
  assert (StateCache.Remember 4 [1] [5] c = Some c') as Hrem
    by (vm_compute; reflexivity).
  exact (conj Hok (conj Hnew (conj Hrem
           (Remember_then_GetKnown 4 [1] [5] c c' Hok Hnew Hrem)))).
Defined.

Lemma GetKnown_hit_survives_eviction_witness :
  let c := {| StateCache.table :=
                <[ (2, []) := (1, [7]) ]> {[ (1, []) := (0, [6]) ]};
              StateCache.limit := 2; StateCache.count := 2;
              StateCache.next_seq := 2; StateCache.slop := 0;
              StateCache.hits := 0; StateCache.misses := 2 |} in
  ∃ c2,
    StateCache.Remember 3 [] [8] (StateCache.GetKnown 1 [] c).2 = Some c2
    ∧ StateCache.count c2 = 2
    ∧ StateCache.table c2 !! (2, []) = None
    ∧ is_Some (StateCache.table c2 !! (1, [])).
Proof.
  intros c.
  assert (StateCache.seqs_of (StateCache.table c) ≡ₚ [0; 1]) as Hseqs.
  { assert (StateCache.seqs_of (StateCache.table c) = [0; 1]
            ∨ StateCache.seqs_of (StateCache.table c) = [1; 0]) as [-> | ->].
    { vm_compute. tauto. }
    - done.
    - apply perm_swap. }
  assert (StateCache.seqs_ok c) as Hok.
  { unfold StateCache.seqs_ok. rewrite Hseqs. split.
    - apply NoDup_cons. split; [|apply NoDup_singleton].
      rewrite list_elem_of_singleton. lia.
    - apply Forall_cons. split; [simpl; lia|]. apply Forall_singleton. simpl. lia. }
  assert (StateCache.in_range c) as Hrange
    by (unfold StateCache.in_range, is_u64; simpl; lia).
  assert (StateCache.count_ok c) as Hcount by (vm_compute; reflexivity).
  eexists. split; [vm_compute; reflexivity|].
  split; [reflexivity|]. split; [vm_compute; reflexivity|].
  assert (is_Some (StateCache.table c !! (1, []))) as Hhit
    by (vm_compute; eauto).
  assert (StateCache.table c !! (3, []) = None) as Hnew
    by (vm_compute; reflexivity).
  apply (GetKnown_hit_survives_eviction 1 [] 3 [] [8] c);
    try done; try (simpl; lia).
Defined.

Lemma CachingSteps_counts_every_step_witness :
  let fs := EmulatorLibretro.ResetCache 1000 100 Toy.booted in
  let c := StateCache.Resize 1000 100 StateCache.fresh in
  EmulatorLibretro.g_cache fs = Some c
  ∧ ∃ fs' c',
      EmulatorLibretro.CachingSteps [1; 2; 1] fs = Some fs'
      ∧ EmulatorLibretro.g_cache fs' = Some c'
      ∧ u64 (StateCache.hits c' + StateCache.misses c')
        = u64 (StateCache.hits c + StateCache.misses c + 3).
Proof.
  intros fs c. split; [reflexivity|].
  destruct (EmulatorLibretro.CachingSteps [1; 2; 1] fs) as [fs'|] eqn:Hrun;
    [|vm_compute in Hrun; discriminate Hrun].
  destruct (CachingSteps_counts_every_step [1; 2; 1] fs c fs' eq_refl Hrun)
    as (c' & Hc' & Hsum).
  exists fs', c'. split; [reflexivity|]. split; [exact Hc'|exact Hsum].
Defined.

Lemma CachingSteps_complete_witness :
  let fs := EmulatorLibretro.ResetCache 1 0 Toy.failed in
  let c := StateCache.Resize 1 0 StateCache.fresh in
  EmulatorLibretro.g_cache fs = Some c ∧ cache_fit c
  ∧ ∃ fs' c',
      EmulatorLibretro.CachingSteps [1; 2; 1; 3] fs = Some fs'
      ∧ EmulatorLibretro.g_cache fs' = Some c'
      ∧ cache_fit c' ∧ StateCache.limit c' = 1 ∧ StateCache.slop c' = 0.
Proof.
  intros fs c.
  assert (cache_fit c) as Hfit.
  { unfold cache_fit, StateCache.in_range, StateCache.seqs_ok, is_u64.
    split_and!; try (simpl; lia); try done;
      try apply NoDup_nil_2; try apply Forall_nil_2. }
  assert (StateCache.next_seq c + Z.of_nat (length [1; 2; 1; 3]) < 2 ^ 64)
    as Hnext by (simpl; lia).
  exact (conj eq_refl (conj Hfit
           (CachingSteps_complete [1; 2; 1; 3] fs c eq_refl Hfit Hnext))).
Defined.

(** ** The frame loop of [Greedy] *)

Section exploration.
Import EmulatorLibretro PlayFun Client.
Context {Core : Type} `{!Libretro Core} `{!LawfulCore Core}.
Context {D : Type} `{!Double D}.
Context {Rng : Type}.
Context (Evaluate EvaluateMagnitude : list Z → list Z → D).
Context (RandomWeightedMotif : Rng → list Z * Rng).
Context (use_magnitude_scoring : bool).

#[local] Existing Instance PlayFun.M_ret.
#[local] Existing Instance PlayFun.M_bind.

Implicit Types (e : PlayFun.Env (Core := Core) (Rng := Rng)).

Lemma keeps_ret {A} (a : A) : keeps (Core := Core) (Rng := Rng) (mret a).
Proof. intros e a' e' [= _ <-]. done. Qed.

Lemma keeps_bind {A B} (m : PlayFun.M (Core := Core) (Rng := Rng) A)
    (k : A → PlayFun.M B) :
  keeps m → (∀ a, keeps (k a)) → keeps (m ≫= k).
Proof.
  intros Hm Hk e b e' Hrun Halive.
  unfold mbind, M_bind, bind in Hrun.
  destruct (m e) as [[a e1]|] eqn:Hme; [|done].
  eapply Hk; [done|]. by eapply Hm.
Qed.

Lemma keeps_of_emu {A} (f : EmulatorLibretro.t Core → A) :
  keeps (Rng := Rng) (of_emu f).
Proof. intros e a e' [= _ <-]. done. Qed.

Lemma keeps_LoadUncompressed s :
  keeps (Rng := Rng) (on_emu (LoadUncompressed s)).
Proof.
  intros e a e' [= _ <-] (x & c & Hrun & Hsound). simpl.
  eexists _, c. split; [|done]. by apply LoadUncompressed_running.
Qed.

Lemma keeps_caching_step b : keeps (Rng := Rng) (caching_step b).
Proof.
  intros e a e' Hstep (x & c & Hrun & Hsound). unfold caching_step in Hstep.
  destruct (CachingStep b (emu e)) as [fs|] eqn:Hcs; [|done].
  injection Hstep as _ <-. simpl.
  destruct (CachingStep_sound _ _ _ _ _ Hrun Hsound Hcs) as (x' & c' & ? & ? & _).
  by exists x', c'.
Qed.

Lemma keeps_random_motif : keeps (Core := Core) (random_motif RandomWeightedMotif).
Proof.
  intros e a e' Hm. unfold random_motif in Hm.
  destruct (RandomWeightedMotif (rng e)). by injection Hm as _ <-.
Qed.

Lemma keeps_ScoreChange mem1 mem2 :
  keeps (Core := Core) (Rng := Rng)
    (PlayFun.ScoreChange Evaluate EvaluateMagnitude use_magnitude_scoring mem1 mem2).
Proof. intros e a e' [= _ <-]. done. Qed.

Lemma keeps_play_bytes m : keeps (Rng := Rng) (play_bytes m).
Proof.
  induction m as [|b m IH]; simpl; [apply keeps_ret|].
  apply keeps_bind; [apply keeps_caching_step|by intros _].
Qed.

Lemma keeps_seek_depth n : keeps (seek_depth RandomWeightedMotif n).
Proof.
  induction n as [|n IH]; simpl; [apply keeps_ret|].
  apply keeps_bind; [apply keeps_random_motif|intros m].
  apply keeps_bind; [apply keeps_play_bytes|by intros _].
Qed.

Lemma keeps_avoid_bytes base i d x m total :
  keeps (avoid_bytes (Rng := Rng) Evaluate EvaluateMagnitude
           use_magnitude_scoring base i d x m total).
Proof.
  revert x total. induction m as [|b m IH]; intros x total; simpl;
    [apply keeps_ret|].
  apply keeps_bind; [apply keeps_caching_step|intros _].
  apply keeps_bind; [apply keeps_of_emu|intros fm].
  apply keeps_bind; [apply keeps_ScoreChange|intros s]. apply IH.
Qed.

Lemma keeps_avoid_depth base i d n total :
  keeps (avoid_depth Evaluate EvaluateMagnitude RandomWeightedMotif
           use_magnitude_scoring base i d n total).
Proof.
  revert d total. induction n as [|n IH]; intros d total; simpl;
    [apply keeps_ret|].
  apply keeps_bind; [apply keeps_random_motif|intros m].
  apply keeps_bind; [apply keeps_avoid_bytes|intros t]. apply IH.
Qed.

Lemma keeps_AvoidBadFutures depths base :
  keeps (PlayFun.AvoidBadFutures Evaluate EvaluateMagnitude RandomWeightedMotif
           use_magnitude_scoring depths base).
Proof.
  unfold PlayFun.AvoidBadFutures.
  apply keeps_bind; [apply keeps_of_emu|intros st].
  apply keeps_bind; [apply keeps_avoid_depth|intros t].
  apply keeps_bind; [apply keeps_LoadUncompressed|intros _].
  apply keeps_avoid_depth.
Qed.

Lemma keeps_seek_trial base i depth total :
  keeps (seek_trial Evaluate EvaluateMagnitude RandomWeightedMotif
           use_magnitude_scoring base i depth total).
Proof.
  unfold seek_trial.
  apply keeps_bind; [apply keeps_seek_depth|intros _].
  apply keeps_bind; [apply keeps_of_emu|intros fm].
  apply keeps_bind; [apply keeps_ScoreChange|intros s]. apply keeps_ret.
Qed.

Lemma keeps_SeekGoodFutures depths base :
  keeps (PlayFun.SeekGoodFutures Evaluate EvaluateMagnitude RandomWeightedMotif
           use_magnitude_scoring depths base).
Proof.
  unfold PlayFun.SeekGoodFutures.
  apply keeps_bind; [apply keeps_of_emu|intros st].
  apply keeps_bind; [apply keeps_seek_trial|intros t].
  apply keeps_bind; [apply keeps_LoadUncompressed|intros _].
  apply keeps_bind; [apply keeps_seek_trial|intros t'].
  apply keeps_bind; [apply keeps_LoadUncompressed|intros _].
  apply keeps_seek_trial.
Qed.

(** The evaluation of a candidate leaves the emulator initialized and its
    cache sound. *)
Lemma keeps_TryMotif avoid seek current_state current_memory trial motif :
  keeps (PlayFun.TryMotif Evaluate EvaluateMagnitude RandomWeightedMotif
           use_magnitude_scoring avoid seek current_state current_memory
           trial motif).
Proof.
  unfold PlayFun.TryMotif.
  apply keeps_bind.
  { destruct (nonzero trial); [apply keeps_LoadUncompressed|apply keeps_ret]. }
  intros _.
  apply keeps_bind; [apply keeps_play_bytes|intros _].
  apply keeps_bind; [apply keeps_of_emu|intros nm].
  apply keeps_bind; [apply keeps_of_emu|intros ns].
  apply keeps_bind; [apply keeps_ScoreChange|intros imm].
  apply keeps_bind; [apply keeps_AvoidBadFutures|intros av].
  apply keeps_bind; [apply keeps_LoadUncompressed|intros _].
  apply keeps_bind; [apply keeps_SeekGoodFutures|intros sk]. apply keeps_ret.
Qed.
End exploration.

Section greedy_facts.
Import EmulatorLibretro PlayFun Client Greedy.
Context {Core : Type} `{!Libretro Core} `{!Zlib} `{!LawfulCore Core}.
Context {Rng : Type}.
Context (Evaluate EvaluateMagnitude : list Z → list Z → PrimFloat.float).
Context (RandomWeightedMotif : Rng → list Z * Rng).
Context (use_magnitude_scoring : bool).
Context (Byte : Rng → Z * Rng).
Context (Shuffle : list nat → Rng → list nat * Rng).
Context (sort_scored : list (PrimFloat.float * nat) → list (PrimFloat.float * nat)).
Context (motifvec : list (list Z)).

Abbreviation state := (Greedy.t (Core := Core) (Rng := Rng)).
Abbreviation frame :=
  (Greedy.frame Evaluate EvaluateMagnitude RandomWeightedMotif
     use_magnitude_scoring Byte Shuffle sort_scored motifvec).
Abbreviation frames :=
  (Greedy.frames Evaluate EvaluateMagnitude RandomWeightedMotif
     use_magnitude_scoring Byte Shuffle sort_scored motifvec).
Abbreviation trials :=
  (Greedy.trials Evaluate EvaluateMagnitude RandomWeightedMotif
     use_magnitude_scoring motifvec).

Implicit Types (p : state) (fs : EmulatorLibretro.t Core) (x : Core).

Lemma SaveUncompressed_serializes out fs x c :
  serializes (Core := Core) → running fs x c →
  SaveUncompressed out fs = state_bytes x.
Proof.
  intros Hser [(w & Hw & Hrom & <-) _]. unfold SaveUncompressed. rewrite Hw.
  unfold Wrapper.SaveState, Wrapper.GetStateSize, state_bytes. rewrite Hrom.
  rewrite length_resize. rewrite decide_False by lia.
  destruct (Hser (Wrapper.core w)) as [written Hwr]. by rewrite Hwr.
Qed.

Lemma SelectMotifsToTry_env p l p' :
  SelectMotifsToTry Byte Shuffle sort_scored motifvec p = Some (l, p') →
  ∃ g, p' = with_rng g p.
Proof.
  unfold SelectMotifsToTry. case_decide.
  - destruct (Shuffle _ _) as [sh g]. intros [= _ <-]. by exists g.
  - destruct (mapM _ _) as [scored|]; [|done]. simpl.
    destruct (select_rest _ _ _ _) as [sel g].
    destruct (Shuffle _ _) as [sh g']. intros [= _ <-]. by exists g'.
Qed.

Lemma UpdateMotifScore_env i s p p' :
  UpdateMotifScore motifvec i s p = Some p' →
  env p' = env p ∧ movie p' = movie p ∧ current_state p' = current_state p
  ∧ avoid_depths p' = avoid_depths p ∧ seek_depths p' = seek_depths p
  ∧ recent_futures p' = recent_futures p ∧ memories p' = memories p.
Proof.
  unfold UpdateMotifScore.
  destruct (_ !! i) as [old|]; [|done]. by intros [= <-].
Qed.

Lemma trials_alive current_memory trial l p b p' b' :
  trials current_memory trial l p b = Some (p', b') →
  alive (env p) →
  alive (env p') ∧ movie p' = movie p ∧ current_state p' = current_state p.
Proof.
  revert trial p b. induction l as [|i l IH]; intros trial p b; simpl.
  - by intros [= <- <-].
  - destruct (motifvec !! i) as [motif|]; [|done]. simpl.
    destruct (PlayFun.TryMotif _ _ _ _ _ _ _ _ _ _ _) as [[[[sc im] fu] e]|]
      eqn:Htry; [|done]. simpl.
    destruct (UpdateMotifScore _ _ _ _) as [p1|] eqn:Hup; [|done]. simpl.
    intros Hrest Halive.
    apply UpdateMotifScore_env in Hup as (Henv & Hmovie & Hstate & _).
    simpl in *.
    destruct (IH _ _ _ Hrest) as (Ha & Hm & Hs).
    { rewrite Henv. simpl. by eapply keeps_TryMotif. }
    split; [done|]. by rewrite Hm, Hs, Hmovie, Hstate.
Qed.

Lemma commit_plays m p p' x c :
  commit m p = Some p' →
  running (emu (env p)) x c → cache_sound (Core := Core) c →
  ∃ x' c', running (emu (env p')) x' c' ∧ cache_sound (Core := Core) c'
           ∧ state_bytes x' = state_bytes (final x m)
           ∧ movie p' = movie p ++ m.
Proof.
  revert p x c. induction m as [|b m IH]; intros p x c; simpl.
  - intros [= <-] Hrun Hsound. exists x, c. by rewrite app_nil_r.
  - destruct (CachingStep b (emu (env p))) as [fs|] eqn:Hstep; [|done]. simpl.
    intros Hrest Hrun Hsound.
    destruct (CachingStep_sound _ _ _ _ _ Hrun Hsound Hstep)
      as (x1 & c1 & Hrun1 & Hsound1 & Hx1).
    destruct (IH _ x1 c1 Hrest Hrun1 Hsound1) as (x' & c' & ? & ? & Hx' & Hm).
    exists x', c'. split_and!; try done.
    + rewrite Hx'. by apply final_bytes.
    + rewrite Hm. simpl. by rewrite <- app_assoc.
Qed.

Lemma frame_plays p p' x c :
  serializes (Core := Core) →
  running (emu (env p)) x c → cache_sound (Core := Core) c →
  frame p = Some p' →
  ∃ m x' c', m ∈ motifvec ∧ movie p' = movie p ++ m
             ∧ running (emu (env p')) x' c' ∧ cache_sound (Core := Core) c'
             ∧ state_bytes x' = state_bytes (final x m).
Proof.
  intros Hser Hrun Hsound. unfold Greedy.frame.
  rewrite (SaveUncompressed_serializes _ _ x c Hser Hrun).
  destruct (SelectMotifsToTry _ _ _ _ _) as [[l p1]|] eqn:Hsel; [|done]. simpl.
  apply SelectMotifsToTry_env in Hsel as [g ->].
  destruct (Greedy.trials _ _ _ _ _ _ _ _ _ _) as [[p2 b]|] eqn:Htr; [|done].
  simpl.
  apply trials_alive in Htr as ((x2 & c2 & Hrun2 & Hsound2) & Hmovie & Hstate);
    [|by exists x, c].
  simpl in Hmovie, Hstate.
  destruct (motifvec !! best_motif_idx b) as [m|] eqn:Hm; [|done]. simpl.
  intros Hcommit.
  destruct (LoadUncompressed_restores _ _ _ x Hrun2) as (x3 & Hrun3 & Hx3).
  eapply commit_plays in Hcommit as (x' & c' & ? & ? & Hx' & Hmv);
    [|simpl; rewrite Hstate; exact Hrun3|done].
  exists m, x', c'. split_and!; try done.
  - by eapply list_elem_of_lookup_2.
  - by rewrite Hmv, <- Hmovie.
  - rewrite Hx'. by apply final_bytes.
Qed.

Lemma final_app x (a b : list Z) : final x (a ++ b) = final (final x a) b.
Proof. unfold final. by rewrite foldl_app. Qed.

Lemma frames_play n p p' x c :
  serializes (Core := Core) →
  running (emu (env p)) x c → cache_sound (Core := Core) c →
  frames n p = Some p' →
  ∃ chosen x' c',
    Forall (λ m, m ∈ motifvec) chosen ∧ length chosen = n
    ∧ movie p' = movie p ++ concat chosen
    ∧ running (emu (env p')) x' c' ∧ cache_sound (Core := Core) c'
    ∧ state_bytes x' = state_bytes (final x (concat chosen)).
Proof.
  intros Hser. revert p x c. induction n as [|n IH]; intros p x c Hrun Hsound; simpl.
  - intros [= <-]. exists [], x, c. simpl. by rewrite app_nil_r.
  - destruct (Greedy.frame _ _ _ _ _ _ _ _ p) as [p1|] eqn:Hframe; [|done]. simpl.
    intros Hrest.
    destruct (frame_plays _ _ _ _ Hser Hrun Hsound Hframe)
      as (m & x1 & c1 & Hm & Hmv1 & Hrun1 & Hsound1 & Hx1).
    destruct (IH _ _ _ Hrun1 Hsound1 Hrest)
      as (chosen & x' & c' & Hch & Hlen & Hmv & Hrun' & Hsound' & Hx').
    exists (m :: chosen), x', c'. split_and!; try done.
    + by apply Forall_cons.
    + simpl. by rewrite Hlen.
    + rewrite Hmv, Hmv1. simpl. by rewrite <- app_assoc.
    + rewrite Hx'. simpl. rewrite final_app. by apply final_bytes.
Qed.

(** X11: the frames of [Greedy] that complete append one motif of the bank
    each to the movie, and leave the emulator where playing those motifs
    with [Step] from the state at the start leads: the same serialized
    state and the same RAM.  The look-aheads leave no trace in the
    emulator state. *)
Theorem frames_play_chosen_motifs n p p' x c :
  serializes (Core := Core) →
  reachable (emu (env p)) → running (emu (env p)) x c →
  frames n p = Some p' →
  ∃ chosen,
    Forall (λ m, m ∈ motifvec) chosen ∧ length chosen = n
    ∧ movie p' = movie p ++ concat chosen
    ∧ SaveUncompressed [] (emu (env p'))
      = SaveUncompressed [] (Steps (concat chosen) (emu (env p)))
    ∧ GetMemory (emu (env p')) = GetMemory (Steps (concat chosen) (emu (env p))).
Proof.
  intros Hser Hreach Hrun Hframes.
  assert (cache_sound (Core := Core) c) as Hsound.
  { destruct (reachable_settled _ Hreach) as [Hc _]. apply Hc. by destruct Hrun. }
  destruct (frames_play _ _ _ _ _ Hser Hrun Hsound Hframes)
    as (chosen & x' & c' & Hch & Hlen & Hmv & Hrun' & _ & Hx').
  exists chosen. split_and!; try done.
  - rewrite (SaveUncompressed_running _ _ _ Hrun').
    by rewrite (SaveUncompressed_running _ _ _ (Steps_running _ _ _ _ Hrun)).
  - rewrite (GetMemory_running _ _ _ Hrun').
    rewrite (GetMemory_running _ _ _ (Steps_running _ _ _ _ Hrun)).
    by apply memory_saved.
Qed.

Lemma Steps_app (a b : list Z) fs : Steps (a ++ b) fs = Steps b (Steps a fs).
Proof. unfold Steps. by rewrite foldl_app. Qed.

(** X12: after the constructor and any number of completed frames, playing
    the recorded movie with [Step] from the initialized emulator, after
    [ResetCache(100000, 10000)], reproduces the serialized state and the
    RAM the emulator is in. *)
Theorem Greedy_movie_replays solution fs g n p' x c :
  serializes (Core := Core) → running fs x c →
  frames n (constructed solution fs g) = Some p' →
  let replayed := Steps (movie p') (ResetCache 100000 10000 fs) in
  SaveUncompressed [] (emu (env p')) = SaveUncompressed [] replayed
  ∧ GetMemory (emu (env p')) = GetMemory replayed.
Proof.
  intros Hser Hrun Hframes replayed. unfold replayed. clear replayed.
  unfold constructed, Construct in Hframes.
  rewrite fast_forward_spec in Hframes. simpl in Hframes.
  set (stepped := leading_zeros solution ++ _) in *.
  assert (running (ResetCache 100000 10000 fs) x
            (StateCache.Resize 100000 10000 c)) as Hrun0.
  { unfold ResetCache. rewrite (proj2 Hrun). by eapply with_cache_running. }
  pose proof (Steps_running stepped _ _ _ Hrun0) as Hrun1.
  eapply frames_play in Hframes
    as (chosen & x' & c' & _ & _ & Hmv & Hrun' & _ & Hx');
    [|exact Hser|exact Hrun1|by apply cache_sound_empty].
  simpl in Hmv. rewrite Hmv, Steps_app.
  pose proof (Steps_running (concat chosen) _ _ _ Hrun1) as Hrun2.
  rewrite (SaveUncompressed_running _ _ _ Hrun'), (GetMemory_running _ _ _ Hrun').
  rewrite (SaveUncompressed_running _ _ _ Hrun2), (GetMemory_running _ _ _ Hrun2).
  split; [done|]. by apply memory_saved.
Qed.

(** *** Bookkeeping *)

Lemma last_window {A} (n : nat) (h : list A) (s : A) :
  drop (length (drop (length h - n) h ++ [s]) - n) (drop (length h - n) h ++ [s])
  = drop (length (h ++ [s]) - n) (h ++ [s]).
Proof.
  rewrite !length_app, length_drop. simpl.
  destruct (decide (length h ≤ n)%nat) as [Hle|Hgt].
  - replace (length h - n)%nat with 0%nat by lia. simpl.
    by replace (length h - 0 + 1 - n)%nat with (length h + 1 - n)%nat by lia.
  - replace (length h - (length h - n) + 1 - n)%nat with 1%nat by lia.
    replace (length h + 1 - n)%nat with (S (length h - n)) by lia.
    rewrite <- (drop_app_le h [s] (length h - n)) by lia.
    rewrite drop_drop. f_equal. lia.
Qed.

(** X13: the history of future scores is a window: after recording the
    scores [l] one by one, starting with no history, it holds the last
    [HISTORY_SIZE] of them, oldest first. *)
Theorem RecordFutureScore_window (l : list PrimFloat.float) :
  foldl (λ h s, RecordFutureScore s h) [] l
  = drop (length l - HISTORY_SIZE) l.
Proof.
  induction l as [|s l IH] using rev_ind; [done|].
  rewrite foldl_app. simpl. rewrite IH. unfold RecordFutureScore.
  apply last_window.
Qed.

Lemma trials_fields current_memory trial l p b p' b' :
  trials current_memory trial l p b = Some (p', b') →
  avoid_depths p' = avoid_depths p ∧ seek_depths p' = seek_depths p
  ∧ recent_futures p' = recent_futures p ∧ memories p' = memories p.
Proof.
  revert trial p b. induction l as [|i l IH]; intros trial p b; simpl.
  - by intros [= <- <-].
  - destruct (motifvec !! i) as [motif|]; [|done]. simpl.
    destruct (PlayFun.TryMotif _ _ _ _ _ _ _ _ _ _ _) as [[[[sc im] fu] e]|];
      [|done]. simpl.
    destruct (UpdateMotifScore _ _ _ _) as [p1|] eqn:Hup; [|done]. simpl.
    intros Hrest.
    apply UpdateMotifScore_env in Hup as (_ & _ & _ & Ha & Hs & Hr & Hm).
    destruct (IH _ _ _ Hrest) as (Ha' & Hs' & Hr' & Hm').
    by rewrite Ha', Hs', Hr', Hm', Ha, Hs, Hr, Hm.
Qed.

Lemma commit_fields m p p' :
  commit m p = Some p' →
  avoid_depths p' = avoid_depths p ∧ seek_depths p' = seek_depths p
  ∧ recent_futures p' = recent_futures p ∧ memories p' = memories p.
Proof.
  revert p. induction m as [|b m IH]; intros p; simpl.
  - by intros [= <-].
  - destruct (CachingStep b _) as [fs|]; [|done]. simpl.
    intros Hrest. by destruct (IH _ Hrest) as (-> & -> & -> & ->).
Qed.

Lemma frame_fields p p' :
  frame p = Some p' →
  ∃ best_future,
    recent_futures p' = RecordFutureScore best_future (recent_futures p)
    ∧ (avoid_depths p', seek_depths p')
      = AdaptFutureDepths (recent_futures p') (avoid_depths p, seek_depths p)
    ∧ memories p' = memories p ++ [GetMemory (emu (env p))].
Proof.
  unfold Greedy.frame.
  destruct (SelectMotifsToTry _ _ _ _ _) as [[l p1]|] eqn:Hsel; [|done]. simpl.
  apply SelectMotifsToTry_env in Hsel as [g ->].
  destruct (Greedy.trials _ _ _ _ _ _ _ _ _ _) as [[p2 b]|] eqn:Htr; [|done].
  simpl.
  apply trials_fields in Htr as (Ha & Hs & Hr & Hm). simpl in *.
  destruct (motifvec !! best_motif_idx b) as [m|]; [|done]. simpl.
  intros (Ha' & Hs' & Hr' & Hm')%commit_fields. simpl in *.
  exists (best_future b). rewrite Ha', Hs', Hr', Hm', Ha, Hs, Hr, Hm.
  split_and!; try done. symmetry. apply surjective_pairing.
Qed.

Lemma length_RecordFutureScore s (h : list PrimFloat.float) :
  (length h ≤ HISTORY_SIZE)%nat →
  length (RecordFutureScore s h) = Nat.min (length h + 1) HISTORY_SIZE.
Proof.
  intros Hh. unfold RecordFutureScore.
  rewrite length_drop, length_app. simpl. lia.
Qed.

(** X14: what the frames keep track of.  After [n] completed frames the
    history holds one future score per frame, up to [HISTORY_SIZE];
    [memories] has grown by one snapshot per frame; and the look-ahead
    depths are still the ones the frames started with as long as fewer
    than [HISTORY_SIZE / 2] scores are on record, and otherwise are those
    or one of the three presets of [AdaptFutureDepths]. *)
Theorem frames_bookkeeping n p p' :
  (length (recent_futures p) ≤ HISTORY_SIZE)%nat →
  frames n p = Some p' →
  length (recent_futures p')
  = Nat.min (length (recent_futures p) + n) HISTORY_SIZE
  ∧ length (memories p') = (length (memories p) + n)%nat
  ∧ ((length (recent_futures p) + n < HISTORY_SIZE / 2)%nat →
     (avoid_depths p', seek_depths p') = (avoid_depths p, seek_depths p))
  ∧ (avoid_depths p', seek_depths p')
    ∈ [(avoid_depths p, seek_depths p); ((10, 30), (15, 15, 25));
       ((40, 150), (50, 50, 100)); ((20, 75), (30, 30, 50))].
Proof.
  revert p. induction n as [|n IH]; intros p Hh; simpl.
  - intros [= <-]. rewrite !Nat.add_0_r. split_and!; try done; [lia|].
    apply list_elem_of_here.
  - destruct (Greedy.frame _ _ _ _ _ _ _ _ p) as [p1|] eqn:Hframe; [|done]. simpl.
    intros Hrest.
    destruct (frame_fields _ _ Hframe) as (bf & Hr1 & Hd1 & Hm1).
    pose proof (length_RecordFutureScore bf _ Hh) as Hlen1. rewrite <- Hr1 in Hlen1.
    destruct (IH p1) as (Hr & Hm & Hearly & Hin); [lia|done|].
    split_and!.
    + rewrite Hr, Hlen1. unfold HISTORY_SIZE in *. lia.
    + rewrite Hm, Hm1, length_app. simpl. lia.
    + intros Hfew. rewrite Hearly by (unfold HISTORY_SIZE in *; simpl in *; lia).
      rewrite Hd1. unfold AdaptFutureDepths.
      rewrite decide_True; [done|]. unfold HISTORY_SIZE in *. simpl in *. lia.
    + assert ((avoid_depths p1, seek_depths p1)
              ∈ [(avoid_depths p, seek_depths p); ((10, 30), (15, 15, 25));
                 ((40, 150), (50, 50, 100)); ((20, 75), (30, 30, 50))]) as Hin1.
      { rewrite Hd1. unfold AdaptFutureDepths.
        case_decide; [apply list_elem_of_here|].
        rewrite !elem_of_cons.
        destruct (PrimFloat.ltb _ _); [tauto|].
        destruct (PrimFloat.ltb _ _); tauto. }
      rewrite !elem_of_cons in Hin. rewrite !elem_of_cons.
      destruct Hin as [->|Hin]; [by rewrite <- !elem_of_cons|].
      right. rewrite !elem_of_cons in Hin1. tauto.
Qed.
(** *** The candidates of a frame *)



End greedy_facts.

Lemma Toy_serializes : serializes (Core := Z).
Proof. intros c. by eexists. Qed.

Lemma ToyPlay_p0_running :
  Client.running (PlayFun.emu (Greedy.env ToyPlay.p0)) 8
    (StateCache.Resize 100000 10000 StateCache.fresh).
Proof. split; [|done]. eexists. split; [done|]. done. Qed.

Lemma frames_play_chosen_motifs_witness :
  let fs0 := PlayFun.emu (Greedy.env ToyPlay.p0) in
  serializes (Core := Z)
  ∧ Client.reachable fs0
  ∧ Client.running fs0 8 (StateCache.Resize 100000 10000 StateCache.fresh)
  ∧ ∃ p',
      ToyPlay.run 2 = Some p'
      ∧ Greedy.movie p' = [0; 0; 5; 2; 0; 2; 0]
      ∧ EmulatorLibretro.GetMemory (PlayFun.emu (Greedy.env p')) = [16]
      ∧ ∃ chosen,
          Forall (λ m, m ∈ ToyPlay.motifs) chosen ∧ length chosen = 2%nat
          ∧ Greedy.movie p' = Greedy.movie ToyPlay.p0 ++ concat chosen
          ∧ EmulatorLibretro.SaveUncompressed [] (PlayFun.emu (Greedy.env p'))
            = EmulatorLibretro.SaveUncompressed []
                (EmulatorLibretro.Steps (concat chosen) fs0)
          ∧ EmulatorLibretro.GetMemory (PlayFun.emu (Greedy.env p'))
            = EmulatorLibretro.GetMemory
                (EmulatorLibretro.Steps (concat chosen) fs0).
Proof.
  intros fs0.
  assert (Client.reachable fs0) as Hreach.
  { exists [Client.CInitialize (EmulatorLibretro.Loaded 0);
            Client.CResetCache 100000 10000;
            Client.CStep 0; Client.CStep 0; Client.CStep 5].
    vm_compute. reflexivity. }
  assert ((λ p, (Greedy.movie p,
                 EmulatorLibretro.GetMemory (PlayFun.emu (Greedy.env p))))
            <$> ToyPlay.run 2
          = Some ([0; 0; 5; 2; 0; 2; 0], [16])) as Hend
    by (vm_compute; reflexivity).
  destruct (ToyPlay.run 2) as [p'|] eqn:Hrun; [|discriminate Hend].
  injection Hend as Hmovie Hmem.
  exact (conj Toy_serializes (conj Hreach (conj ToyPlay_p0_running
    (ex_intro _ p' (conj eq_refl (conj Hmovie (conj Hmem
       (frames_play_chosen_motifs ToyPlay.evaluate ToyPlay.evaluate Toy.draw
          false ToyPlay.byte ToyPlay.shuffle ToyPlay.sort ToyPlay.motifs
          2 ToyPlay.p0 p' 8 _ Toy_serializes Hreach ToyPlay_p0_running
          Hrun)))))))).
Defined.

Lemma Greedy_movie_replays_witness :
  let fs := EmulatorLibretro.ResetCache 5 5 Toy.booted in
  let run :=
    Greedy.frames ToyPlay.evaluate ToyPlay.evaluate Toy.draw false
      ToyPlay.byte ToyPlay.shuffle ToyPlay.sort ToyPlay.motifs 3
      (Greedy.constructed [0; 0; 5; 7] fs 0%nat) in
  serializes (Core := Z)
  ∧ Client.running fs 0 (StateCache.Resize 5 5 StateCache.fresh)
  ∧ ∃ p',
      run = Some p'
      ∧ Greedy.movie p' = [0; 0; 5; 2; 0; 2; 0; 2; 0]
      ∧ EmulatorLibretro.GetMemory (PlayFun.emu (Greedy.env p')) = [20]
      ∧ let replayed :=
          EmulatorLibretro.Steps (Greedy.movie p')
            (EmulatorLibretro.ResetCache 100000 10000 fs) in
        EmulatorLibretro.SaveUncompressed [] (PlayFun.emu (Greedy.env p'))
        = EmulatorLibretro.SaveUncompressed [] replayed
        ∧ EmulatorLibretro.GetMemory (PlayFun.emu (Greedy.env p'))
          = EmulatorLibretro.GetMemory replayed.
Proof.
  intros fs run.
  assert ((λ p, (Greedy.movie p,
                 EmulatorLibretro.GetMemory (PlayFun.emu (Greedy.env p))))
            <$> run
          = Some ([0; 0; 5; 2; 0; 2; 0; 2; 0], [20])) as Hend
    by (vm_compute; reflexivity).
  destruct run as [p'|] eqn:Hrun; [|discriminate Hend].
  injection Hend as Hmovie Hmem.
  exact (conj Toy_serializes (conj (Toy_booted_running 5 5)
    (ex_intro _ p' (conj eq_refl (conj Hmovie (conj Hmem
       (Greedy_movie_replays ToyPlay.evaluate ToyPlay.evaluate Toy.draw
          false ToyPlay.byte ToyPlay.shuffle ToyPlay.sort ToyPlay.motifs
          [0; 0; 5; 7] fs 0%nat 3 p' 0 _ Toy_serializes
          (Toy_booted_running 5 5) Hrun))))))).
Defined.

Lemma frames_bookkeeping_witness :
  (length (Greedy.recent_futures ToyPlay.p0) ≤ Greedy.HISTORY_SIZE)%nat
  ∧ ∃ p',
      ToyPlay.run 30 = Some p'
      ∧ (Greedy.avoid_depths p', Greedy.seek_depths p')
        = ((40, 150), (50, 50, 100))
      ∧ length (Greedy.recent_futures p')
        = Nat.min (length (Greedy.recent_futures ToyPlay.p0) + 30)
                  Greedy.HISTORY_SIZE
      ∧ length (Greedy.memories p')
        = (length (Greedy.memories ToyPlay.p0) + 30)%nat
      ∧ ((length (Greedy.recent_futures ToyPlay.p0) + 30
          < Greedy.HISTORY_SIZE / 2)%nat →
         (Greedy.avoid_depths p', Greedy.seek_depths p')
         = (Greedy.avoid_depths ToyPlay.p0, Greedy.seek_depths ToyPlay.p0))
      ∧ (Greedy.avoid_depths p', Greedy.seek_depths p')
        ∈ [(Greedy.avoid_depths ToyPlay.p0, Greedy.seek_depths ToyPlay.p0);
           ((10, 30), (15, 15, 25)); ((40, 150), (50, 50, 100));
           ((20, 75), (30, 30, 50))].
Proof.
  assert (length (Greedy.recent_futures ToyPlay.p0) ≤ Greedy.HISTORY_SIZE)%nat
    as Hlen by (vm_compute; lia).
  assert ((λ p, (Greedy.avoid_depths p, Greedy.seek_depths p))
            <$> ToyPlay.run 30
          = Some ((40, 150), (50, 50, 100))) as Hend
    by (vm_compute; reflexivity).
  destruct (ToyPlay.run 30) as [p'|] eqn:Hrun; [|discriminate Hend].
  injection Hend as Havoid Hseek.
  assert ((Greedy.avoid_depths p', Greedy.seek_depths p')
          = ((40, 150), (50, 50, 100))) as Hdepths by (by rewrite Havoid, Hseek).
  exact (conj Hlen (ex_intro _ p' (conj eq_refl (conj Hdepths
    (frames_bookkeeping ToyPlay.evaluate ToyPlay.evaluate Toy.draw
       false ToyPlay.byte ToyPlay.shuffle ToyPlay.sort ToyPlay.motifs
       30 ToyPlay.p0 p' Hlen Hrun))))).
Defined.

